(** * yourcv-pdf-service: admission control, shared renderer and font cache

    A shallow embedding of [server.js].  The handler of [POST /api/pdf] and
    the asynchronous functions it calls are written as resumption programs
    ([prog]): a program runs synchronously over the module-level variables
    of the server until it awaits a promise of a collaborator (puppeteer,
    [fetch], the admission race), where it is suspended and other programs
    may run.  Two semantics are given to the same programs: [run] takes one
    program to completion against an oracle for the collaborators, and
    [pstep] interleaves several programs the way the event loop does. *)

From stdpp Require Import base list strings gmap.
From Stdlib Require Import ZArith Lia.

Set Default Proof Using "Type".

(** ** JavaScript values of the request body *)

(** A field of the parsed JSON body.  The handler only tests such a value
    for truthiness, compares it with string literals, interpolates it into
    text and uses it as a property key, so a number is kept as "is it
    non-zero" with its rendering, and an array or object as its rendering
    (an object whose conversion to text throws is not represented).
    [JUndefined] is an absent field. *)
Inductive jsval :=
| JUndefined
| JNull
| JBool (b : bool)
| JStr (s : string)
| JNum (nonzero : bool) (shown : string)
| JObj (shown : string).

(** [!!v] *)
Definition truthy (v : jsval) : bool :=
  match v with
  | JUndefined | JNull => false
  | JBool b => b
  | JStr s => negb (String.eqb s EmptyString)
  | JNum nonzero _ => nonzero
  | JObj _ => true
  end.

(** [v === 'lit'] *)
Definition strict_eq (v : jsval) (lit : string) : bool :=
  match v with
  | JStr s => String.eqb s lit
  | _ => false
  end.

(** [String(v)], as used by template literals and property keys *)
Definition to_text (v : jsval) : string :=
  match v with
  | JUndefined => "undefined"
  | JNull => "null"
  | JBool true => "true"
  | JBool false => "false"
  | JStr s => s
  | JNum _ shown => shown
  | JObj shown => shown
  end.

(** [s.includes(sub)] *)
Fixpoint includes (s sub : string) : bool :=
  String.prefix sub s
  || match s with
     | EmptyString => false
     | String _ rest => includes rest sub
     end.

(** ** Requests, responses, errors *)

(** [req.headers['x-api-key']] and the destructured fields of [req.body]. *)
Record request := Request {
  apiKey : option string;
  html : jsval;
  css : jsval;
  format : jsval;
  fontFamily : jsval;
}.

(** What [res] was made to send: [res.status(s).json({ error })], or the
    PDF with its three headers and [res.end(pdfBuffer)]. *)
Inductive response :=
| Json (status : Z) (error : string)
| Pdf (bytes : string).

(** A thrown [Error]; only [message] is ever inspected. *)
Record error := JsError { message : string }.

(** The state a promise settles in. *)
Inductive settled (X : Type) : Type :=
| Fulfilled (x : X)
| Rejected (e : error).
Arguments Fulfilled {X} x.
Arguments Rejected {X} e.

(** ** Calls to collaborators and updates of the server's variables *)

(** The promises the server awaits, indexed by the type of the value each
    fulfils with.  Browsers and pages are named by numbers. *)
Inductive call : Type -> Type :=
| Launch : call nat                                   (* puppeteer.launch({...}) *)
| BrowserClose (b : nat) : call unit                  (* browser.close() *)
| NewPage (b : nat) : call nat                        (* b.newPage() *)
| SetJavaScriptEnabled (p : nat) (on : bool) : call unit
| SetViewport (p : nat) (width height scale : Z) : call unit
| Fetch (url : string) : call unit                    (* fetch(url, {...}) *)
| ResText (url : string) : call string                (* res.text() *)
| SetContent (p : nat) (doc : string) : call unit     (* page.setContent(doc, {...}) *)
| PagePdf (p : nat) (fmt : string) : call string      (* page.pdf({ format, ... }) *)
| PageClose (p : nat) : call unit                     (* page.close() *)
| SlotRace (t : nat) : call unit.                     (* Promise.race([acquireSlot(), slotTimeout]) *)

(** The synchronous updates of shared and per-request variables. *)
Inductive op :=
| AcquireSlot                       (* acquireSlot() *)
| ReleaseSlot                       (* releaseSlot() *)
| SetBrowser (b : option nat)       (* browser = ... *)
| CacheSet (k : jsval) (v : string) (* fontCSSCache.set(k, v) *)
| LetPage (rid : nat)               (* let page;    (the handler's local) *)
| SetPage (rid p : nat)             (* page = ... *)
| Respond (rid : nat) (r : response).

(** One entry of the log of what the server did. *)
Inductive item :=
| Called {X : Type} (c : call X)
| Did (o : op).

(** ** The server's variables *)

(** [activeJobs] and [waitQueue].  A queue entry is the [resolve] callback
    of the promise made by one [acquireSlot()] call; promises are numbered
    in the order they are made ([tickets] counts them) and [resolved] lists
    those whose callback has run, oldest first. *)
Record admission := Admission {
  activeJobs : Z;
  waitQueue : list nat;
  resolved : list nat;
  tickets : nat;
}.

(** [browser] is [None] for [undefined] and [null]; [dead] lists the
    browsers whose [connected] is false; [page] and [sent] hold, per
    request, the handler's local [page] and what [res] has sent. *)
Record world := World {
  slots : admission;
  browser : option nat;
  dead : list nat;
  fontCSSCache : gmap string string;
  page : gmap nat nat;
  sent : gmap nat response;
  trace : list item;
}.

Definition with_slots (a : admission) (w : world) : world :=
  World a (browser w) (dead w) (fontCSSCache w) (page w) (sent w) (trace w).
Definition with_browser (b : option nat) (w : world) : world :=
  World (slots w) b (dead w) (fontCSSCache w) (page w) (sent w) (trace w).
Definition with_dead (d : list nat) (w : world) : world :=
  World (slots w) (browser w) d (fontCSSCache w) (page w) (sent w) (trace w).
Definition with_cache (c : gmap string string) (w : world) : world :=
  World (slots w) (browser w) (dead w) c (page w) (sent w) (trace w).
Definition with_page (p : gmap nat nat) (w : world) : world :=
  World (slots w) (browser w) (dead w) (fontCSSCache w) p (sent w) (trace w).
Definition with_sent (s : gmap nat response) (w : world) : world :=
  World (slots w) (browser w) (dead w) (fontCSSCache w) (page w) s (trace w).
Definition with_trace (t : list item) (w : world) : world :=
  World (slots w) (browser w) (dead w) (fontCSSCache w) (page w) (sent w) t.

(** The server before its first request. *)
Definition boot : world :=
  World (Admission 0 [] [] 0) None [] ∅ ∅ ∅ [].

(** ** Resumption programs *)

Inductive prog (A : Type) : Type :=
| Ret (a : A)
| Throw (e : error)
| Read (k : world -> prog A)
| Do (o : op) (k : prog A)
| Await {X : Type} (c : call X) (k : settled X -> prog A).
Arguments Ret {A} a.
Arguments Throw {A} e.
Arguments Read {A} k.
Arguments Do {A} o k.
Arguments Await {A X} c k.

Fixpoint bind {A B : Type} (p : prog A) (f : A -> prog B) : prog B :=
  match p with
  | Ret a => f a
  | Throw e => Throw e
  | Read k => Read (fun w => bind (k w) f)
  | Do o k => Do o (bind k f)
  | Await c k => Await c (fun r => bind (k r) f)
  end.

(** [try { p } catch (e) { h e }] *)
Fixpoint catch {A : Type} (p : prog A) (h : error -> prog A) : prog A :=
  match p with
  | Ret a => Ret a
  | Throw e => h e
  | Read k => Read (fun w => catch (k w) h)
  | Do o k => Do o (catch k h)
  | Await c k => Await c (fun r => catch (k r) h)
  end.

(** [try { p } finally { q }] *)
Fixpoint finally {A : Type} (p : prog A) (q : prog unit) : prog A :=
  match p with
  | Ret a => bind q (fun _ => Ret a)
  | Throw e => bind q (fun _ => Throw e)
  | Read k => Read (fun w => finally (k w) q)
  | Do o k => Do o (finally k q)
  | Await c k => Await c (fun r => finally (k r) q)
  end.

Notation "'let*' x ':=' p 'in' k" := (bind p (fun x => k))
  (at level 10, x pattern, p at level 100, k at level 200).

(** [await c] *)
Definition await {X : Type} (c : call X) : prog X :=
  Await c (fun r => match r with Fulfilled x => Ret x | Rejected e => Throw e end).

(** [try { p } catch {}] and [promise.catch(() => {})] *)
Definition swallow (p : prog unit) : prog unit := catch p (fun _ => Ret tt).

Definition perform (o : op) : prog unit := Do o (Ret tt).
Definition read : prog world := Read Ret.

(** How the collaborators settle a call. *)
Definition answer : Type := forall X : Type, call X -> settled X.

(** Collaborators that fulfil every call, with [n] where a browser or a
    page is made and [s] where text or bytes are delivered; and
    collaborators that reject every call. *)
Definition fulfil (n : nat) (s : string) : answer :=
  fun X c =>
    match c in call X return settled X with
    | Launch => Fulfilled n
    | NewPage _ => Fulfilled n
    | ResText _ => Fulfilled s
    | PagePdf _ _ => Fulfilled s
    | _ => Fulfilled tt
    end.

Definition reject (e : error) : answer := fun X _ => Rejected e.

(** ** Reading the log *)

Definition acquired (i : item) : option unit :=
  match i with Did AcquireSlot => Some tt | _ => None end.
Definition released (i : item) : option unit :=
  match i with Did ReleaseSlot => Some tt | _ => None end.
Definition opened (i : item) : option nat :=
  match i with Did (SetPage _ p) => Some p | _ => None end.
Definition closed (i : item) : option nat :=
  match i with
  | Called c => match c with PageClose p => Some p | _ => None end
  | Did _ => None
  end.
Definition launched (i : item) : option unit :=
  match i with
  | Called c => match c with Launch => Some tt | _ => None end
  | Did _ => None
  end.
Definition fetched (i : item) : option string :=
  match i with
  | Called c => match c with Fetch url => Some url | _ => None end
  | Did _ => None
  end.
Definition new_page (i : item) : option nat :=
  match i with
  | Called c => match c with NewPage b => Some b | _ => None end
  | Did _ => None
  end.
Definition pdf_format (i : item) : option string :=
  match i with
  | Called c => match c with PagePdf _ fmt => Some fmt | _ => None end
  | Did _ => None
  end.

(** ** Programs of the event loop *)

(** The shared variables and the programs in flight, each suspended on a
    call or ended. *)
Record pool (A : Type) := Pool { shared : world; tasks : list (prog A) }.
Arguments Pool {A} shared tasks.
Arguments shared {A} p.
Arguments tasks {A} p.

(** A call of an asynchronous function starts; the promise awaited by
    program [i] settles; a browser loses its connection. *)
Inductive event (A : Type) :=
| Spawn (p : prog A)
| Resume (i : nat) (ans : answer)
| Crash (b : nat).
Arguments Spawn {A} p.
Arguments Resume {A} i ans.
Arguments Crash {A} b.

(** [new Error('QUEUE_TIMEOUT')] *)
Definition QUEUE_TIMEOUT : error := JsError "QUEUE_TIMEOUT".

(** ** Sample inputs *)

(** A request for a CV with no font, format or key. *)
Definition cv_request : request :=
  Request None (JStr "<h1>CV</h1>") JUndefined JUndefined JUndefined.

(** Collaborators that work. *)
Definition ok : answer := fulfil 1 "%PDF-1.7".

(** Collaborators whose [page.pdf] finds the browser gone. *)
Definition target_closed : error :=
  JsError "Protocol error (Page.printToPDF): Target closed".
Definition pdf_crashes : answer :=
  fun X c =>
    match c in call X return settled X with
    | PagePdf _ _ => Rejected target_closed
    | c' => ok _ c'
    end.

Definition roboto_url : string :=
  "https://fonts.googleapis.com/css2?family=Roboto:wght@300;400;500;700&display=swap".

Definition array_request : request :=
  Request None (JStr "<h1>CV</h1>") JUndefined JUndefined (JObj "Roboto").
Definition comic_request : request :=
  Request None (JStr "<h1>CV</h1>") JUndefined JUndefined (JStr "Comic Sans").
Definition constructor_request : request :=
  Request None (JStr "<h1>CV</h1>") JUndefined JUndefined (JStr "constructor").
Definition legal_request : request :=
  Request None (JStr "<h1>CV</h1>") JUndefined (JStr "Legal") JUndefined.

(** A network that is down, and a machine on which Chromium does not
    start. *)
Definition offline : answer := reject (JsError "fetch failed").
Definition no_chromium : answer := reject (JsError "Failed to launch the browser process").

(** ** The functions of [server.js] *)

Section Server.

(** [parseInt(process.env.MAX_CONCURRENT || '3', 10)] (taken to be a
    number), [process.env.PDF_API_KEY || ''], and the [@font-face] rule
    that [loadInterFont] builds once at startup. *)
Variable MAX_CONCURRENT : Z.
Variable API_KEY : string.
Variable interFontCSS : string.

(** *** Concurrency queue *)

(** The executor of [new Promise((resolve) => ...)]: the promise being
    made is number [tickets a]. *)
Definition acquireSlot (a : admission) : admission :=
  if (activeJobs a <? MAX_CONCURRENT)%Z
  then Admission (activeJobs a + 1) (waitQueue a)
                 (resolved a ++ [tickets a]) (S (tickets a))
  else Admission (activeJobs a) (waitQueue a ++ [tickets a])
                 (resolved a) (S (tickets a)).

Definition releaseSlot (a : admission) : admission :=
  match waitQueue a with
  | next :: rest =>
      (* don't decrement, slot transfers to next waiter *)
      Admission (activeJobs a) rest (resolved a ++ [next]) (tickets a)
  | [] => Admission (activeJobs a - 1) [] (resolved a) (tickets a)
  end.

(** *** Font CSS cache *)

Definition FONT_URLS : gmap string string :=
  list_to_map
    [("Inter", "https://fonts.googleapis.com/css2?family=Inter:wght@300;400;500;600;700&display=swap");
     ("Noto Serif", "https://fonts.googleapis.com/css2?family=Noto+Serif:ital,wght@0,400;0,500;0,600;0,700;1,400&display=swap");
     ("Roboto", "https://fonts.googleapis.com/css2?family=Roboto:wght@300;400;500;700&display=swap");
     ("Open Sans", "https://fonts.googleapis.com/css2?family=Open+Sans:wght@300;400;600;700&display=swap");
     ("Lato", "https://fonts.googleapis.com/css2?family=Lato:wght@300;400;700&display=swap");
     ("Montserrat", "https://fonts.googleapis.com/css2?family=Montserrat:wght@300;400;500;600;700&display=swap");
     ("Playfair Display", "https://fonts.googleapis.com/css2?family=Playfair+Display:wght@400;500;600;700&display=swap")].

(** [FONT_URLS] is an object literal, so a lookup that finds no key of
    the literal goes on in [Object.prototype].  These are its members,
    each with the text [String(v)] of its value [v]: eleven functions,
    and under [__proto__] the prototype itself. *)
Definition PROTOTYPE_MEMBERS : list (string * string) :=
  [("constructor", "function Object() { [native code] }");
   ("__defineGetter__", "function __defineGetter__() { [native code] }");
   ("__defineSetter__", "function __defineSetter__() { [native code] }");
   ("hasOwnProperty", "function hasOwnProperty() { [native code] }");
   ("__lookupGetter__", "function __lookupGetter__() { [native code] }");
   ("__lookupSetter__", "function __lookupSetter__() { [native code] }");
   ("isPrototypeOf", "function isPrototypeOf() { [native code] }");
   ("propertyIsEnumerable", "function propertyIsEnumerable() { [native code] }");
   ("toString", "function toString() { [native code] }");
   ("valueOf", "function valueOf() { [native code] }");
   ("__proto__", "[object Object]");
   ("toLocaleString", "function toLocaleString() { [native code] }")].

Definition OBJECT_PROTOTYPE : gmap string string := list_to_map PROTOTYPE_MEMBERS.

(** [FONT_URLS[fontName]]: the key is the text of the value.  Every URL
    of the table is a non-empty string and every inherited member is a
    function or an object, so the value is truthy exactly when the name
    is found, in the table or in the prototype.  Where the value goes to
    [fetch], an inherited member is given as its text, which is what
    [fetch] makes of an input that is neither a string nor a request. *)
Definition font_url (fontName : jsval) : option string :=
  match FONT_URLS !! to_text fontName with
  | Some url => Some url
  | None => OBJECT_PROTOTYPE !! to_text fontName
  end.

(** [fontCSSCache.has(k)] with [fontCSSCache.get(k)].  A [Map] compares
    a string key by value; an array or object key is a fresh object on
    every request and is never found again. *)
Definition cache_get (w : world) (fontName : jsval) : option string :=
  match fontName with
  | JStr s => fontCSSCache w !! s
  | _ => None
  end.

(** [fontCSSCache.set(k, v)]: an entry under an array or object key is
    out of every later caller's reach. *)
Definition cache_set (fontName : jsval) (v : string) (m : gmap string string)
  : gmap string string :=
  match fontName with
  | JStr s => <[s := v]> m
  | _ => m
  end.

(** The [try] statement of [getFontCSS], from [res.text()] on and as a
    whole. *)
Definition read_css (fontName : jsval) (url : string) : prog string :=
  catch
    (let* css := await (ResText url) in
     let* _ := perform (CacheSet fontName css) in
     Ret css)
    (fun _ => Ret EmptyString).

Definition fetch_css (fontName : jsval) (url : string) : prog string :=
  catch
    (let* _ := await (Fetch url) in
     let* css := await (ResText url) in
     let* _ := perform (CacheSet fontName css) in
     Ret css)
    (fun _ => Ret EmptyString).

Definition getFontCSS (fontName : jsval) : prog string :=
  match font_url fontName with
  | None => Ret EmptyString
  | Some url =>
      let* w := read in
      match cache_get w fontName with
      | Some css => Ret css
      | None => fetch_css fontName url
      end
  end.

(** *** Browser management *)

(** [browser.connected] *)
Definition connected (w : world) (b : nat) : bool := bool_decide (b ∉ dead w).

(** [!browser || !browser.connected] *)
Definition unusable (w : world) : bool :=
  match browser w with
  | None => true
  | Some b => negb (connected w b)
  end.

Definition getBrowser : prog (option nat) :=
  let* w := read in
  let* _ :=
    (if unusable w then
       let* _ := (match browser w with
                  | Some b => swallow (await (BrowserClose b))
                  | None => Ret tt
                  end) in
       let* b := await Launch in
       perform (SetBrowser (Some b))
     else Ret tt) in
  let* w' := read in
  Ret (browser w').

(** *** PDF generation *)

Definition respond (rid : nat) (r : response) : prog unit := perform (Respond rid r).

(** [res.headersSent] *)
Definition headersSent (w : world) (rid : nat) : bool :=
  bool_decide (is_Some (sent w !! rid)).

(** [API_KEY && apiKey !== API_KEY] *)
Definition unauthorized (req : request) : bool :=
  negb (String.eqb API_KEY EmptyString)
  && negb (match apiKey req with
           | Some k => String.eqb k API_KEY
           | None => false
           end).

(** [format = 'A4'] in the destructuring pattern *)
Definition format_of (req : request) : jsval :=
  match format req with
  | JUndefined => JStr "A4"
  | v => v
  end.

(** [format === 'Letter' ? 'letter' : 'a4'] *)
Definition paper (req : request) : string :=
  if strict_eq (format_of req) "Letter" then "letter" else "a4".

Definition fallbackFontCSS : string := "
      @font-face {
        font-family: 'Inter';
        src: local('Inter');
        font-weight: 100 900;
        font-style: normal;
        font-display: swap;
      }
    ".

Definition dquote : string := String (Ascii.ascii_of_nat 34) EmptyString.
Definition newline : string := String (Ascii.ascii_of_nat 10) EmptyString.

Definition fullHtml (fontCSS : string) (req : request) : string :=
  "<!DOCTYPE html>
<html>
<head>
  <meta charset=" +:+ dquote +:+ "UTF-8" +:+ dquote +:+ ">
  <style>
    " +:+ fontCSS +:+ "
    * { margin: 0; padding: 0; box-sizing: border-box; }
    body { background: white; font-family: 'Inter', system-ui, sans-serif; }
    " +:+ (if truthy (css req) then to_text (css req) else EmptyString) +:+ "
  </style>
</head>
<body>
  " +:+ to_text (html req) +:+ "
</body>
</html>".

(** The test of the [catch] block: the browser crashed. *)
Definition crashed (e : error) : bool :=
  negb (String.eqb (message e) EmptyString)
  && (includes (message e) "detached"
      || includes (message e) "closed"
      || includes (message e) "crashed").

(** [b.newPage()] on [null] *)
Definition null_browser : error :=
  JsError "Cannot read properties of null (reading 'newPage')".

Definition try_block (rid : nat) (req : request) : prog unit :=
  let* b := getBrowser in
  let* p := (match b with
             | Some b => await (NewPage b)
             | None => Throw null_browser
             end) in
  let* _ := perform (SetPage rid p) in
  let* _ := await (SetJavaScriptEnabled p false) in
  let* _ := await (SetViewport p 794 1123 1) in
  let fontCSS := if String.eqb interFontCSS EmptyString
                 then fallbackFontCSS else interFontCSS in
  let* fontCSS :=
    (if truthy (fontFamily req)
        && negb (strict_eq (fontFamily req) "Inter")
        && bool_decide (is_Some (font_url (fontFamily req)))
     then let* more := getFontCSS (fontFamily req) in
          Ret (fontCSS +:+ newline +:+ more)
     else Ret fontCSS) in
  let* _ := await (SetContent p (fullHtml fontCSS req)) in
  let* pdf := await (PagePdf p (paper req)) in
  respond rid (Pdf pdf).

Definition catch_block (rid : nat) (error : error) : prog unit :=
  let* _ :=
    (if crashed error then
       let* w := read in
       let* _ := (match browser w with
                  | Some b => swallow (await (BrowserClose b))
                  | None => Ret tt
                  end) in
       perform (SetBrowser None)
     else Ret tt) in
  let* w := read in
  if negb (headersSent w rid)
  then respond rid (Json 500 "PDF generation failed")
  else Ret tt.

Definition finally_block (rid : nat) : prog unit :=
  let* w := read in
  let* _ := (match page w !! rid with
             | Some p => swallow (await (PageClose p))
             | None => Ret tt
             end) in
  perform ReleaseSlot.

(** The handler from [let page;] on: the job holds a slot. *)
Definition render (rid : nat) (req : request) : prog unit :=
  let* _ := perform (LetPage rid) in
  finally (catch (try_block rid req) (catch_block rid)) (finally_block rid).

(** [app.post('/api/pdf', async (req, res) => ...)]; [rid] names the
    request and its [res]. *)
Definition post_api_pdf (rid : nat) (req : request) : prog unit :=
  if unauthorized req then respond rid (Json 401 "Unauthorized")
  else if negb (truthy (html req)) then respond rid (Json 400 "HTML content is required")
  else
    let* w := read in
    let* _ := perform AcquireSlot in
    let* admitted :=
      catch
        (let* _ := await (SlotRace (tickets (slots w))) in Ret true)
        (fun e =>
           if String.eqb (message e) "QUEUE_TIMEOUT"
           then let* _ := respond rid (Json 504 "Request timed out, please try again") in
                Ret false
           else Throw e) in
    if (admitted : bool) then render rid req else Ret tt.

Arguments fullHtml : simpl never.
Arguments paper : simpl never.

(** ** Semantics *)

Definition apply_op (o : op) (w : world) : world :=
  with_trace (trace w ++ [Did o])
    match o with
    | AcquireSlot => with_slots (acquireSlot (slots w)) w
    | ReleaseSlot => with_slots (releaseSlot (slots w)) w
    | SetBrowser b => with_browser b w
    | CacheSet k v => with_cache (cache_set k v (fontCSSCache w)) w
    | LetPage rid => with_page (delete rid (page w)) w
    | SetPage rid p => with_page (<[rid := p]> (page w)) w
    | Respond rid r => with_sent (<[rid := r]> (sent w)) w
    end.

(** The call is logged when the program reaches the [await]. *)
Definition note {X : Type} (c : call X) (w : world) : world :=
  with_trace (trace w ++ [Called c]) w.

(** One program taken to completion: the [n]-th await is settled by
    [env n]. *)
Fixpoint run {A : Type} (p : prog A) (env : nat -> answer) (n : nat) (w : world)
  : settled A * world * nat :=
  match p with
  | Ret a => (Fulfilled a, w, n)
  | Throw e => (Rejected e, w, n)
  | Read k => run (k w) env n w
  | Do o k => run k env n (apply_op o w)
  | Await c k => run (k (env n _ c)) env (S n) (note c w)
  end.

Definition outcome {A : Type} (x : settled A * world * nat) : settled A := x.1.1.
Definition after {A : Type} (x : settled A * world * nat) : world := x.1.2.

(** [wp p Q w]: however the collaborators settle its calls, [p] started
    in [w] ends in a result and a world that satisfy [Q]. *)
Fixpoint wp {A : Type} (p : prog A) (Q : settled A -> world -> Prop) (w : world) : Prop :=
  match p with
  | Ret a => Q (Fulfilled a) w
  | Throw e => Q (Rejected e) w
  | Read k => wp (k w) Q w
  | Do o k => wp k Q (apply_op o w)
  | Await c k => forall r, wp (k r) Q (note c w)
  end.

(** *** The event loop *)

(** A program runs until it awaits a collaborator (or ends); nothing
    else runs in between.  Awaiting the promise of one of the server's
    own asynchronous functions, as in [await getBrowser()], is not a
    suspension of its own here: the caller goes on in the turn in which
    the callee returns. *)
Fixpoint advance {A : Type} (p : prog A) (w : world) : prog A * world :=
  match p with
  | Ret a => (Ret a, w)
  | Throw e => (Throw e, w)
  | Read k => advance (k w) w
  | Do o k => advance k (apply_op o w)
  | Await c k => (Await c k, note c w)
  end.

(** The admission race is settled by the server itself: by the
    [acquireSlot()] promise if its [resolve] has run, by the timer
    otherwise.  Every other call is settled by the collaborator. *)
Definition settle {X : Type} (w : world) (ans : answer) (c : call X) : settled X :=
  match c in call X return settled X with
  | SlotRace t =>
      if bool_decide (t ∈ resolved (slots w))
      then Fulfilled tt else Rejected QUEUE_TIMEOUT
  | c' => ans _ c'
  end.

Definition pstep {A : Type} (s : pool A) (e : event A) : option (pool A) :=
  match e with
  | Spawn p =>
      let '(p', w') := advance p (shared s) in
      Some (Pool w' (tasks s ++ [p']))
  | Resume i ans =>
      match tasks s !! i with
      | Some (Await c k) =>
          let '(p', w') := advance (k (settle (shared s) ans c)) (shared s) in
          Some (Pool w' (<[i := p']> (tasks s)))
      | _ => None
      end
  | Crash b => Some (Pool (with_dead (b :: dead (shared s)) (shared s)) (tasks s))
  end.

Fixpoint pexec {A : Type} (es : list (event A)) (s : pool A) : option (pool A) :=
  match es with
  | [] => Some s
  | e :: es' =>
      match pstep s e with
      | Some s' => pexec es' s'
      | None => None
      end
  end.

(** *** Sequences of admission operations *)

(** The admission state together with what became of each promise:
    [expired] lists the promises whose race was lost to the timer (the
    handler answered 504 and returned; its [resolve] callback stays
    wherever it is), [finished] those whose job has reached its
    [finally] block and called [releaseSlot]. *)
Record system := System {
  adm : admission;
  expired : list nat;
  finished : list nat;
}.

(** A request calls [acquireSlot()]; the timer of a pending race fires;
    the job admitted through promise [t] releases its slot. *)
Inductive cmd :=
| Arrive
| Expire (t : nat)
| Finish (t : nat).

Definition start : system := System (Admission 0 [] [] 0) [] [].

Definition step (s : system) (c : cmd) : option system :=
  match c with
  | Arrive => Some (System (acquireSlot (adm s)) (expired s) (finished s))
  | Expire t =>
      if bool_decide (t < tickets (adm s) /\ (t ∉ resolved (adm s)) /\ (t ∉ expired s))
      then Some (System (adm s) (t :: expired s) (finished s))
      else None
  | Finish t =>
      if bool_decide ((t ∈ resolved (adm s)) /\ (t ∉ expired s) /\ (t ∉ finished s))
      then Some (System (releaseSlot (adm s)) (expired s) (t :: finished s))
      else None
  end.

Fixpoint exec (cs : list cmd) (s : system) : option system :=
  match cs with
  | [] => Some s
  | c :: cs' =>
      match step s c with
      | Some s' => exec cs' s'
      | None => None
      end
  end.

(** Promises that were handed a slot which has not been released, and
    among them those whose job is there to use it. *)
Definition outstanding (s : system) : list nat :=
  filter (fun t => t ∉ finished s) (resolved (adm s)).
Definition holding (s : system) : list nat :=
  filter (fun t => (t ∉ expired s) /\ (t ∉ finished s)) (resolved (adm s)).

(** ** Notions used by the proofs *)

(** Log entries of the browser manager, the font cache and [res]. *)
Definition calm (i : item) : bool :=
  match i with
  | Did (SetBrowser _) | Did (CacheSet _ _) | Did (Respond _ _) => true
  | Did _ => false
  | Called c =>
      match c with
      | Launch | BrowserClose _ | Fetch _ | ResText _ => true
      | _ => false
      end
  end.

Definition calmly (w w' : world) : Prop :=
  slots w' = slots w /\ page w' = page w
  /\ exists new, trace w' = trace w ++ new /\ forallb calm new = true.

(** *** Counting log entries across interleavings *)

Definition hits {B : Type} (f : item -> option B) (i : item) : nat :=
  match f i with Some _ => 1 | None => 0 end.

Definition count {B : Type} (f : item -> option B) (t : list item) : nat :=
  length (omap f t).

(** Every path of [p] logs exactly [k] entries picked by [f]. *)
Fixpoint logs {B A : Type} (f : item -> option B) (p : prog A) (k : nat) : Prop :=
  match p with
  | Ret _ | Throw _ => k = 0
  | Read g => forall w, logs f (g w) k
  | Do o p' => hits f (Did o) <= k /\ logs f p' (k - hits f (Did o))
  | Await c g =>
      hits f (Called c) <= k /\ forall r, logs f (g r) (k - hits f (Called c))
  end.

(** The same for a program of the pool: it has ended, or it is
    suspended on a call that is already in the log. *)
Definition owes {B A : Type} (f : item -> option B) (p : prog A) (k : nat) : Prop :=
  match p with
  | Ret _ | Throw _ => k = 0
  | Await c g => forall r, logs f (g r) k
  | _ => False
  end.

Definition ended {A : Type} (p : prog A) : Prop :=
  match p with
  | Ret _ | Throw _ => True
  | _ => False
  end.

Definition resumption {A : Type} (e : event A) : Prop :=
  match e with
  | Spawn _ => False
  | _ => True
  end.

(** The calls made so far and the calls still to come add up to
    [total]. *)
Definition balanced {B A : Type} (f : item -> option B) (q : pool A) (total : nat)
  : Prop :=
  exists ks, Forall2 (owes f) (tasks q) ks
             /\ count f (trace (shared q)) + sum_list ks = total.

(** What [acquireSlot] and [releaseSlot] preserve, whoever calls them:
    promises are resolved in the order they were made and the queue
    holds the rest, oldest first; nobody waits while a slot is free; the
    counter stays within the capacity. *)
Record queue_inv (a : admission) : Prop := QueueInv {
  q_order : resolved a ++ waitQueue a = seq 0 (tickets a);
  q_full : waitQueue a <> [] -> (MAX_CONCURRENT <= activeJobs a)%Z;
  q_cap : (activeJobs a <= Z.max 0 MAX_CONCURRENT)%Z;
}.

(** What every sequence of admission operations preserves. *)
Record admission_inv (s : system) : Prop := AdmissionInv {
  inv_queue : queue_inv (adm s);
  inv_count : activeJobs (adm s) = Z.of_nat (length (outstanding s));
  inv_finished : forall t, t ∈ finished s -> t ∈ resolved (adm s);
}.

(** With the queue invariant: every call of [releaseSlot] in the log
    either lowered the counter or resolved a promise, and every other
    resolved promise raised it. *)
Definition slot_inv (w : world) : Prop :=
  queue_inv (slots w)
  /\ (activeJobs (slots w) + Z.of_nat (count released (trace w))
      = Z.of_nat (length (resolved (slots w))))%Z.

(** A [getBrowser] call suspended on [puppeteer.launch], and one
    suspended on closing the disconnected browser [b]. *)
Definition launching : prog (option nat) := (advance getBrowser boot).1.
Definition closing (b : nat) : prog (option nat) :=
  let* _ :=
    (let* _ := swallow (await (BrowserClose b)) in
     let* b' := await Launch in
     perform (SetBrowser (Some b'))) in
  let* w' := read in
  Ret (browser w').

(** ** Startup, health check, shutdown *)

(** [Object.keys(FONT_URLS)]: the names in the order of the literal. *)
Definition FONT_NAMES : list string :=
  ["Inter"; "Noto Serif"; "Roboto"; "Open Sans"; "Lato"; "Montserrat";
   "Playfair Display"].

(** The argument of [Promise.all] in [prewarmFontCache]: one [getFontCSS]
    call per name, each started, and run up to its first [await], before
    the next one starts. *)
Definition prewarmFontCache : list (prog string) :=
  (fun f => getFontCSS (JStr f)) <$> FONT_NAMES.

(** The body sent by [GET /health]. *)
Record health_body := HealthBody {
  status : string;
  health_activeJobs : Z;
  queued : nat;
  browserConnected : bool;
}.

(** [browserConnected] is [browser?.connected ?? false]. *)
Definition health (w : world) : health_body :=
  HealthBody "ok" (activeJobs (slots w)) (length (waitQueue (slots w)))
    (match browser w with
     | Some b => connected w b
     | None => false
     end).

(** [shutdown], up to [process.exit(0)]. *)
Definition shutdown : prog unit :=
  let* w := read in
  match browser w with
  | Some b => swallow (await (BrowserClose b))
  | None => Ret tt
  end.

(** The callback that [startKeepAlive] hands to [setInterval], and
    [startKeepAlive] itself: no callback when [KEEP_ALIVE_URL] is unset
    or empty. *)
Definition keepAlive (url : string) : prog unit :=
  swallow (await (Fetch (url +:+ "/health"))).

Definition startKeepAlive (KEEP_ALIVE_URL : option string) : option (prog unit) :=
  match KEEP_ALIVE_URL with
  | Some url => if String.eqb url EmptyString then None else Some (keepAlive url)
  | None => None
  end.

(** ** More readings of the log *)

Definition responded (i : item) : option (nat * response) :=
  match i with Did (Respond rid r) => Some (rid, r) | _ => None end.

Definition browser_closed (i : item) : option nat :=
  match i with
  | Called c => match c with BrowserClose b => Some b | _ => None end
  | Did _ => None
  end.

(** The calls made on a browser to get a page, and on a page. *)
Inductive page_step :=
| PNew (b : nat)
| PJs (p : nat) (on : bool)
| PViewport (p : nat) (width height scale : Z)
| PContent (p : nat) (doc : string)
| PPdf (p : nat) (fmt : string)
| PClose (p : nat).

Definition page_call (i : item) : option page_step :=
  match i with
  | Called c =>
      match c with
      | NewPage b => Some (PNew b)
      | SetJavaScriptEnabled p on => Some (PJs p on)
      | SetViewport p width height scale => Some (PViewport p width height scale)
      | SetContent p doc => Some (PContent p doc)
      | PagePdf p fmt => Some (PPdf p fmt)
      | PageClose p => Some (PClose p)
      | _ => None
      end
  | Did _ => None
  end.

(** ** More notions used by the proofs *)

(** How a call can settle in the running server: the admission race is
    won by [acquireSlot()] or lost to the timer, whose error is
    [QUEUE_TIMEOUT]; a collaborator may do anything. *)
Definition lawful {X : Type} (c : call X) : settled X -> Prop :=
  match c in call X return settled X -> Prop with
  | SlotRace _ => fun r => r = Fulfilled tt \/ r = Rejected QUEUE_TIMEOUT
  | _ => fun _ => True
  end.

(** No path of the program ends in an exception. *)
Fixpoint safe {A : Type} (p : prog A) : Prop :=
  match p with
  | Ret _ => True
  | Throw _ => False
  | Read k => forall w, safe (k w)
  | Do _ k => safe k
  | Await c k => forall r, lawful c r -> safe (k r)
  end.

Definition safe_event {A : Type} (e : event A) : Prop :=
  match e with
  | Spawn p => safe p
  | _ => True
  end.

(** The names that every object inherits, and the texts of what they
    name.  None of these texts is a URL, and [fetch] rejects a text that
    is no URL. *)
Definition INHERITED_NAMES : list string := PROTOTYPE_MEMBERS.*1.

Definition no_url (url : string) : Prop := url ∈ PROTOTYPE_MEMBERS.*2.


Definition fetch_checks (X : Type) (c : call X) : settled X -> Prop :=
  match c in call X return settled X -> Prop with
  | Fetch url => fun r => no_url url -> exists e, r = Rejected e
  | _ => fun _ => True
  end.

Definition chromium_works (X : Type) (c : call X) : settled X -> Prop :=
  match c in call X return settled X -> Prop with
  | Fetch _ => fun _ => True
  | ResText _ => fun _ => True
  | _ => fun r => exists x, r = Fulfilled x
  end.

Definition server_works (X : Type) (c : call X) (r : settled X) : Prop :=
  chromium_works X c r /\ fetch_checks X c r.

(** Collaborators that answer as [ans] does, with the [fetch] of the
    running server. *)
Definition with_url_check (ans : answer) : answer :=
  fun X c =>
    match c in call X return settled X with
    | Fetch url =>
        if bool_decide (no_url url)
        then Rejected (JsError "Failed to parse URL")
        else ans _ (Fetch url)
    | c' => ans _ c'
    end.

(** [wp_when L p Q w]: [p] started in [w] ends in a result and a world
    that satisfy [Q], provided the collaborators settle every call in a
    way that [L] allows. *)
Fixpoint wp_when {A : Type} (L : forall X, call X -> settled X -> Prop)
    (p : prog A) (Q : settled A -> world -> Prop) (w : world) : Prop :=
  match p with
  | Ret a => Q (Fulfilled a) w
  | Throw e => Q (Rejected e) w
  | Read k => wp_when L (k w) Q w
  | Do o k => wp_when L k Q (apply_op o w)
  | Await c k => forall r, L _ c r -> wp_when L (k r) Q (note c w)
  end.






(** A value that is neither an array nor an object: converting it to
    text cannot throw. *)
Definition primitive (v : jsval) : Prop :=
  match v with JObj _ => False | _ => True end.

(** The paper size of a [page.pdf] call. *)
Definition pdf_step (s : page_step) : option string :=
  match s with PPdf _ fmt => Some fmt | _ => None end.

(** The test that guards the [getFontCSS] call of the handler:
    [fontFamily && fontFamily !== 'Inter' && FONT_URLS[fontFamily]].
    The lookup finds the names of the table and the inherited names. *)
Definition wants_font (req : request) : bool :=
  truthy (fontFamily req)
  && negb (strict_eq (fontFamily req) "Inter")
  && bool_decide (is_Some (font_url (fontFamily req))).

(** Promises that were handed a slot after their request had left with
    504, and promises of such requests that are still in the queue. *)
Definition lost (s : system) : list nat :=
  filter (fun t => t ∈ expired s) (resolved (adm s)).
Definition stale (s : system) : list nat :=
  filter (fun t => t ∈ expired s) (waitQueue (adm s)).

(** What one call of [prewarmFontCache]'s [getFontCSS] for the name [k]
    can be in the pool, given the cache: suspended on its fetch or on the
    body of the response with nothing stored, or returned with the text
    it stored or with the empty text. *)
Definition warming (w : world) (k : string) (p : prog string) : Prop :=
  exists url, FONT_URLS !! k = Some url
    /\ ((fontCSSCache w !! k = None
         /\ (p = fetch_css (JStr k) url \/ p = read_css (JStr k) url
             \/ p = Ret EmptyString))
        \/ exists css, fontCSSCache w !! k = Some css /\ p = Ret css).

(** Every [acquireSlot] call makes one promise and adds one to the
    counter or to the queue; every [releaseSlot] call takes one away. *)
Definition ledger (w : world) : Prop :=
  tickets (slots w) = count acquired (trace w)
  /\ (activeJobs (slots w) + Z.of_nat (length (waitQueue (slots w)))
      + Z.of_nat (count released (trace w))
      = Z.of_nat (count acquired (trace w)))%Z.

(** The first [n] of the calls that the [try] block makes for a page of
    browser [b], in the order of the source. *)
Definition page_prefix (req : request) (b p : nat) (fontCSS : string) (n : nat)
  : list page_step :=
  take n [PNew b; PJs p false; PViewport p 794 1123 1;
          PContent p (fullHtml fontCSS req); PPdf p (paper req)].

(** The programs that the running server starts on its own account: a
    request to [POST /api/pdf], a signal, a tick of the keep-alive
    timer. *)
Definition server_task (p : prog unit) : Prop :=
  (exists rid req, p = post_api_pdf rid req)
  \/ p = shutdown
  \/ exists url, p = keepAlive url.

Definition serves (e : event unit) : Prop :=
  match e with
  | Spawn p => server_task p
  | _ => True
  end.



(** The URL that a [getFontCSS] call for the name [k] fetches when it
    starts in [w]: none when the cache has an entry for [k]. *)
Definition to_fetch (w : world) (k : string) : option string :=
  match fontCSSCache w !! k with
  | Some _ => None
  | None => FONT_URLS !! k
  end.

(** [interFontCSS || fallbackFontCSS], and the font CSS that the handler
    can put in the document of a request: that text, followed, when the
    request passes the font test, by a new line and what [getFontCSS]
    returned. *)
Definition base_font : string :=
  if String.eqb interFontCSS EmptyString then fallbackFontCSS else interFontCSS.

Definition font_css_of (req : request) (fontCSS : string) : Prop :=
  fontCSS = base_font
  \/ (wants_font req = true
      /\ exists more, fontCSS = base_font +:+ newline +:+ more).

(** A handler suspended on its admission race: what is left of
    [post_api_pdf] once the checks have passed and [acquireSlot()] has
    made promise [t]. *)
Definition racing (rid : nat) (req : request) (t : nat) : prog unit :=
  let* admitted :=
    catch
      (let* _ := await (SlotRace t) in Ret true)
      (fun e =>
         if String.eqb (message e) "QUEUE_TIMEOUT"
         then let* _ :=
                respond rid (Json 504 "Request timed out, please try again") in
              Ret false
         else Throw e) in
  if (admitted : bool) then render rid req else Ret tt.

(** Where a program of the server stands with respect to admission: it
    waits for the outcome of its race with promise [t]; it was admitted
    through promise [t] and has [k] calls of [releaseSlot] to make; or it
    was never admitted (turned away, timed out, or not a request) and
    makes none. *)
Inductive standing :=
| Waiting (rid : nat) (req : request) (t : nat)
| Entered (t k : nat)
| Refused (t : option nat).

Definition ticket (s : standing) : option nat :=
  match s with
  | Waiting _ _ t => Some t
  | Entered t _ => Some t
  | Refused t => t
  end.

Definition entered_ticket (s : standing) : option nat :=
  match s with
  | Entered t _ => Some t
  | _ => None
  end.

Definition due (s : standing) : nat :=
  match s with
  | Entered _ k => k
  | _ => 0
  end.

Definition fits (w : world) (p : prog unit) (s : standing) : Prop :=
  match s with
  | Waiting rid req t => p = racing rid req t
  | Entered t k => owes released p k /\ t ∈ resolved (slots w)
  | Refused _ => owes released p 0
  end.

(** What the pool of the running server keeps: the promises of its
    programs are distinct, and the [releaseSlot] calls made and to come
    are one for each admitted job. *)
Definition jobs_inv (q : pool unit) : Prop :=
  exists st,
    Forall2 (fits (shared q)) (tasks q) st
    /\ NoDup (omap ticket st)
    /\ (forall t, t ∈ omap ticket st -> t < tickets (slots (shared q)))
    /\ count released (trace (shared q)) + sum_list_with due st
       = length (omap entered_ticket st).

(** The admission state only grows: promises stay resolved, and the
    count of promises made never goes down. *)
Definition grown (w w' : world) : Prop :=
  (forall t, t ∈ resolved (slots w) -> t ∈ resolved (slots w'))
  /\ tickets (slots w) <= tickets (slots w').

(** One for a value, none for none. *)
Definition hits_of {B : Type} (o : option B) : nat :=
  match o with Some _ => 1 | None => 0 end.

(** The promise on whose race a program is suspended. *)
Definition race_ticket {A : Type} (p : prog A) : option nat :=
  match p with
  | Await c _ => match c with SlotRace t => Some t | _ => None end
  | _ => None
  end.

(** ** Reasoning about programs *)

Lemma wp_mono {A : Type} (p : prog A) (Q Q' : settled A -> world -> Prop) w :
  (forall r w', Q r w' -> Q' r w') -> wp p Q w -> wp p Q' w.
Proof.
  intros HQ. revert w.
  induction p as [a|e|k IH|o k IH|X c k IH]; cbn; intros w Hp; eauto.
Qed.

Lemma wp_bind_intro {A B : Type} (p : prog A) (f : A -> prog B) Q w :
  wp p (fun r w' => match r with
                    | Fulfilled a => wp (f a) Q w'
                    | Rejected e => Q (Rejected e) w'
                    end) w ->
  wp (bind p f) Q w.
Proof.
  revert w.
  induction p as [a|e|k IH|o k IH|X c k IH]; cbn; intros w Hp; eauto.
Qed.

Lemma wp_catch_intro {A : Type} (p : prog A) (h : error -> prog A) Q w :
  wp p (fun r w' => match r with
                    | Fulfilled a => Q (Fulfilled a) w'
                    | Rejected e => wp (h e) Q w'
                    end) w ->
  wp (catch p h) Q w.
Proof.
  revert w.
  induction p as [a|e|k IH|o k IH|X c k IH]; cbn; intros w Hp; eauto.
Qed.

Lemma wp_finally_intro {A : Type} (p : prog A) (q : prog unit) Q w :
  wp p (fun r w' =>
          wp q (fun r' w'' => match r' with
                              | Fulfilled _ => Q r w''
                              | Rejected e' => Q (Rejected e') w''
                              end) w') w ->
  wp (finally p q) Q w.
Proof.
  revert w.
  induction p as [a|e|k IH|o k IH|X c k IH]; cbn; intros w Hp; eauto.
  - apply wp_bind_intro. eapply wp_mono; [|exact Hp]. intros [[]|e'] w'; cbn; auto.
  - apply wp_bind_intro. eapply wp_mono; [|exact Hp]. intros [[]|e'] w'; cbn; auto.
Qed.

Lemma wp_await {X : Type} (c : call X) (Q : settled X -> world -> Prop) w :
  (forall r, Q r (note c w)) -> wp (await c) Q w.
Proof. intros H [x|e]; cbn; apply H. Qed.

Lemma wp_perform (o : op) (Q : settled unit -> world -> Prop) w :
  Q (Fulfilled tt) (apply_op o w) -> wp (perform o) Q w.
Proof. auto. Qed.

Lemma wp_read (Q : settled world -> world -> Prop) w :
  Q (Fulfilled w) w -> wp read Q w.
Proof. auto. Qed.

(** What [wp] promises is what [run] delivers. *)
Lemma wp_run {A : Type} (p : prog A) Q w env n :
  wp p Q w -> Q (outcome (run p env n w)) (after (run p env n w)).
Proof.
  revert w n.
  induction p as [a|e|k IH|o k IH|X c k IH]; cbn; intros w n Hp; eauto.
Qed.

(** Symbolic execution of a program under [wp], one construct at a
    time; the leaves are left to the caller. *)
Ltac wp_step :=
  lazy beta iota zeta;
  lazymatch goal with
  | |- wp (bind _ _) _ _ => apply wp_bind_intro
  | |- wp (catch _ _) _ _ => apply wp_catch_intro
  | |- wp (finally _ _) _ _ => apply wp_finally_intro
  | |- wp (swallow _) _ _ => unfold swallow
  | |- wp (await _) _ _ => apply wp_await; intros [?|?]
  | |- wp (perform _) _ _ => apply wp_perform
  | |- wp (respond _ _) _ _ => unfold respond
  | |- wp read _ _ => apply wp_read
  | |- wp (Ret _) _ _ => cbn [wp]
  | |- wp (Throw _) _ _ => cbn [wp]
  | |- wp (if ?c then _ else _) _ _ => destruct c eqn:?
  | |- wp (match ?x with _ => _ end) _ _ => destruct x eqn:?
  | |- wp getBrowser _ _ => unfold getBrowser
  | |- wp (getFontCSS _) _ _ => unfold getFontCSS
  | |- wp (fetch_css _ _) _ _ => unfold fetch_css
  | |- wp (try_block _ _) _ _ => unfold try_block
  | |- wp (catch_block _ _) _ _ => unfold catch_block
  | |- wp (finally_block _) _ _ => unfold finally_block
  | |- wp (render _ _) _ _ => unfold render
  | |- wp (post_api_pdf _ _) _ _ => unfold post_api_pdf
  end.

(** Projections of a world built by [apply_op] and [note]. *)
Ltac world_simpl :=
  cbn [apply_op note with_slots with_browser with_dead with_cache with_page
       with_sent with_trace slots browser dead fontCSSCache page sent trace] in *.

(** [run] through the combinators. *)
Lemma run_bind {A B : Type} (p : prog A) (f : A -> prog B) env n w :
  run (bind p f) env n w =
  match run p env n w with
  | (Fulfilled a, w', n') => run (f a) env n' w'
  | (Rejected e, w', n') => (Rejected e, w', n')
  end.
Proof.
  revert n w.
  induction p as [a|e|k IH|o k IH|X c k IH]; cbn; intros n w; eauto.
Qed.

Lemma run_catch {A : Type} (p : prog A) (h : error -> prog A) env n w :
  run (catch p h) env n w =
  match run p env n w with
  | (Fulfilled a, w', n') => (Fulfilled a, w', n')
  | (Rejected e, w', n') => run (h e) env n' w'
  end.
Proof.
  revert n w.
  induction p as [a|e|k IH|o k IH|X c k IH]; cbn; intros n w; eauto.
Qed.

Lemma run_finally {A : Type} (p : prog A) (q : prog unit) env n w :
  run (finally p q) env n w =
  match run p env n w with
  | (r, w', n') =>
      match run q env n' w' with
      | (Fulfilled _, w'', n'') => (r, w'', n'')
      | (Rejected e', w'', n'') => (Rejected e', w'', n'')
      end
  end.
Proof.
  revert n w.
  induction p as [a|e|k IH|o k IH|X c k IH]; cbn; intros n w; eauto.
  - rewrite run_bind. destruct (run q env n w) as [[[[]|e'] w'] n']; reflexivity.
  - rewrite run_bind. destruct (run q env n w) as [[[[]|e'] w'] n']; reflexivity.
Qed.

(** *** Steps that leave the job's slot and page alone *)

Lemma calmly_refl w : calmly w w.
Proof. repeat split. exists []. by rewrite app_nil_r. Qed.

Lemma calmly_trans w1 w2 w3 : calmly w1 w2 -> calmly w2 w3 -> calmly w1 w3.
Proof.
  intros (Hs & Hp & new & Ht & Hc) (Hs' & Hp' & new' & Ht' & Hc').
  repeat split; [congruence..|].
  exists (new ++ new'). rewrite Ht', Ht, <- app_assoc. split; [done|].
  rewrite forallb_app, Hc, Hc'. done.
Qed.

Lemma calm_silent new :
  forallb calm new = true ->
  omap released new = [] /\ omap acquired new = [] /\ omap opened new = []
  /\ omap closed new = [] /\ omap pdf_format new = [] /\ omap new_page new = [].
Proof.
  induction new as [|i new IH]; cbn; [done|].
  intros [Hi Hnew]%andb_prop. destruct (IH Hnew) as (-> & -> & -> & -> & -> & ->).
  destruct i as [X c|o]; [destruct c|destruct o]; cbn in *; done.
Qed.

(** Closing a leaf of a symbolic execution: the log of the final world
    is the log of the initial one followed by an explicit list. *)
Ltac log_tail :=
  world_simpl; rewrite <- ?app_assoc; cbn [app];
  first [ eexists; split; [reflexivity|]
        | exists []; split; [by rewrite app_nil_r|] ].

Lemma getBrowser_calm w :
  wp getBrowser
     (fun r w' =>
        calmly w w' /\ sent w' = sent w /\ fontCSSCache w' = fontCSSCache w
        /\ (forall b, r = Fulfilled b -> b = browser w')) w.
Proof.
  repeat wp_step; (split; [repeat split; log_tail; reflexivity|]);
    world_simpl; repeat split; congruence.
Qed.

Lemma getFontCSS_calm fontName w :
  wp (getFontCSS fontName)
     (fun r w' =>
        calmly w w' /\ sent w' = sent w /\ browser w' = browser w
        /\ exists css, r = Fulfilled css) w.
Proof.
  repeat wp_step; (split; [repeat split; log_tail; reflexivity|]);
    world_simpl; repeat split; eauto.
Qed.

(** Symbolic execution that takes [getBrowser] and [getFontCSS] by
    their summaries. *)
Ltac wp_go :=
  lazy beta iota zeta;
  lazymatch goal with
  | |- wp getBrowser _ _ =>
      eapply wp_mono; [|apply getBrowser_calm];
      intros [?|?] ? (? & ? & ? & ?)
  | |- wp (getFontCSS _) _ _ =>
      eapply wp_mono; [|apply getFontCSS_calm];
      intros ? ? (? & ? & ? & ? & ->)
  | |- _ => wp_step
  end.

Ltac run_simpl := cbn [run bind catch finally read perform respond await swallow].

(** Unpacking the summaries met on a path, and stitching the log. *)
Ltac open_calm :=
  repeat match goal with
         | H : calmly _ _ |- _ =>
             let Hc := fresh "Hc" in
             destruct H as (? & ? & ? & ? & Hc);
             apply calm_silent in Hc as (? & ? & ? & ? & ? & ?)
         end.

Ltac stitch :=
  world_simpl;
  repeat match goal with
         | H : trace ?w = _ |- context [trace ?w] => rewrite H
         end;
  rewrite <- ?app_assoc; cbn [app];
  first [ eexists; split; [reflexivity|]
        | exists []; split; [by rewrite app_nil_r|] ].

Ltac tally :=
  repeat first
    [ rewrite omap_app
    | match goal with H : omap _ _ = _ |- _ => rewrite H end
    | progress cbn ].

Lemma try_block_spec rid req w :
  page w !! rid = None ->
  wp (try_block rid req)
     (fun r w1 =>
        slots w1 = slots w
        /\ (forall e, r = Rejected e -> sent w1 = sent w)
        /\ exists new, trace w1 = trace w ++ new
             /\ omap released new = [] /\ omap acquired new = []
             /\ omap closed new = []
             /\ omap opened new = option_list (page w1 !! rid)
             /\ (omap pdf_format new = [] \/ omap pdf_format new = [paper req])
             /\ length (omap new_page new) <= 1) w.
Proof.
  intros Hpage. unfold try_block.
  repeat wp_go; open_calm; world_simpl.
  all: split; [congruence|].
  all: split; [intros; simplify_eq; congruence|].
  all: stitch; tally.
  all: repeat match goal with
              | H : page ?w = _ |- context [page ?w] => rewrite H
              end;
    rewrite ?lookup_insert_eq, ?Hpage; cbn.
  all: repeat split; auto.
Qed.

Lemma catch_block_spec rid e w :
  wp (catch_block rid e)
     (fun r w2 =>
        r = Fulfilled tt
        /\ calmly w w2
        /\ browser w2 = (if crashed e then None else browser w)
        /\ fontCSSCache w2 = fontCSSCache w
        /\ (sent w !! rid = None ->
            sent w2 !! rid = Some (Json 500 "PDF generation failed"))) w.
Proof.
  unfold catch_block.
  repeat wp_go; world_simpl.
  all: split; [done|].
  all: split; [repeat split; log_tail; reflexivity|].
  all: repeat split; try done.
  all: unfold headersSent in *; world_simpl; intros Hs;
    rewrite ?lookup_insert_eq; try done.
  all: rewrite Hs in *; cbn in *; try done.
  all: match goal with H : negb (bool_decide _) = false |- _ =>
         apply negb_false_iff, bool_decide_eq_true in H; destruct H; done end.
Qed.

Lemma finally_block_spec rid w :
  wp (finally_block rid)
     (fun r w3 =>
        r = Fulfilled tt
        /\ slots w3 = releaseSlot (slots w)
        /\ browser w3 = browser w /\ sent w3 = sent w
        /\ fontCSSCache w3 = fontCSSCache w
        /\ exists new, trace w3 = trace w ++ new
             /\ omap released new = [tt] /\ omap acquired new = []
             /\ omap opened new = []
             /\ omap closed new = option_list (page w !! rid)
             /\ omap pdf_format new = [] /\ omap new_page new = []) w.
Proof.
  unfold finally_block.
  repeat wp_go; world_simpl.
  all: repeat (split; [done|]).
  all: log_tail; cbn; repeat split; done.
Qed.

Lemma render_spec rid req w :
  wp (render rid req)
     (fun r w' =>
        r = Fulfilled tt
        /\ slots w' = releaseSlot (slots w)
        /\ exists new, trace w' = trace w ++ new
             /\ omap released new = [tt] /\ omap acquired new = []
             /\ omap closed new = omap opened new
             /\ (omap pdf_format new = [] \/ omap pdf_format new = [paper req])
             /\ length (omap new_page new) <= 1) w.
Proof.
  unfold render. do 2 wp_step. apply wp_finally_intro, wp_catch_intro.
  eapply wp_mono; [|apply try_block_spec; world_simpl; apply lookup_delete_eq].
  intros r w1 (Hs1 & _ & new1 & Ht1 & ? & ? & ? & ? & Hfmt & ?).
  assert (forall w2, calmly w1 w2 ->
    wp (finally_block rid)
       (fun r'' w3 =>
          r'' = Fulfilled tt /\ slots w3 = releaseSlot (slots w)
          /\ exists new, trace w3 = trace w ++ new
               /\ omap released new = [tt] /\ omap acquired new = []
               /\ omap closed new = omap opened new
               /\ (omap pdf_format new = [] \/ omap pdf_format new = [paper req])
               /\ length (omap new_page new) <= 1) w2) as Hfin.
  { intros w2 Hcalm. open_calm.
    eapply wp_mono; [|apply finally_block_spec].
    intros r3 w3 (-> & Hs3 & _ & _ & _ & new3 & Ht3 & ? & ? & ? & ? & ? & ?).
    split; [done|]. split; [world_simpl; congruence|].
    world_simpl.
    repeat match goal with
           | H : trace ?w = _ |- context [trace ?w] => rewrite H
           end.
    rewrite <- ?app_assoc. eexists; split; [reflexivity|].
    tally.
    repeat match goal with
           | H : page ?w = _ |- context [page ?w] => rewrite H
           end.
    rewrite ?app_nil_r. repeat split; auto. }
  destruct r as [[]|e].
  - eapply wp_mono; [|apply Hfin; apply calmly_refl].
    intros r3 w3 (-> & ?). done.
  - eapply wp_mono; [|apply catch_block_spec].
    intros r2 w2 (-> & Hcalm & _).
    eapply wp_mono; [|apply Hfin; exact Hcalm].
    intros r3 w3 (-> & ?). done.
Qed.

(** ** The handler *)

(** C9. A request rejected as UNAUTHORIZED (a key is configured and the
    [x-api-key] header is absent or different) or as BAD_INPUT (the
    [html] field is missing or falsy) is answered with 401 or 400 by a
    program that is nothing but that answer: it awaits no promise, the
    admission counter and queue, the browser variable and the font cache
    are as before, and the only entry added to the log is the
    response, so no slot is acquired and no collaborator is called. *)
Theorem rejected_request_touches_nothing rid req env n w :
  (API_KEY <> EmptyString /\ apiKey req <> Some API_KEY)
  \/ truthy (html req) = false ->
  exists r,
    (r = Json 401 "Unauthorized" \/ r = Json 400 "HTML content is required")
    /\ post_api_pdf rid req = respond rid r
    /\ run (post_api_pdf rid req) env n w
       = (Fulfilled tt,
          with_trace (trace w ++ [Did (Respond rid r)])
            (with_sent (<[rid := r]> (sent w)) w),
          n)
    /\ slots (after (run (post_api_pdf rid req) env n w)) = slots w
    /\ browser (after (run (post_api_pdf rid req) env n w)) = browser w
    /\ fontCSSCache (after (run (post_api_pdf rid req) env n w)) = fontCSSCache w
    /\ trace (after (run (post_api_pdf rid req) env n w))
       = trace w ++ [Did (Respond rid r)].
Proof.
  intros Hrej. unfold post_api_pdf.
  destruct (unauthorized req) eqn:Hauth.
  - eexists. split; [left; reflexivity|]. repeat split.
  - destruct Hrej as [[Hkey Hhdr]|Hhtml].
    + exfalso. unfold unauthorized in Hauth.
      destruct (String.eqb_spec API_KEY EmptyString) as [|_]; [done|].
      destruct (apiKey req) as [k|]; [|done]; cbn in Hauth.
      destruct (String.eqb_spec k API_KEY); [congruence|done].
    + rewrite Hhtml. eexists. split; [right; reflexivity|]. repeat split.
Qed.

(** C8. When the render operation of a job fails with error [e], leaving
    the server's variables as [w1]: the job is answered 500 (its [res]
    had sent nothing) and makes no second attempt (at most one page is
    opened and [page.pdf] is called at most once); if the message of [e]
    contains "detached", "closed" or "crashed" the browser variable is
    null afterwards, so the next [getBrowser] call launches a browser
    and returns the one launched; otherwise the browser variable is what
    it was when the error was thrown. *)
Theorem crash_resets_browser_other_errors_keep_it
    rid req (env : nat -> answer) n w e w1 n1 :
  run (try_block rid req) env n (apply_op (LetPage rid) w) = (Rejected e, w1, n1) ->
  sent w !! rid = None ->
  let w3 := after (run (render rid req) env n w) in
  (crashed e = true <->
     includes (message e) "detached" = true
     \/ includes (message e) "closed" = true
     \/ includes (message e) "crashed" = true)
  /\ (crashed e = false -> browser w3 = browser w1)
  /\ (crashed e = true ->
      browser w3 = None
      /\ forall (env' : nat -> answer) m,
           omap launched (trace (after (run getBrowser env' m w3)))
           = omap launched (trace w3) ++ [tt]
           /\ forall b, env' m nat Launch = Fulfilled b ->
                outcome (run getBrowser env' m w3) = Fulfilled (Some b)
                /\ browser (after (run getBrowser env' m w3)) = Some b)
  /\ sent w3 !! rid = Some (Json 500 "PDF generation failed")
  /\ exists new, trace w3 = trace w ++ new
       /\ length (omap new_page new) <= 1
       /\ length (omap pdf_format new) <= 1.
Proof.
  intros Htry Hsent w3.
  assert (Hw3 : exists w2 n2 n3,
             run (catch_block rid e) env n1 w1 = (Fulfilled tt, w2, n2)
             /\ run (finally_block rid) env n2 w2 = (Fulfilled tt, w3, n3)).
  { subst w3. unfold render. run_simpl. rewrite run_finally, run_catch, Htry.
    pose proof (wp_run _ _ w1 env n1 (catch_block_spec rid e w1)) as (Hr2 & _).
    destruct (run (catch_block rid e) env n1 w1) as [[r2 w2] n2].
    cbn in Hr2. subst r2.
    pose proof (wp_run _ _ w2 env n2 (finally_block_spec rid w2)) as (Hr3 & _).
    destruct (run (finally_block rid) env n2 w2) as [[r3 w3] n3] eqn:Hfin.
    cbn in Hr3. subst r3. cbn [after fst snd]. eauto. }
  destruct Hw3 as (w2 & n2 & n3 & Hcatch & Hfin).
  pose proof (wp_run _ _ _ env n (try_block_spec rid req (apply_op (LetPage rid) w)
                (lookup_delete_eq _ _))) as Hspec1.
  rewrite Htry in Hspec1. cbn [outcome after fst snd] in Hspec1.
  destruct Hspec1 as (_ & Hsent1 & new1 & Ht1 & _ & _ & _ & _ & Hfmt1 & Hnp1).
  specialize (Hsent1 e eq_refl).
  pose proof (wp_run _ _ w1 env n1 (catch_block_spec rid e w1)) as Hspec2.
  rewrite Hcatch in Hspec2. cbn [outcome after fst snd] in Hspec2.
  destruct Hspec2 as (_ & Hcalm & Hb2 & _ & Hsent2).
  pose proof (wp_run _ _ w2 env n2 (finally_block_spec rid w2)) as Hspec3.
  rewrite Hfin in Hspec3. cbn [outcome after fst snd] in Hspec3.
  destruct Hspec3 as (_ & _ & Hb3 & Hsent3 & _ & new3 & Ht3 & _ & _ & _ & _ & Hfmt3 & Hnp3).
  destruct Hcalm as (_ & _ & new2 & Ht2 & Hc2).
  apply calm_silent in Hc2 as (_ & _ & _ & _ & Hfmt2 & Hnp2).
  world_simpl.
  split; [|split; [|split; [|split]]].
  - unfold crashed. destruct (String.eqb_spec (message e) EmptyString) as [Hm|_].
    + rewrite Hm. cbn. intuition discriminate.
    + cbn [negb andb]. rewrite !orb_true_iff. tauto.
  - intros Hc. rewrite Hb3, Hb2, Hc. done.
  - intros Hc. assert (Hnull : browser w3 = None) by (rewrite Hb3, Hb2, Hc; done).
    split; [done|]. intros env' m.
    unfold getBrowser, unusable. run_simpl. rewrite Hnull. run_simpl.
    destruct (env' m nat Launch) as [b|e'] eqn:Hl; run_simpl; cbn [outcome after fst snd];
      world_simpl; rewrite !omap_app; cbn.
    + split; [by rewrite app_nil_r|]. intros b' [= <-]. done.
    + split; [done|]. intros b' [=].
  - rewrite Hsent3. apply Hsent2. rewrite Hsent1. world_simpl. done.
  - rewrite Ht3, Ht2, Ht1. world_simpl. rewrite <- ?app_assoc. cbn [app].
    eexists; split; [reflexivity|]. tally.
    rewrite ?app_nil_r. split; [done|].
    destruct Hfmt1 as [->| ->]; cbn; lia.
Qed.

(** ** Admission *)

Lemma seq_split (l1 l2 : list nat) n :
  l1 ++ l2 = seq 0 n ->
  l1 = seq 0 (length l1) /\ l2 = seq (length l1) (length l2).
Proof.
  intros H.
  assert (n = length l1 + length l2) as ->.
  { rewrite <- length_app, H, length_seq. done. }
  rewrite seq_app in H. apply app_inj_1 in H; [|by rewrite length_seq].
  destruct H as [H1 H2]. done.
Qed.

Lemma filter_narrow (P Q : nat -> Prop) `{!forall x, Decision (P x)}
    `{!forall x, Decision (Q x)} (l : list nat) :
  (forall x, P x -> Q x) -> length (filter P l) <= length (filter Q l).
Proof.
  intros HPQ. induction l as [|x l IH]; [done|].
  rewrite !filter_cons. repeat case_decide; cbn; try lia.
  exfalso; auto.
Qed.

Lemma filter_absent (l F : list nat) t :
  t ∉ l ->
  filter (fun x => x ∉ t :: F) l = filter (fun x => x ∉ F) l.
Proof.
  induction l as [|x l IH]; [done|].
  intros [Hne Hl]%not_elem_of_cons. rewrite !filter_cons, IH by done.
  destruct (decide (x ∈ F)) as [HxF|HxF].
  - rewrite decide_False by (intros H; apply H; right; done).
    rewrite decide_False by (intros H; done). done.
  - rewrite decide_True by (rewrite not_elem_of_cons; split; [congruence|done]).
    rewrite decide_True by done. done.
Qed.

Lemma filter_drop_one (l F : list nat) t :
  NoDup l -> t ∈ l -> t ∉ F ->
  length (filter (fun x => x ∉ t :: F) l) + 1 = length (filter (fun x => x ∉ F) l).
Proof.
  induction l as [|x l IH]; intros Hnd Hin HF.
  - by apply elem_of_nil in Hin.
  - apply NoDup_cons in Hnd as [Hx Hnd]. rewrite !filter_cons.
    destruct (decide (x = t)) as [->|Hne].
    + rewrite decide_False by (intros H; apply H; left).
      rewrite decide_True by done. cbn.
      rewrite filter_absent by done. lia.
    + apply elem_of_cons in Hin as [->|Hin]; [done|].
      specialize (IH Hnd Hin HF).
      destruct (decide (x ∈ F)) as [HxF|HxF].
      * rewrite decide_False by (intros H; apply H; right; done).
        rewrite decide_False by (intros H; done). done.
      * rewrite decide_True by (rewrite not_elem_of_cons; done).
        rewrite decide_True by done. cbn. lia.
Qed.

Ltac adm_simpl :=
  unfold outstanding;
  cbn [adm resolved waitQueue tickets activeJobs finished expired].

Lemma queue_inv_start : queue_inv (Admission 0 [] [] 0).
Proof. split; cbn; try done; lia. Qed.

Lemma queue_inv_acquire a : queue_inv a -> queue_inv (acquireSlot a).
Proof.
  intros [Hord Hfull Hcap]. destruct a as [a q r n]. cbn in *.
  unfold acquireSlot; cbn.
  destruct (Z.ltb_spec a MAX_CONCURRENT) as [Hlt|Hge].
  - assert (q = []) as ->.
    { destruct q; [done|]. exfalso.
      assert (MAX_CONCURRENT <= a)%Z by (apply Hfull; done). lia. }
    rewrite app_nil_r in Hord. split; adm_simpl.
    + rewrite app_nil_r, Hord. symmetry. apply seq_S.
    + done.
    + lia.
  - split; adm_simpl.
    + rewrite app_assoc, Hord. symmetry. apply seq_S.
    + intros _. lia.
    + done.
Qed.

Lemma queue_inv_release a : queue_inv a -> queue_inv (releaseSlot a).
Proof.
  intros [Hord Hfull Hcap]. destruct a as [a q r n]. cbn in *.
  unfold releaseSlot; cbn. destruct q as [|next rest]; split; adm_simpl.
  - done.
  - done.
  - lia.
  - rewrite <- app_assoc. done.
  - intros _. apply Hfull. done.
  - done.
Qed.

Lemma admission_inv_start : admission_inv start.
Proof. split; cbn; try done. apply queue_inv_start. Qed.

Lemma admission_inv_step s c s' :
  admission_inv s -> step s c = Some s' -> admission_inv s'.
Proof.
  intros [Hq Hcnt Hfin] Hstep.
  destruct s as [[a q r n] ex fin]. unfold outstanding in *. cbn in *.
  pose proof (q_order _ Hq) as Hord. pose proof (q_full _ Hq) as Hfull.
  cbn in Hord, Hfull.
  assert (Hnd : NoDup (r ++ q)) by (rewrite Hord; apply NoDup_seq).
  destruct c as [|t|t]; cbn in Hstep.
  - injection Hstep as <-. split; adm_simpl.
    + apply queue_inv_acquire. done.
    + unfold acquireSlot; cbn.
      destruct (Z.ltb_spec a MAX_CONCURRENT) as [Hlt|Hge]; adm_simpl; [|done].
      assert (q = []) as ->.
      { destruct q; [done|]. exfalso.
        assert (MAX_CONCURRENT <= a)%Z by (apply Hfull; done). lia. }
      rewrite app_nil_r in Hord.
      rewrite filter_app, length_app, filter_cons, decide_True, filter_nil; cbn; [lia|].
      intros Hn%Hfin. rewrite Hord in Hn. apply elem_of_seq in Hn. lia.
    + intros t Ht. apply Hfin in Ht. unfold acquireSlot; cbn.
      destruct (a <? MAX_CONCURRENT)%Z; adm_simpl; [|done].
      apply elem_of_app. left. done.
  - case_bool_decide; [|done]. injection Hstep as <-.
    split; adm_simpl; done.
  - case_bool_decide as Hen; [|done]. injection Hstep as <-.
    destruct Hen as (Htr & _ & Htf).
    apply NoDup_app in Hnd as (Hndr & Hrq & Hndq).
    pose proof (filter_drop_one r fin t Hndr Htr Htf) as Hdrop.
    split; adm_simpl.
    + apply queue_inv_release. done.
    + unfold releaseSlot; cbn. destruct q as [|next rest]; adm_simpl; [lia|].
      rewrite filter_app, length_app, filter_cons, decide_True, filter_nil; cbn; [lia|].
      assert (next ∉ r) by (intros Hn; apply (Hrq next Hn); left).
      rewrite not_elem_of_cons. split; [intros ->; done|]. intros Hn%Hfin. done.
    + unfold releaseSlot; cbn.
      intros t' [->|Ht']%elem_of_cons; destruct q; adm_simpl;
        rewrite ?elem_of_app; auto.
Qed.

Lemma admission_inv_exec cs s s' :
  admission_inv s -> exec cs s = Some s' -> admission_inv s'.
Proof.
  revert s. induction cs as [|c cs IH]; cbn; intros s Hs Hex.
  - injection Hex as <-. done.
  - destruct (step s c) as [s1|] eqn:Hstep; [|done].
    eapply IH; [|exact Hex]. eapply admission_inv_step; eauto.
Qed.

(** ** Counting calls across interleavings *)

Section Counting.
Context {B : Type} (f : item -> option B).

Lemma count_snoc t i : count f (t ++ [i]) = count f t + hits f i.
Proof.
  unfold count, hits. rewrite omap_app, length_app. cbn.
  destruct (f i); cbn; lia.
Qed.

Lemma advance_logs {A : Type} (p : prog A) k w :
  logs f p k ->
  exists k', owes f (advance p w).1 k'
             /\ count f (trace (advance p w).2) + k' = count f (trace w) + k.
Proof.
  revert k w.
  induction p as [a|e|g IH|o p' IH|X c g IH];
    cbn [logs advance owes fst snd]; intros k w Hp.
  - exists 0. split; [done|lia].
  - exists 0. split; [done|lia].
  - apply IH, Hp.
  - destruct Hp as [Hle Hp].
    destruct (IH _ (apply_op o w) Hp) as (k' & Hk' & Hcount).
    exists k'. split; [done|].
    rewrite Hcount. unfold apply_op; world_simpl. rewrite count_snoc. lia.
  - destruct Hp as [Hle Hp].
    exists (k - hits f (Called c)). split; [done|].
    world_simpl. rewrite count_snoc. lia.
Qed.

Lemma sum_list_insert (ks : list nat) i k k' :
  ks !! i = Some k -> sum_list (<[i := k']> ks) + k = sum_list ks + k'.
Proof.
  revert i. induction ks as [|x ks IH]; intros [|i] Hi; simpl in *; try done.
  - injection Hi as ->. lia.
  - specialize (IH _ Hi). lia.
Qed.

Lemma balanced_step {A : Type} (q q' : pool A) e total :
  resumption e -> balanced f q total -> pstep q e = Some q' -> balanced f q' total.
Proof.
  intros He (ks & Hks & Htotal) Hstep.
  destruct e as [p|i ans|b]; [done| |]; cbn in Hstep.
  - destruct (tasks q !! i) as [[a|e|g|o p'|X c g]|] eqn:Hi; try done.
    destruct (Forall2_lookup_l _ _ _ _ _ Hks Hi) as (k & Hk & Howes).
    cbn in Howes. specialize (Howes (settle (shared q) ans c)).
    destruct (advance_logs _ _ (shared q) Howes) as (k' & Hk' & Hcount).
    destruct (advance (g (settle (shared q) ans c)) (shared q)) as [p' w'].
    injection Hstep as <-. cbn in *.
    exists (<[i := k']> ks). split.
    + apply Forall2_insert; done.
    + cbn [shared]. pose proof (sum_list_insert ks i k k' Hk). lia.
  - injection Hstep as <-. exists ks. done.
Qed.

Lemma balanced_exec {A : Type} (es : list (event A)) (q q' : pool A) total :
  Forall resumption es -> balanced f q total -> pexec es q = Some q' ->
  balanced f q' total.
Proof.
  revert q. induction es as [|e es IH]; cbn; intros q Hes Hq Hex.
  - injection Hex as <-. done.
  - apply Forall_cons in Hes as [He Hes].
    destruct (pstep q e) as [q1|] eqn:Hstep; [|done].
    eapply IH; [exact Hes| |exact Hex].
    eapply balanced_step; eauto.
Qed.

Lemma balanced_ended {A : Type} (q : pool A) total :
  balanced f q total -> Forall ended (tasks q) ->
  count f (trace (shared q)) = total.
Proof.
  intros (ks & Hks & Htotal) Hend.
  assert (sum_list ks = 0) as Hsum; [|lia].
  clear Htotal. induction Hks as [|p k ps ks Hp _ IH]; [done|].
  apply Forall_cons in Hend as [Hp' Hend]. cbn.
  rewrite IH by done. destruct p; cbn in *; try done; lia.
Qed.

Lemma resumptions_keep_length {A : Type} (es : list (event A)) (q q' : pool A) :
  Forall resumption es -> pexec es q = Some q' ->
  length (tasks q') = length (tasks q).
Proof.
  revert q. induction es as [|e es IH]; cbn; intros q Hes Hex.
  - injection Hex as <-. done.
  - apply Forall_cons in Hes as [He Hes].
    destruct (pstep q e) as [q1|] eqn:Hstep; [|done].
    rewrite (IH _ Hes Hex).
    destruct e as [p|i ans|b]; [done| |]; cbn in Hstep.
    + destruct (tasks q !! i) as [[a|e|g|o p'|X c g]|]; try done.
      destruct (advance _ _). injection Hstep as <-. cbn.
      apply length_insert.
    + injection Hstep as <-. done.
Qed.

End Counting.

Lemma pexec_app {A : Type} (es es' : list (event A)) (q : pool A) :
  pexec (es ++ es') q = pexec es q ≫= pexec es'.
Proof.
  revert q. induction es as [|e es IH]; cbn; intros q; [done|].
  destruct (pstep q e); cbn; auto.
Qed.

(** *** Releases across interleavings *)

Lemma logs_bind_quiet {B A C : Type} (f : item -> option B)
    (p : prog A) (g : A -> prog C) k :
  logs f p k -> (forall a, logs f (g a) 0) -> logs f (bind p g) k.
Proof.
  intros Hp Hg. revert k Hp.
  induction p as [a|e|h IH|o p' IH|X c h IH]; cbn; intros k Hp.
  - subst k. apply Hg.
  - done.
  - intros w. apply IH, Hp.
  - destruct Hp as [Hle Hp]. split; [done|]. apply IH, Hp.
  - destruct Hp as [Hle Hp]. split; [done|]. intros r. apply IH, Hp.
Qed.

Lemma logs_catch_quiet {B A : Type} (f : item -> option B)
    (p : prog A) (h : error -> prog A) :
  logs f p 0 -> (forall e, logs f (h e) 0) -> logs f (catch p h) 0.
Proof.
  intros Hp Hh. revert Hp.
  induction p as [a|e|g IH|o p' IH|X c g IH]; cbn; intros Hp.
  - done.
  - apply Hh.
  - intros w. apply IH, Hp.
  - destruct Hp as [Hle Hp]. split; [done|]. apply IH, Hp.
  - destruct Hp as [Hle Hp]. split; [done|]. intros r. apply IH, Hp.
Qed.

Lemma logs_finally_quiet {B A : Type} (f : item -> option B)
    (p : prog A) (q : prog unit) k :
  logs f p 0 -> logs f q k -> logs f (finally p q) k.
Proof.
  intros Hp Hq. revert Hp.
  induction p as [a|e|g IH|o p' IH|X c g IH]; cbn; intros Hp.
  - apply logs_bind_quiet; [done|]. intros _. done.
  - apply logs_bind_quiet; [done|]. intros _. done.
  - intros w. apply IH, Hp.
  - destruct Hp as [Hle Hp]. assert (hits f (Did o) = 0) as Hz by lia.
    rewrite Hz in *. rewrite Nat.sub_0_r in *. split; [lia|]. apply IH, Hp.
  - destruct Hp as [Hle Hp]. assert (hits f (Called c) = 0) as Hz by lia.
    rewrite Hz in *. rewrite Nat.sub_0_r in *. split; [lia|].
    intros r. apply IH, Hp.
Qed.

(** Programs that never call [releaseSlot], piece by piece. *)
Ltac quiet :=
  repeat lazymatch goal with
    | |- logs _ (bind _ _) _ => apply logs_bind_quiet; [|intros ?]
    | |- logs _ (catch _ _) _ => apply logs_catch_quiet; [|intros ?]
    | |- logs _ (swallow _) _ => unfold swallow
    | |- logs _ (respond _ _) _ => unfold respond
    | |- logs _ (await _) _ => split; [cbn; lia|intros [?|?]; reflexivity]
    | |- logs _ (perform _) _ => split; [cbn; lia|reflexivity]
    | |- logs _ read _ => intros ?; reflexivity
    | |- logs _ (Ret _) _ => reflexivity
    | |- logs _ (Throw _) _ => reflexivity
    | |- logs _ (if ?c then _ else _) _ => destruct c
    | |- logs _ (match ?x with _ => _ end) _ => destruct x
    | |- logs _ getBrowser _ => unfold getBrowser
    | |- logs _ (getFontCSS _) _ => unfold getFontCSS
    | |- logs _ (fetch_css _ _) _ => unfold fetch_css
    | |- logs _ (try_block _ _) _ => unfold try_block
    | |- logs _ (catch_block _ _) _ => unfold catch_block
    end.

Lemma render_logs_one_release rid req : logs released (render rid req) 1.
Proof.
  unfold render. cbn [bind perform]. split; [cbn; lia|].
  apply logs_finally_quiet.
  - quiet.
  - unfold finally_block. cbn [bind read]. intros w.
    destruct (page w !! rid); cbn; repeat split; try lia;
      intros [[]|e]; cbn; repeat split; lia.
Qed.

Lemma spawn_many {B A : Type} (f : item -> option B) (ps : list (prog A)) k
    (q : pool A) total :
  Forall (fun p => logs f p k) ps ->
  balanced f q total ->
  exists q', @pexec A (Spawn <$> ps) q = Some q'
             /\ balanced f q' (total + length ps * k)
             /\ length (tasks q') = length (tasks q) + length ps.
Proof.
  intros Hps. revert q total.
  induction Hps as [|p ps Hp _ IH]; intros q total Hq.
  - exists q. cbn. rewrite !Nat.add_0_r. done.
  - cbn [fmap list_fmap pexec pstep].
    destruct (advance_logs f p k (shared q) Hp) as (k' & Hk' & Hcount).
    destruct (advance p (shared q)) as [p' w'] eqn:Hadv. cbn [fst snd] in *.
    destruct (IH (Pool w' (tasks q ++ [p'])) (total + k)) as (q' & Hex & Hbal & Hlen).
    + destruct Hq as (ks & Hks & Htotal). exists (ks ++ [k']). split.
      * apply Forall2_app; [done|]. constructor; [done|constructor].
      * cbn [shared]. rewrite sum_list_with_app. cbn. lia.
    + exists q'. split; [done|]. split.
      * replace (total + length (p :: ps) * k) with (total + k + length ps * k)
          by (cbn; lia). done.
      * rewrite Hlen. cbn [tasks]. rewrite length_app. cbn. lia.
Qed.

(** C1. A job that is admitted (its request is accepted and its
    admission race is fulfilled) ends normally however the collaborators
    settle the calls of the render operation, that is on success, on a
    failed or timed-out render call and on any other exception; on
    every such path the handler has called [acquireSlot] once and
    [releaseSlot] exactly once, so the admission state is the one a
    single release leaves, and the pages it closed are exactly the pages
    it opened.  The release does not depend on what the shared variables
    hold when the job looks at them: any number of admitted jobs, run
    together under any interleaving, have made exactly one [releaseSlot]
    call each once they have all ended. *)
Theorem admitted_job_releases_exactly_once rid req (env : nat -> answer) n w :
  unauthorized req = false ->
  truthy (html req) = true ->
  env n unit (SlotRace (tickets (slots w))) = Fulfilled tt ->
  (outcome (run (post_api_pdf rid req) env n w) = Fulfilled tt
   /\ slots (after (run (post_api_pdf rid req) env n w))
      = releaseSlot (acquireSlot (slots w))
   /\ exists new,
        trace (after (run (post_api_pdf rid req) env n w)) = trace w ++ new
        /\ omap acquired new = [tt]
        /\ omap released new = [tt]
        /\ omap closed new = omap opened new)
  /\ forall (jobs : list (nat * request)) evs w0 q,
       Forall resumption evs ->
       pexec (((fun j => Spawn (render j.1 j.2)) <$> jobs) ++ evs) (Pool w0 [])
       = Some q ->
       Forall ended (tasks q) ->
       count released (trace (shared q)) = count released (trace w0) + length jobs.
Proof.
  intros Hauth Hhtml Hrace. split.
  - unfold post_api_pdf.
    rewrite Hauth, Hhtml. cbn [negb]. run_simpl. rewrite Hrace. run_simpl.
    pose proof (wp_run _ _ _ env (S n)
                  (render_spec rid req
                     (note (SlotRace (tickets (slots w))) (apply_op AcquireSlot w))))
      as (Hr & Hs & new & Ht & Hrel & Hacq & Hcl & _).
    split; [exact Hr|]. split; [rewrite Hs; reflexivity|].
    rewrite Ht. world_simpl. rewrite <- ?app_assoc. cbn [app].
    eexists; split; [reflexivity|]. tally. auto.
  - intros jobs evs w0 q Hevs Hex Hend.
    rewrite pexec_app in Hex.
    destruct (spawn_many released ((fun j => render j.1 j.2) <$> jobs) 1
                (Pool w0 []) (count released (trace w0)))
      as (q1 & Hq1 & Hbal & Hlen).
    { apply Forall_fmap, Forall_forall. intros j _. apply render_logs_one_release. }
    { exists []. split; [constructor|]. cbn. lia. }
    rewrite <- list_fmap_compose in Hq1. unfold compose in Hq1.
    rewrite Hq1 in Hex. cbn in Hex.
    rewrite length_fmap, Nat.mul_1_r in Hbal.
    apply balanced_ended; [|done]. eapply balanced_exec; eauto.
Qed.

(** *** The admission state under any interleaving *)

Lemma slot_inv_boot : slot_inv boot.
Proof. split; [apply queue_inv_start|done]. Qed.

Lemma slot_inv_op o w : slot_inv w -> slot_inv (apply_op o w).
Proof.
  intros [Hq Hc]. unfold slot_inv, apply_op. world_simpl. rewrite count_snoc.
  destruct o; world_simpl; cbn [hits released]; rewrite ?Nat.add_0_r; try done.
  - split; [by apply queue_inv_acquire|].
    unfold acquireSlot. destruct (_ <? _)%Z; cbn; rewrite ?length_app; cbn; lia.
  - split; [by apply queue_inv_release|].
    unfold releaseSlot. destruct (waitQueue _); cbn; rewrite ?length_app; cbn; lia.
Qed.

Lemma slot_inv_note {X : Type} (c : call X) w : slot_inv w -> slot_inv (note c w).
Proof.
  intros [Hq Hc]. unfold slot_inv. world_simpl. rewrite count_snoc.
  cbn [hits released]. rewrite Nat.add_0_r. done.
Qed.

Lemma slot_inv_advance {A : Type} (p : prog A) w :
  slot_inv w -> slot_inv (advance p w).2.
Proof.
  revert w. induction p as [a|e|g IH|o p' IH|X c g IH]; cbn; intros w Hw;
    auto using slot_inv_op, slot_inv_note.
Qed.

Lemma slot_inv_pstep {A : Type} (q q' : pool A) e :
  slot_inv (shared q) -> pstep q e = Some q' -> slot_inv (shared q').
Proof.
  intros Hq Hstep. destruct e as [p|i ans|b]; cbn in Hstep.
  - pose proof (slot_inv_advance p _ Hq) as H.
    destruct (advance p (shared q)). injection Hstep as <-. done.
  - destruct (tasks q !! i) as [[a|e|g|o p'|X c g]|]; try done.
    pose proof (slot_inv_advance (g (settle (shared q) ans c)) _ Hq) as H.
    destruct (advance _ _). injection Hstep as <-. done.
  - injection Hstep as <-. done.
Qed.

Lemma slot_inv_pexec {A : Type} (es : list (event A)) (q q' : pool A) :
  slot_inv (shared q) -> pexec es q = Some q' -> slot_inv (shared q').
Proof.
  revert q. induction es as [|e es IH]; cbn; intros q Hq Hex.
  - injection Hex as <-. done.
  - destruct (pstep q e) as [q1|] eqn:Hstep; [|done].
    eapply IH; [|exact Hex]. eapply slot_inv_pstep; eauto.
Qed.

(** C2. With a capacity [MAX_CONCURRENT] that is not negative.  After any
    sequence of admission operations from the initial state, the
    promises that were handed a slot not yet released are as many as
    [activeJobs] says, that number is at most [MAX_CONCURRENT], and the
    jobs holding a slot are no more than that.  In the running server,
    whatever programs run and however the event loop interleaves them,
    the slots handed out less the [releaseSlot] calls made is
    [activeJobs], at most [MAX_CONCURRENT].  [acquireSlot] grants at
    once (counter incremented, promise resolved, queue untouched)
    exactly when [activeJobs < MAX_CONCURRENT], and otherwise appends the
    caller to the queue and changes nothing else. *)
Theorem outstanding_slots_never_exceed_capacity
    cs s (evs : list (event unit)) q :
  (0 <= MAX_CONCURRENT)%Z ->
  exec cs start = Some s ->
  pexec evs (Pool boot []) = Some q ->
  (length (holding s) <= length (outstanding s)
   /\ Z.of_nat (length (outstanding s)) = activeJobs (adm s)
   /\ (activeJobs (adm s) <= MAX_CONCURRENT)%Z)
  /\ ((Z.of_nat (length (resolved (slots (shared q))))
       - Z.of_nat (count released (trace (shared q)))
       = activeJobs (slots (shared q)))%Z
      /\ (activeJobs (slots (shared q)) <= MAX_CONCURRENT)%Z)
  /\ (forall a, (activeJobs a < MAX_CONCURRENT)%Z ->
        acquireSlot a
        = Admission (activeJobs a + 1) (waitQueue a)
                    (resolved a ++ [tickets a]) (S (tickets a)))
  /\ (forall a, ~ (activeJobs a < MAX_CONCURRENT)%Z ->
        acquireSlot a
        = Admission (activeJobs a) (waitQueue a ++ [tickets a])
                    (resolved a) (S (tickets a))).
Proof.
  intros Hcap Hex Hpex.
  destruct (admission_inv_exec _ _ _ admission_inv_start Hex) as [[_ _ Hle] Hcnt _].
  destruct (slot_inv_pexec _ (Pool boot []) _ slot_inv_boot Hpex) as [[_ _ Hle'] Hcnt'].
  split; [|split; [|split]].
  - split; [|split].
    + apply filter_narrow. tauto.
    + done.
    + lia.
  - split; lia.
  - intros a Ha. unfold acquireSlot.
    destruct (Z.ltb_spec (activeJobs a) MAX_CONCURRENT); [done|lia].
  - intros a Ha. unfold acquireSlot.
    destruct (Z.ltb_spec (activeJobs a) MAX_CONCURRENT); [lia|done].
Qed.

(** C4. In the running server, whatever programs run and however the
    event loop interleaves them, promises are handed their slot in the
    order in which they were made: if [A] was made before [B] and [B]
    has been handed a slot, then [A] was handed one earlier; the queue
    holds the waiting promises oldest first, and while it is not empty
    a newcomer is appended behind them.  [releaseSlot] hands the slot to
    the head of a non-empty queue and leaves [activeJobs] as it is, and
    decrements [activeJobs] only when the queue is empty. *)
Theorem slots_are_handed_out_in_arrival_order
    (evs : list (event unit)) q :
  pexec evs (Pool boot []) = Some q ->
  let a := slots (shared q) in
  (forall A B, A < B -> B ∈ resolved a ->
     exists i j, i < j /\ resolved a !! i = Some A /\ resolved a !! j = Some B)
  /\ (forall i j A B, waitQueue a !! i = Some A ->
        waitQueue a !! j = Some B -> i < j -> A < B)
  /\ (forall A B, A < B -> A ∈ waitQueue a -> B < tickets a -> B ∈ waitQueue a)
  /\ (waitQueue a <> [] ->
      waitQueue (acquireSlot a) = waitQueue a ++ [tickets a]
      /\ resolved (acquireSlot a) = resolved a)
  /\ (forall a' next rest, waitQueue a' = next :: rest ->
        releaseSlot a'
        = Admission (activeJobs a') rest (resolved a' ++ [next]) (tickets a'))
  /\ (forall a', waitQueue a' = [] ->
        releaseSlot a' = Admission (activeJobs a' - 1) [] (resolved a') (tickets a')).
Proof.
  intros Hpex a.
  destruct (slot_inv_pexec _ (Pool boot []) _ slot_inv_boot Hpex) as [[Hord Hfull _] _].
  fold a in Hord, Hfull.
  pose proof (seq_split _ _ _ Hord) as [Hr Hq].
  assert (Hn : tickets a = length (resolved a) + length (waitQueue a)).
  { rewrite <- length_app, Hord, length_seq. done. }
  split; [|split; [|split; [|split; [|split]]]].
  - intros A B HAB HB. rewrite Hr in HB. apply elem_of_seq in HB.
    exists A, B. split; [done|]. rewrite Hr.
    split; apply lookup_seq; lia.
  - intros i j A B HA HB Hij. rewrite Hq in HA, HB.
    apply lookup_seq in HA as [-> _], HB as [-> _]. lia.
  - intros A B HAB HA HB. rewrite Hq in HA |- *.
    apply elem_of_seq in HA. apply elem_of_seq. lia.
  - intros Hne. specialize (Hfull Hne). unfold acquireSlot.
    destruct (Z.ltb_spec (activeJobs a) MAX_CONCURRENT); [lia|done].
  - intros a' next rest Ha. unfold releaseSlot. rewrite Ha. done.
  - intros a' Ha. unfold releaseSlot. rewrite Ha. done.
Qed.

(** ** The shared browser *)

Lemma getBrowser_starts w :
  unusable w = true ->
  (forall b, browser w = Some b ->
     advance getBrowser w = (closing b, note (BrowserClose b) w))
  /\ (browser w = None -> advance getBrowser w = (launching, note Launch w)).
Proof.
  intros Hw. split.
  - intros b Hb. unfold getBrowser.
    cbn [advance bind read perform await swallow catch]. rewrite Hw, Hb. reflexivity.
  - intros Hb. unfold getBrowser.
    cbn [advance bind read perform await swallow catch]. rewrite Hw, Hb. reflexivity.
Qed.

Lemma getBrowser_reuses w b :
  browser w = Some b -> connected w b = true ->
  advance getBrowser w = (Ret (Some b), w).
Proof.
  intros Hb Hc. unfold getBrowser, unusable.
  cbn [advance bind read perform await swallow catch]. rewrite Hb, Hc. cbn.
  rewrite Hb. done.
Qed.

Lemma launching_owes : owes launched launching 0.
Proof. intros [b|e]; cbn; auto. Qed.

Lemma closing_owes b : owes launched (closing b) 1.
Proof.
  intros [[]|e]; cbn; (split; [lia|]); intros [b'|e']; cbn; auto.
Qed.

Lemma getBrowser_spawn w :
  unusable w = true ->
  exists k, owes launched (advance getBrowser w).1 k
            /\ count launched (trace (advance getBrowser w).2) + k
               = count launched (trace w) + 1
            /\ unusable (advance getBrowser w).2 = true.
Proof.
  intros Hw. destruct (getBrowser_starts w Hw) as [Hsome Hnone].
  destruct (browser w) as [b|] eqn:Hb.
  - rewrite (Hsome b eq_refl). exists 1. split; [apply closing_owes|].
    cbn [fst snd]. world_simpl. rewrite count_snoc. cbn. split; [lia|].
    unfold unusable, connected in *. world_simpl. done.
  - rewrite (Hnone eq_refl). exists 0. split; [apply launching_owes|].
    cbn [fst snd]. world_simpl. rewrite count_snoc. cbn. split; [lia|].
    unfold unusable, connected in *. world_simpl. done.
Qed.

Lemma getBrowser_spawn_many N (q : pool (option nat)) total :
  unusable (shared q) = true ->
  balanced launched q total ->
  exists q', pexec (replicate N (Spawn getBrowser)) q = Some q'
             /\ balanced launched q' (total + N)
             /\ length (tasks q') = length (tasks q) + N.
Proof.
  revert q total. induction N as [|N IH]; intros q total Hw Hq.
  - exists q. rewrite !Nat.add_0_r. done.
  - cbn [replicate pexec pstep].
    destruct (getBrowser_spawn _ Hw) as (k & Hk & Hcount & Hw').
    destruct (advance getBrowser (shared q)) as [p' w'] eqn:Hadv. cbn [fst snd] in *.
    destruct (IH (Pool w' (tasks q ++ [p'])) (total + 1)) as (q' & Hex & Hbal & Hlen).
    + done.
    + destruct Hq as (ks & Hks & Htotal). exists (ks ++ [k]). split.
      * apply Forall2_app; [done|]. constructor; [done|constructor].
      * cbn [shared]. rewrite sum_list_with_app. cbn. lia.
    + exists q'. split; [done|]. split.
      * replace (total + S N) with (total + 1 + N) by lia. done.
      * rewrite Hlen. cbn [tasks]. rewrite length_app. cbn. lia.
Qed.

(** C5, as the code has it.  [getBrowser] has no notion of a launch in
    progress.  Of [N] calls that start while no live browser is held
    (the variable is unset, or its browser is disconnected), each one
    launches a browser of its own: however their resumptions interleave
    and whatever the collaborators answer, once the [N] calls have
    returned exactly [N] launches have been made.  A call suspended on
    its launch returns the browser that this launch delivers and stores
    it in the variable (so the variable keeps the launch that finished
    last); a call suspended on closing a disconnected browser launches
    next, whatever the close did; only a call that starts when a
    connected browser is held returns that browser without launching. *)
Theorem every_overlapping_getBrowser_call_launches N w evs q :
  unusable w = true ->
  Forall resumption evs ->
  pexec (replicate N (Spawn getBrowser) ++ evs) (Pool w []) = Some q ->
  Forall ended (tasks q) ->
  length (tasks q) = N
  /\ count launched (trace (shared q)) = count launched (trace w) + N
  /\ (forall (q0 : pool (option nat)) i (ans : answer) b,
        tasks q0 !! i = Some launching ->
        ans nat Launch = Fulfilled b ->
        pstep q0 (Resume i ans)
        = Some (Pool (apply_op (SetBrowser (Some b)) (shared q0))
                     (<[i := Ret (Some b)]> (tasks q0))))
  /\ (forall (q0 : pool (option nat)) i (ans : answer) b,
        tasks q0 !! i = Some (closing b) ->
        pstep q0 (Resume i ans)
        = Some (Pool (note Launch (shared q0)) (<[i := launching]> (tasks q0))))
  /\ (forall w0 b, browser w0 = Some b -> connected w0 b = true ->
        advance getBrowser w0 = (Ret (Some b), w0)).
Proof.
  intros Hw Hevs Hex Hend.
  rewrite pexec_app in Hex.
  destruct (getBrowser_spawn_many N (Pool w []) (count launched (trace w)))
    as (q1 & Hq1 & Hbal & Hlen).
  { done. }
  { exists []. split; [constructor|]. cbn. lia. }
  rewrite Hq1 in Hex. cbn in Hex.
  split; [|split; [|split; [|split]]].
  - rewrite (resumptions_keep_length _ _ _ Hevs Hex), Hlen. done.
  - apply balanced_ended; [|done]. eapply balanced_exec; eauto.
  - intros q0 i ans b Hi Hans. unfold pstep. rewrite Hi.
    unfold launching. cbn. rewrite Hans. reflexivity.
  - intros q0 i ans b Hi. unfold pstep. rewrite Hi.
    unfold closing, launching. cbn. destruct (ans unit (BrowserClose b)) as [[]|e]; reflexivity.
  - apply getBrowser_reuses.
Qed.

(** ** The font cache *)

Lemma getFontCSS_starts k url w :
  FONT_URLS !! k = Some url ->
  (fontCSSCache w !! k = None ->
     advance (getFontCSS (JStr k)) w = (fetch_css (JStr k) url, note (Fetch url) w))
  /\ (forall css, fontCSSCache w !! k = Some css ->
        advance (getFontCSS (JStr k)) w = (Ret css, w)).
Proof.
  intros Hurl. unfold getFontCSS, font_url. cbn [to_text]. rewrite Hurl.
  cbn [advance bind read cache_get]. split.
  - intros ->. reflexivity.
  - intros css ->. reflexivity.
Qed.

Lemma fetch_css_owes fontName url : owes fetched (fetch_css fontName url) 0.
Proof.
  intros [[]|e]; cbn; auto. split; [lia|]. intros [css|e]; cbn; auto.
Qed.

Lemma getFontCSS_spawn_many M k url (q : pool string) total :
  FONT_URLS !! k = Some url ->
  fontCSSCache (shared q) !! k = None ->
  balanced fetched q total ->
  exists q', pexec (replicate M (Spawn (getFontCSS (JStr k)))) q = Some q'
             /\ balanced fetched q' (total + M)
             /\ length (tasks q') = length (tasks q) + M.
Proof.
  intros Hurl. revert q total. induction M as [|M IH]; intros q total Hw Hq.
  - exists q. rewrite !Nat.add_0_r. done.
  - cbn [replicate pexec pstep].
    destruct (getFontCSS_starts k url (shared q) Hurl) as [Hmiss _].
    rewrite (Hmiss Hw).
    destruct (IH (Pool (note (Fetch url) (shared q))
                       (tasks q ++ [fetch_css (JStr k) url])) (total + 1))
      as (q' & Hex & Hbal & Hlen).
    + done.
    + destruct Hq as (ks & Hks & Htotal). exists (ks ++ [0]). split.
      * apply Forall2_app; [done|]. constructor; [apply fetch_css_owes|constructor].
      * cbn [shared]. world_simpl. rewrite count_snoc, sum_list_with_app. cbn. lia.
    + exists q'. split; [done|]. split.
      * replace (total + S M) with (total + 1 + M) by lia. done.
      * rewrite Hlen. cbn [tasks]. rewrite length_app. cbn. lia.
Qed.

(** C6, as the code has it.  [getFontCSS] keeps no record of a fetch in
    flight.  Of [M] calls for a known font that start while the cache
    has no entry for it, each one issues a fetch of its own: however
    their resumptions interleave and whatever the collaborators answer,
    once the [M] calls have returned exactly [M] fetches have been
    made.  Each call goes on to read the response of its own fetch,
    returns the text of that response and stores it, so the cache keeps
    the text that arrived last and the callers need not observe the
    same value; only a call that starts once the entry exists returns
    it without fetching. *)
Theorem every_overlapping_getFontCSS_call_fetches M k url w evs q :
  FONT_URLS !! k = Some url ->
  fontCSSCache w !! k = None ->
  Forall resumption evs ->
  pexec (replicate M (Spawn (getFontCSS (JStr k))) ++ evs) (Pool w []) = Some q ->
  Forall ended (tasks q) ->
  length (tasks q) = M
  /\ count fetched (trace (shared q)) = count fetched (trace w) + M
  /\ (forall (q0 : pool string) i (ans : answer),
        tasks q0 !! i = Some (fetch_css (JStr k) url) ->
        ans unit (Fetch url) = Fulfilled tt ->
        pstep q0 (Resume i ans)
        = Some (Pool (note (ResText url) (shared q0))
                     (<[i := read_css (JStr k) url]> (tasks q0))))
  /\ (forall (q0 : pool string) i (ans : answer) css,
        tasks q0 !! i = Some (read_css (JStr k) url) ->
        ans string (ResText url) = Fulfilled css ->
        pstep q0 (Resume i ans)
        = Some (Pool (apply_op (CacheSet (JStr k) css) (shared q0))
                     (<[i := Ret css]> (tasks q0)))
          /\ fontCSSCache (apply_op (CacheSet (JStr k) css) (shared q0)) !! k
             = Some css)
  /\ (forall w0 css, fontCSSCache w0 !! k = Some css ->
        advance (getFontCSS (JStr k)) w0 = (Ret css, w0)).
Proof.
  intros Hurl Hw Hevs Hex Hend.
  rewrite pexec_app in Hex.
  destruct (getFontCSS_spawn_many M k url (Pool w []) (count fetched (trace w)) Hurl)
    as (q1 & Hq1 & Hbal & Hlen).
  { done. }
  { exists []. split; [constructor|]. cbn. lia. }
  rewrite Hq1 in Hex. cbn in Hex.
  split; [|split; [|split; [|split]]].
  - rewrite (resumptions_keep_length _ _ _ Hevs Hex), Hlen. done.
  - apply balanced_ended; [|done]. eapply balanced_exec; eauto.
  - intros q0 i ans Hi Hans. unfold pstep. rewrite Hi.
    unfold fetch_css. cbn. rewrite Hans. reflexivity.
  - intros q0 i ans css Hi Hans. unfold pstep. rewrite Hi.
    unfold read_css. cbn. rewrite Hans. split; [reflexivity|].
    apply lookup_insert_eq.
  - intros w0 css. apply (getFontCSS_starts k url w0 Hurl).
Qed.

(** C7, as the code has it.  When the fetch for a known font that has no
    cache entry fails (the request is rejected, or reading its body
    is), [getFontCSS] returns the empty string for that call, having
    issued that one fetch and no other, and stores nothing: the cache is
    as it was, the font is still without an entry, and the next call for
    it issues a new fetch. *)
Theorem failed_fetch_is_not_cached k url (env : nat -> answer) n w e :
  FONT_URLS !! k = Some url ->
  fontCSSCache w !! k = None ->
  env n unit (Fetch url) = Rejected e
  \/ (env n unit (Fetch url) = Fulfilled tt
      /\ env (S n) string (ResText url) = Rejected e) ->
  let w' := after (run (getFontCSS (JStr k)) env n w) in
  outcome (run (getFontCSS (JStr k)) env n w) = Fulfilled EmptyString
  /\ fontCSSCache w' = fontCSSCache w
  /\ fontCSSCache w' !! k = None
  /\ omap fetched (trace w') = omap fetched (trace w) ++ [url]
  /\ forall (env' : nat -> answer) m,
       omap fetched (trace (after (run (getFontCSS (JStr k)) env' m w')))
       = omap fetched (trace w') ++ [url].
Proof.
  intros Hurl Hw Hfail w'.
  assert (Hrun : forall (env0 : nat -> answer) m w0,
             fontCSSCache w0 !! k = None ->
             omap fetched (trace (after (run (getFontCSS (JStr k)) env0 m w0)))
             = omap fetched (trace w0) ++ [url]).
  { intros env0 m w0 Hw0. unfold getFontCSS, font_url, fetch_css. cbn [to_text].
    rewrite Hurl. run_simpl. cbn [cache_get]. rewrite Hw0. run_simpl.
    destruct (env0 m unit (Fetch url)) as [[]|e0]; run_simpl;
      [destruct (env0 (S m) string (ResText url)) as [css|e0]; run_simpl|];
      cbn [after fst snd]; world_simpl; rewrite !omap_app; cbn;
      rewrite ?app_nil_r; done. }
  assert (Hmine : outcome (run (getFontCSS (JStr k)) env n w) = Fulfilled EmptyString
                  /\ fontCSSCache w' = fontCSSCache w).
  { subst w'. unfold getFontCSS, font_url, fetch_css. cbn [to_text].
    rewrite Hurl. run_simpl. cbn [cache_get]. rewrite Hw. run_simpl.
    destruct Hfail as [Hf|[Hf Ht]]; rewrite Hf; run_simpl; [|rewrite Ht; run_simpl];
      cbn [outcome after fst snd]; world_simpl; done. }
  destruct Hmine as [Hout Hcache].
  split; [done|]. split; [done|]. split; [by rewrite Hcache|].
  split; [apply Hrun; done|].
  intros env' m. apply Hrun. by rewrite Hcache.
Qed.

(** ** What holds of the shared variables under any interleaving *)

Lemma advance_invariant {A : Type} (I : world -> Prop) (p : prog A) w :
  (forall o w, I w -> I (apply_op o w)) ->
  (forall X (c : call X) w, I w -> I (note c w)) ->
  I w -> I (advance p w).2.
Proof.
  intros Hop Hnote. revert w.
  induction p as [a|e|g IH|o p' IH|X c g IH]; cbn; intros w Hw; auto.
Qed.

Lemma pstep_invariant {A : Type} (I : world -> Prop) (q q' : pool A) e :
  (forall o w, I w -> I (apply_op o w)) ->
  (forall X (c : call X) w, I w -> I (note c w)) ->
  (forall b w, I w -> I (with_dead (b :: dead w) w)) ->
  I (shared q) -> pstep q e = Some q' -> I (shared q').
Proof.
  intros Hop Hnote Hdead Hq Hstep. destruct e as [p|i ans|b]; cbn in Hstep.
  - pose proof (advance_invariant I p _ Hop Hnote Hq) as H.
    destruct (advance p (shared q)). injection Hstep as <-. done.
  - destruct (tasks q !! i) as [[a|e|g|o p'|X c g]|]; try done.
    pose proof (advance_invariant I (g (settle (shared q) ans c)) _ Hop Hnote Hq) as H.
    destruct (advance _ _). injection Hstep as <-. done.
  - injection Hstep as <-. apply Hdead. done.
Qed.

Lemma pexec_invariant {A : Type} (I : world -> Prop) (es : list (event A)) q q' :
  (forall o w, I w -> I (apply_op o w)) ->
  (forall X (c : call X) w, I w -> I (note c w)) ->
  (forall b w, I w -> I (with_dead (b :: dead w) w)) ->
  I (shared q) -> pexec es q = Some q' -> I (shared q').
Proof.
  intros Hop Hnote Hdead. revert q.
  induction es as [|e es IH]; cbn; intros q Hq Hex.
  - injection Hex as <-. done.
  - destruct (pstep q e) as [q1|] eqn:Hstep; [|done].
    eapply IH; [|exact Hex]. eapply pstep_invariant; eauto.
Qed.

Lemma ledger_boot : ledger boot.
Proof. split; reflexivity. Qed.

Lemma ledger_op o w : ledger w -> ledger (apply_op o w).
Proof.
  intros [Ht Hc]. unfold ledger, apply_op. world_simpl. rewrite !count_snoc.
  destruct o; world_simpl; cbn [hits acquired released];
    rewrite ?Nat.add_0_r; try done.
  - unfold acquireSlot. destruct (_ <? _)%Z; cbn; rewrite ?length_app; cbn;
      split; lia.
  - unfold releaseSlot. destruct (waitQueue _); cbn in *; split; lia.
Qed.

Lemma ledger_note {X : Type} (c : call X) w : ledger w -> ledger (note c w).
Proof.
  intros [Ht Hc]. unfold ledger. world_simpl. rewrite !count_snoc.
  cbn [hits acquired released]. rewrite !Nat.add_0_r. done.
Qed.

Lemma ledger_pexec {A : Type} (es : list (event A)) q :
  pexec es (Pool boot []) = Some q -> ledger (shared q).
Proof.
  apply (pexec_invariant ledger es (Pool boot [])).
  - apply ledger_op.
  - intros X c w. apply ledger_note.
  - intros b w H. exact H.
  - apply ledger_boot.
Qed.

(** X1. In the running server, whatever programs run and however the
    event loop interleaves them, the promises made are as many as the
    [acquireSlot] calls, and [activeJobs] plus the length of the queue is
    the number of [acquireSlot] calls less the number of [releaseSlot]
    calls.  With a capacity that is not negative, once every
    [acquireSlot] call has been matched by a [releaseSlot] call the
    server is idle again: the counter is 0 and the queue is empty. *)
Theorem matched_releases_leave_the_server_idle
    {A : Type} (evs : list (event A)) q :
  (0 <= MAX_CONCURRENT)%Z ->
  pexec evs (Pool boot []) = Some q ->
  let w := shared q in
  tickets (slots w) = count acquired (trace w)
  /\ (activeJobs (slots w) + Z.of_nat (length (waitQueue (slots w)))
      = Z.of_nat (count acquired (trace w)) - Z.of_nat (count released (trace w)))%Z
  /\ (count released (trace w) = count acquired (trace w) ->
      activeJobs (slots w) = 0%Z /\ waitQueue (slots w) = []).
Proof.
  intros Hcap Hex w.
  destruct (ledger_pexec _ _ Hex) as [Ht Hc]. fold w in Ht, Hc.
  destruct (slot_inv_pexec _ (Pool boot []) _ slot_inv_boot Hex) as [[_ Hfull _] _].
  fold w in Hfull.
  split; [done|]. split; [lia|].
  intros Heq. rewrite Heq in Hc.
  destruct (waitQueue (slots w)) as [|t rest] eqn:Hq.
  - cbn in Hc. split; [lia|done].
  - exfalso. assert (MAX_CONCURRENT <= activeJobs (slots w))%Z by (apply Hfull; done).
    cbn [length] in Hc. lia.
Qed.

(** X2. In the running server every promise made by [acquireSlot] is in
    exactly one place: it has been resolved, once, or it is in the
    queue, once.  No promise is dropped from the queue without being
    resolved, and none is resolved twice. *)
Theorem every_promise_is_resolved_or_queued_once
    {A : Type} (evs : list (event A)) q :
  pexec evs (Pool boot []) = Some q ->
  let a := slots (shared q) in
  NoDup (resolved a ++ waitQueue a)
  /\ (forall t, t < tickets a <-> t ∈ resolved a \/ t ∈ waitQueue a)
  /\ (forall t, t ∈ resolved a -> t ∉ waitQueue a).
Proof.
  intros Hex a.
  destruct (slot_inv_pexec _ (Pool boot []) _ slot_inv_boot Hex) as [[Hord _ _] _].
  fold a in Hord.
  assert (Hnd : NoDup (resolved a ++ waitQueue a)) by (rewrite Hord; apply NoDup_seq).
  split; [done|]. split.
  - intros t. rewrite <- elem_of_app, Hord, elem_of_seq. lia.
  - apply NoDup_app in Hnd as (_ & Hrq & _). exact Hrq.
Qed.

(** X3. The body of [GET /health] in the running server, with a capacity
    that is not negative: [activeJobs] is at most [MAX_CONCURRENT], and
    [queued] is positive only while [activeJobs] is exactly
    [MAX_CONCURRENT]; [browserConnected] is true exactly when the
    browser variable holds a browser that has not lost its connection,
    and false when it holds none. *)
Theorem health_reports_a_queue_only_at_capacity
    {A : Type} (evs : list (event A)) q :
  (0 <= MAX_CONCURRENT)%Z ->
  pexec evs (Pool boot []) = Some q ->
  let h := health (shared q) in
  status h = "ok"
  /\ (health_activeJobs h <= MAX_CONCURRENT)%Z
  /\ (0 < queued h -> health_activeJobs h = MAX_CONCURRENT)
  /\ (browserConnected h = true
      <-> exists b, browser (shared q) = Some b /\ b ∉ dead (shared q))
  /\ (browser (shared q) = None -> browserConnected h = false).
Proof.
  intros Hcap Hex h.
  destruct (slot_inv_pexec _ (Pool boot []) _ slot_inv_boot Hex) as [[_ Hfull Hle] _].
  subst h. unfold health. cbn [status health_activeJobs queued browserConnected].
  split; [done|]. split; [lia|]. split; [|split].
  - intros Hq. assert (MAX_CONCURRENT <= activeJobs (slots (shared q)))%Z; [|lia].
    apply Hfull. intros Hnil. rewrite Hnil in Hq. cbn in Hq. lia.
  - destruct (browser (shared q)) as [b|].
    + unfold connected. rewrite bool_decide_eq_true. split.
      * intros Hb. exists b. done.
      * intros (b' & [= <-] & Hb). done.
    + split; [done|]. intros (b' & [=] & _).
  - intros ->. done.
Qed.

(** ** Slots lost to requests that timed out *)

Lemma outstanding_split (l ex fin : list nat) :
  (forall t, t ∈ ex -> t ∉ fin) ->
  length (filter (fun t => t ∉ fin) l)
  = length (filter (fun t => (t ∉ ex) /\ (t ∉ fin)) l)
    + length (filter (fun t => t ∈ ex) l).
Proof.
  intros Hapart. induction l as [|x l IH]; [done|].
  rewrite !filter_cons.
  destruct (decide (x ∈ ex)) as [Hex|Hex].
  - rewrite (decide_True (P := x ∉ fin)) by auto.
    rewrite decide_False by tauto. cbn. lia.
  - destruct (decide (x ∈ fin)) as [Hfin|Hfin].
    + rewrite decide_False by tauto. rewrite decide_False by tauto. done.
    + rewrite decide_True by done. rewrite decide_True by done. cbn. lia.
Qed.

Lemma expired_apart_step s c s' :
  admission_inv s ->
  (forall t, t ∈ expired s -> t ∉ finished s) ->
  step s c = Some s' ->
  forall t, t ∈ expired s' -> t ∉ finished s'.
Proof.
  intros [_ _ Hfin] Hapart Hstep. destruct c as [|t|t]; cbn in Hstep.
  - injection Hstep as <-. done.
  - case_bool_decide as Hen; [|done]. injection Hstep as <-. cbn.
    intros t' [->|Ht']%elem_of_cons; [|auto].
    intros Hf%Hfin. tauto.
  - case_bool_decide as Hen; [|done]. injection Hstep as <-. cbn.
    intros t' Ht' [->|Hf]%elem_of_cons; [tauto|].
    by apply (Hapart t').
Qed.

Lemma expired_apart_exec cs s s' :
  admission_inv s ->
  (forall t, t ∈ expired s -> t ∉ finished s) ->
  exec cs s = Some s' ->
  forall t, t ∈ expired s' -> t ∉ finished s'.
Proof.
  revert s. induction cs as [|c cs IH]; cbn; intros s Hs Hapart Hex.
  - injection Hex as <-. done.
  - destruct (step s c) as [s1|] eqn:Hstep; [|done].
    eapply IH; [| |exact Hex].
    + eapply admission_inv_step; eauto.
    + eapply expired_apart_step; eauto.
Qed.

Lemma lost_step s c s' t :
  step s c = Some s' -> t ∈ lost s -> t ∈ lost s'.
Proof.
  unfold lost. intros Hstep [Hex Hres]%list_elem_of_filter.
  apply list_elem_of_filter.
  destruct c as [|t'|t']; cbn in Hstep.
  - injection Hstep as <-. cbn. split; [done|].
    unfold acquireSlot. destruct (_ <? _)%Z; cbn; [|done].
    apply elem_of_app. auto.
  - case_bool_decide; [|done]. injection Hstep as <-. cbn.
    split; [|done]. apply elem_of_cons. auto.
  - case_bool_decide; [|done]. injection Hstep as <-. cbn.
    split; [done|]. unfold releaseSlot. destruct (waitQueue _); cbn; [done|].
    apply elem_of_app. auto.
Qed.

Lemma lost_exec cs s s' t :
  exec cs s = Some s' -> t ∈ lost s -> t ∈ lost s'.
Proof.
  revert s. induction cs as [|c cs IH]; cbn; intros s Hex Ht.
  - injection Hex as <-. done.
  - destruct (step s c) as [s1|] eqn:Hstep; [|done].
    eapply IH; [exact Hex|]. eapply lost_step; eauto.
Qed.

(** X4. After any sequence of admission operations from the initial
    state, [activeJobs] counts the jobs that hold a slot together with
    the promises that were handed a slot after their request had timed
    out; such a promise never calls [releaseSlot], and once lost it stays
    lost whatever happens next.  So, with a capacity that is not
    negative, the jobs that can hold a slot at the same time are at most
    [MAX_CONCURRENT] less the slots lost so far; and a promise whose
    request has timed out is still in the queue until it is handed a
    slot. *)
Theorem lost_slots_count_against_the_capacity cs s :
  exec cs start = Some s ->
  activeJobs (adm s) = Z.of_nat (length (holding s) + length (lost s))
  /\ ((0 <= MAX_CONCURRENT)%Z ->
      (Z.of_nat (length (holding s)) <= MAX_CONCURRENT - Z.of_nat (length (lost s)))%Z)
  /\ (forall t, t ∈ lost s -> t ∉ finished s)
  /\ (forall cs' s', exec cs' s = Some s' -> forall t, t ∈ lost s -> t ∈ lost s')
  /\ (forall t, t ∈ expired s -> t ∈ lost s \/ t ∈ stale s).
Proof.
  intros Hex.
  pose proof (admission_inv_exec _ _ _ admission_inv_start Hex) as Hinv.
  assert (Hapart : forall t, t ∈ expired s -> t ∉ finished s).
  { eapply expired_apart_exec; [apply admission_inv_start| |exact Hex].
    intros t Ht. cbn in Ht. by apply elem_of_nil in Ht. }
  destruct Hinv as [[Hord _ Hle] Hcnt _].
  assert (Hsum : activeJobs (adm s) = Z.of_nat (length (holding s) + length (lost s))).
  { rewrite Hcnt. f_equal. apply outstanding_split. done. }
  split; [done|]. split; [lia|]. split; [|split].
  - intros t [Ht _]%list_elem_of_filter. auto.
  - intros cs' s' Hex' t. apply lost_exec with cs'. done.
  - assert (Hexp : forall cs0 s0 s1, exec cs0 s0 = Some s1 ->
               (forall t, t ∈ expired s0 -> t < tickets (adm s0)) ->
               queue_inv (adm s0) ->
               forall t, t ∈ expired s1 -> t < tickets (adm s1)).
    { clear. induction cs0 as [|c cs0 IH]; cbn; intros s0 s1 Hex0 H0 Hq0.
      - injection Hex0 as <-. done.
      - destruct (step s0 c) as [s2|] eqn:Hstep; [|done].
        eapply IH; [exact Hex0| |].
        + destruct c as [|t|t]; cbn in Hstep.
          * injection Hstep as <-. cbn. intros t Ht%H0.
            unfold acquireSlot. destruct (_ <? _)%Z; cbn; lia.
          * case_bool_decide as Hen; [|done]. injection Hstep as <-. cbn.
            intros t' [->|Ht']%elem_of_cons; [tauto|auto].
          * case_bool_decide as Hen; [|done]. injection Hstep as <-. cbn.
            intros t' Ht'%H0. unfold releaseSlot. destruct (waitQueue _); cbn; lia.
        + destruct c as [|t|t]; cbn in Hstep.
          * injection Hstep as <-. by apply queue_inv_acquire.
          * case_bool_decide; [|done]. injection Hstep as <-. done.
          * case_bool_decide; [|done]. injection Hstep as <-. by apply queue_inv_release. }
    intros t Ht.
    assert (Hlt : t < tickets (adm s)).
    { apply (Hexp cs start s Hex); [|apply queue_inv_start|done].
      intros t0 Ht0. cbn in Ht0. by apply elem_of_nil in Ht0. }
    assert (Hin : t ∈ resolved (adm s) ++ waitQueue (adm s)).
    { rewrite Hord. apply elem_of_seq. lia. }
    unfold lost, stale. rewrite !list_elem_of_filter.
    apply elem_of_app in Hin as [Hin|Hin]; auto.
Qed.

(** ** The handler, path by path *)

(** X5. A request that passes the two checks and loses its admission
    race to the timer (the error is [QUEUE_TIMEOUT]) is answered 504 and
    the handler returns: it has called [acquireSlot] and nothing else, no
    [releaseSlot], no collaborator, the browser variable and the font
    cache are as before.  The promise it made is where [acquireSlot] put
    it: when no slot was free it is still in the queue, behind the
    requests that wait.  A race rejected with any other error makes the
    handler throw that error, with no answer sent. *)
Theorem lost_race_answers_504_and_leaves_the_promise
    rid req (env : nat -> answer) n w e :
  unauthorized req = false ->
  truthy (html req) = true ->
  env n unit (SlotRace (tickets (slots w))) = Rejected e ->
  let x := run (post_api_pdf rid req) env n w in
  slots (after x) = acquireSlot (slots w)
  /\ browser (after x) = browser w
  /\ fontCSSCache (after x) = fontCSSCache w
  /\ (~ (activeJobs (slots w) < MAX_CONCURRENT)%Z ->
      waitQueue (slots (after x)) = waitQueue (slots w) ++ [tickets (slots w)])
  /\ (message e = "QUEUE_TIMEOUT" ->
      outcome x = Fulfilled tt
      /\ sent (after x) = <[rid := Json 504 "Request timed out, please try again"]> (sent w)
      /\ trace (after x)
         = trace w ++ [Did AcquireSlot; Called (SlotRace (tickets (slots w)));
                       Did (Respond rid (Json 504 "Request timed out, please try again"))])
  /\ (message e <> "QUEUE_TIMEOUT" ->
      outcome x = Rejected e
      /\ sent (after x) = sent w
      /\ trace (after x)
         = trace w ++ [Did AcquireSlot; Called (SlotRace (tickets (slots w)))]).
Proof.
  intros Hauth Hhtml Hrace x. subst x. unfold post_api_pdf.
  rewrite Hauth, Hhtml. cbn [negb]. run_simpl. rewrite Hrace. run_simpl.
  destruct (String.eqb_spec (message e) "QUEUE_TIMEOUT") as [Hm|Hm];
    run_simpl; cbn [outcome after fst snd]; world_simpl;
    rewrite <- ?app_assoc; cbn [app].
  all: repeat split; try done.
  all: intros Hfull; unfold acquireSlot;
    destruct (Z.ltb_spec (activeJobs (slots w)) MAX_CONCURRENT); [lia|done].
Qed.

(** *** What [FONT_URLS[k]] finds *)

Lemma FONT_NAMES_are_the_keys k : is_Some (FONT_URLS !! k) <-> k ∈ FONT_NAMES.
Proof.
  split.
  - intros [url Hurl]. unfold FONT_URLS in Hurl.
    apply elem_of_list_to_map_2 in Hurl. unfold FONT_NAMES.
    repeat (apply elem_of_cons in Hurl as [[= -> _]|Hurl]; [repeat constructor|]).
    by apply elem_of_nil in Hurl.
  - unfold FONT_NAMES. intros Hk.
    repeat (apply elem_of_cons in Hk as [->|Hk]; [vm_compute; eauto|]).
    by apply elem_of_nil in Hk.
Qed.

Lemma INHERITED_NAMES_are_the_members k :
  is_Some (OBJECT_PROTOTYPE !! k) <-> k ∈ INHERITED_NAMES.
Proof.
  split.
  - intros [v Hv]. unfold OBJECT_PROTOTYPE in Hv.
    apply elem_of_list_to_map_2 in Hv.
    apply (list_elem_of_fmap_2 fst) in Hv. exact Hv.
  - unfold INHERITED_NAMES, PROTOTYPE_MEMBERS. cbn [fmap list_fmap fst]. intros Hk.
    repeat (apply elem_of_cons in Hk as [->|Hk]; [vm_compute; eauto|]).
    by apply elem_of_nil in Hk.
Qed.

Lemma inherited_text_is_no_url k v : OBJECT_PROTOTYPE !! k = Some v -> no_url v.
Proof.
  intros Hv. unfold OBJECT_PROTOTYPE in Hv. apply elem_of_list_to_map_2 in Hv.
  apply (list_elem_of_fmap_2 snd) in Hv. exact Hv.
Qed.

Lemma font_url_found fontName :
  is_Some (font_url fontName)
  <-> to_text fontName ∈ FONT_NAMES ++ INHERITED_NAMES.
Proof.
  rewrite elem_of_app, <- FONT_NAMES_are_the_keys, <- INHERITED_NAMES_are_the_members.
  unfold font_url. destruct (FONT_URLS !! to_text fontName) as [url|].
  - split; [left|]; eauto.
  - split; [right; done|]. intros [[? [=]]|H]. exact H.
Qed.

Lemma strict_eq_true v s : strict_eq v s = true <-> v = JStr s.
Proof.
  destruct v; cbn; try (split; [done|congruence]).
  split; [intros ->%String.eqb_eq; done|intros [= ->]; apply String.eqb_refl].
Qed.

Lemma wants_font_iff req :
  wants_font req = true
  <-> truthy (fontFamily req) = true /\ fontFamily req <> JStr "Inter"
      /\ to_text (fontFamily req) ∈ FONT_NAMES ++ INHERITED_NAMES.
Proof.
  unfold wants_font.
  rewrite !andb_true_iff, negb_true_iff, bool_decide_eq_true, font_url_found.
  rewrite <- (strict_eq_true (fontFamily req) "Inter").
  destruct (strict_eq (fontFamily req) "Inter"); intuition congruence.
Qed.

(** *** Responses, fetches and page calls of a job *)

Lemma getBrowser_mute w :
  wp getBrowser
     (fun r w' =>
        page w' = page w /\ sent w' = sent w /\ fontCSSCache w' = fontCSSCache w
        /\ (forall b, r = Fulfilled b -> b = browser w')
        /\ exists new, trace w' = trace w ++ new
             /\ omap responded new = [] /\ omap fetched new = []
             /\ omap page_call new = []) w.
Proof.
  repeat wp_step; world_simpl.
  all: repeat (split; [first [done|congruence]|]).
  all: log_tail; cbn; done.
Qed.

Lemma getFontCSS_mute fontName w :
  wp (getFontCSS fontName)
     (fun r w' =>
        page w' = page w /\ sent w' = sent w
        /\ (exists css, r = Fulfilled css)
        /\ exists new, trace w' = trace w ++ new
             /\ omap responded new = [] /\ omap page_call new = []
             /\ (omap fetched new = []
                 \/ exists url, font_url fontName = Some url
                      /\ cache_get w fontName = None
                      /\ omap fetched new = [url])) w.
Proof.
  repeat wp_step; world_simpl.
  all: repeat (split; [first [done|eauto]|]).
  all: log_tail; cbn; repeat split; eauto.
Qed.

(** Symbolic execution that takes [getBrowser] and [getFontCSS] by these
    summaries. *)
Ltac wp_walk :=
  lazy beta iota zeta;
  lazymatch goal with
  | |- wp getBrowser _ _ =>
      eapply wp_mono; [|apply getBrowser_mute];
      intros [?|?] ? (? & ? & ? & ? & ? & ? & ? & ? & ?)
  | |- wp (getFontCSS _) _ _ =>
      eapply wp_mono; [|apply getFontCSS_mute];
      intros ? ? (? & ? & (? & ->) & ? & ? & ? & ? & ?)
  | |- _ => wp_step
  end.

Lemma cache_get_same w1 w2 fontName :
  fontCSSCache w1 = fontCSSCache w2 -> cache_get w1 fontName = cache_get w2 fontName.
Proof. intros H. unfold cache_get. rewrite H. done. Qed.

Ltac tally_more :=
  repeat first
    [ rewrite omap_app
    | match goal with H : omap _ _ = _ |- _ => rewrite H end
    | progress cbn [omap list_omap responded fetched page_call app option_list] ].

Ltac reach n :=
  exists n; (split; [reflexivity|]); (split; [lia|]); (split; [lia|]);
  (split; [reflexivity|]);
  (split; [first [left; reflexivity
                 |right; split; [assumption|eexists; reflexivity]]|]);
  intros; first [done|discriminate].

Lemma try_block_story rid req w :
  page w !! rid = None ->
  wp (try_block rid req)
     (fun r w1 =>
        exists new, trace w1 = trace w ++ new
          /\ match r with
             | Fulfilled _ =>
                 exists bytes, omap responded new = [(rid, Pdf bytes)]
                   /\ sent w1 = <[rid := Pdf bytes]> (sent w)
             | Rejected _ => omap responded new = [] /\ sent w1 = sent w
             end
          /\ (omap fetched new = []
              \/ exists url, wants_font req = true
                   /\ font_url (fontFamily req) = Some url
                   /\ cache_get w (fontFamily req) = None
                   /\ omap fetched new = [url])
          /\ ((page w1 !! rid = None /\ (exists e, r = Rejected e)
               /\ exists b n, n <= 1 /\ omap page_call new = take n [PNew b])
              \/ exists b p fontCSS n,
                   page w1 !! rid = Some p /\ 2 <= n /\ n <= 5
                   /\ omap page_call new = page_prefix req b p fontCSS n
                   /\ font_css_of req fontCSS
                   /\ (forall x, r = Fulfilled x -> n = 5))) w.
Proof.
  intros Hpage. unfold try_block.
  repeat wp_walk; world_simpl.
  all: stitch.
  all: repeat match goal with
         | H : _ \/ _ |- _ =>
             let Hget := fresh "Hget" in
             destruct H as [?|(? & ? & Hget & ?)];
             [|rewrite (cache_get_same _ w) in Hget by (world_simpl; congruence)]
         end.
  all: tally_more.
  all: split;
    [first [eexists; split; [reflexivity|congruence] | split; [done|congruence]]|].
  all: split;
    [first [left; reflexivity | right; eexists; repeat split; eauto]|].
  all: repeat match goal with
              | H : page ?w = _ |- context [page ?w] => rewrite H
              end;
    rewrite ?lookup_insert_eq, ?Hpage.
  all: first
    [ left; split; [done|]; split; [eauto|];
      first [ exists 0, 0; split; [lia|reflexivity]
            | eexists _, 1; split; [lia|reflexivity] ]
    | right; eexists _, _, _; reach 5
    | right; eexists _, _, _; reach 4
    | right; eexists _, _, _; reach 3
    | right; eexists _, _, _; reach 2 ].
Qed.

Lemma catch_block_story rid e w :
  wp (catch_block rid e)
     (fun r w2 =>
        r = Fulfilled tt /\ page w2 = page w
        /\ exists new, trace w2 = trace w ++ new
             /\ omap fetched new = [] /\ omap page_call new = []
             /\ (sent w !! rid = None ->
                 omap responded new = [(rid, Json 500 "PDF generation failed")]
                 /\ sent w2 = <[rid := Json 500 "PDF generation failed"]> (sent w))) w.
Proof.
  unfold catch_block.
  repeat wp_step; world_simpl.
  all: split; [done|]. all: split; [done|].
  all: log_tail; cbn [omap list_omap responded fetched page_call].
  all: split; [done|]. all: split; [done|].
  all: intros Hs; try done.
  all: exfalso; unfold headersSent in *; world_simpl;
    match goal with H : negb (bool_decide _) = false |- _ =>
      apply negb_false_iff, bool_decide_eq_true in H; rewrite Hs in H;
      destruct H; done end.
Qed.

Lemma finally_block_story rid w :
  wp (finally_block rid)
     (fun r w3 =>
        r = Fulfilled tt /\ sent w3 = sent w
        /\ exists new, trace w3 = trace w ++ new
             /\ omap responded new = [] /\ omap fetched new = []
             /\ omap page_call new = option_list (PClose <$> page w !! rid)) w.
Proof.
  unfold finally_block.
  repeat wp_step; world_simpl.
  all: split; [done|]. all: split; [done|].
  all: log_tail; cbn; done.
Qed.

Lemma render_story rid req w :
  wp (render rid req)
     (fun r w' =>
        r = Fulfilled tt
        /\ exists new, trace w' = trace w ++ new
          /\ (sent w !! rid = None ->
              exists resp,
                omap responded new = [(rid, resp)]
                /\ sent w' = <[rid := resp]> (sent w)
                /\ ((exists bytes, resp = Pdf bytes)
                    \/ resp = Json 500 "PDF generation failed")
                /\ ((exists bytes, resp = Pdf bytes) ->
                    exists b p fontCSS,
                      font_css_of req fontCSS /\ omap page_call new
                      = page_prefix req b p fontCSS 5 ++ [PClose p]))
          /\ ((exists b n, n <= 1 /\ omap page_call new = take n [PNew b])
              \/ exists b p fontCSS n,
                   font_css_of req fontCSS /\ 2 <= n /\ n <= 5
                   /\ omap page_call new
                      = page_prefix req b p fontCSS n ++ [PClose p])
          /\ (omap fetched new = []
              \/ exists url, wants_font req = true
                   /\ font_url (fontFamily req) = Some url
                   /\ cache_get w (fontFamily req) = None
                   /\ omap fetched new = [url])) w.
Proof.
  unfold render. do 2 wp_step. apply wp_finally_intro, wp_catch_intro.
  eapply wp_mono; [|apply try_block_story; world_simpl; apply lookup_delete_eq].
  intros r w1 (new1 & Ht1 & Hresp1 & Hfetch1 & Hpages1).
  rewrite (cache_get_same _ w) in Hfetch1 by done. world_simpl.
  assert (Hfin : forall w2 new2,
    page w2 = page w1 ->
    trace w2 = trace w1 ++ new2 ->
    omap fetched new2 = [] -> omap page_call new2 = [] ->
    (sent w !! rid = None ->
     exists resp, omap responded (new1 ++ new2) = [(rid, resp)]
       /\ sent w2 = <[rid := resp]> (sent w)
       /\ match r with
          | Fulfilled _ => exists bytes, resp = Pdf bytes
          | Rejected _ => resp = Json 500 "PDF generation failed"
          end) ->
    wp (finally_block rid)
       (fun r3 w3 =>
          r3 = Fulfilled tt
          /\ exists new, trace w3 = trace w ++ new
            /\ (sent w !! rid = None ->
                exists resp,
                  omap responded new = [(rid, resp)]
                  /\ sent w3 = <[rid := resp]> (sent w)
                  /\ ((exists bytes, resp = Pdf bytes)
                      \/ resp = Json 500 "PDF generation failed")
                  /\ ((exists bytes, resp = Pdf bytes) ->
                      exists b p fontCSS,
                        font_css_of req fontCSS /\ omap page_call new
                        = page_prefix req b p fontCSS 5 ++ [PClose p]))
            /\ ((exists b n, n <= 1 /\ omap page_call new = take n [PNew b])
                \/ exists b p fontCSS n,
                     font_css_of req fontCSS /\ 2 <= n /\ n <= 5
                     /\ omap page_call new
                        = page_prefix req b p fontCSS n ++ [PClose p])
            /\ (omap fetched new = []
                \/ exists url, wants_font req = true
                     /\ font_url (fontFamily req) = Some url
                     /\ cache_get w (fontFamily req) = None
                     /\ omap fetched new = [url])) w2).
  { intros w2 new2 Hp2 Ht2 Hf2 Hpc2 Hresp2.
    eapply wp_mono; [|apply finally_block_story].
    intros r3 w3 (-> & Hs3 & new3 & Ht3 & Hr3 & Hf3 & Hpc3).
    split; [done|].
    exists (Did (LetPage rid) :: new1 ++ new2 ++ new3). split.
    { rewrite Ht3, Ht2, Ht1. rewrite <- !app_assoc. done. }
    cbn [omap list_omap responded fetched page_call].
    rewrite !(omap_app _ new1), !(omap_app _ new2), Hf2, Hf3, Hpc2, Hpc3, Hp2.
    cbn [app]. split; [|split].
    - intros Hsent. destruct (Hresp2 Hsent) as (resp & Hr2 & Hs2 & Hkind).
      rewrite omap_app in Hr2.
      exists resp. rewrite app_assoc, Hr3, app_nil_r, Hr2.
      split; [done|]. split; [congruence|]. split.
      { destruct r; [left|right]; done. }
      intros (bytes & ->). destruct r as [[]|e]; [|done].
      destruct Hpages1 as [(_ & (e & [=]) & _)
                          |(b & p & fontCSS & n & Hsome & _ & _ & Hsteps & Hcss & Hfull)].
      exists b, p, fontCSS. rewrite Hsteps, Hsome, (Hfull tt eq_refl). done.
    - destruct Hpages1 as [(Hnone & _ & b & n & Hn & Hsteps)
                          |(b & p & fontCSS & n & Hsome & Hn2 & Hn5 & Hsteps & Hcss & _)].
      + left. exists b, n. rewrite Hsteps, Hnone. cbn. rewrite app_nil_r. done.
      + right. exists b, p, fontCSS, n. rewrite Hsteps, Hsome. done.
    - destruct Hfetch1 as [->|(url & ? & ? & ? & ->)]; [left; done|].
      right. exists url. done. }
  destruct r as [[]|e].
  - destruct Hresp1 as (bytes & Hr1 & Hs1).
    eapply wp_mono; [|apply (Hfin w1 []); rewrite ?app_nil_r; eauto].
    intros r3 w3 (-> & ?). done.
  - destruct Hresp1 as (Hr1 & Hs1).
    eapply wp_mono; [|apply catch_block_story].
    intros r2 w2 (-> & Hp2 & new2 & Ht2 & Hf2 & Hpc2 & Hresp2).
    eapply wp_mono; [|apply (Hfin w2 new2)];
      [intros r3 w3 (-> & ?); done|try done..].
    intros Hsent. destruct Hresp2 as (Hr2 & Hs2). { rewrite Hs1. done. }
    exists (Json 500 "PDF generation failed").
    rewrite omap_app, Hr1, Hr2, Hs2, Hs1. done.
Qed.

(** Symbolic execution of the handler that takes [render] by its story. *)
Ltac wp_handler :=
  repeat lazymatch goal with
         | |- wp (render _ _) _ _ =>
             eapply wp_mono; [|apply render_story];
             intros ? ? (-> & ? & ? & ? & ? & ?)
         | |- _ => wp_step
         end.

(** X6. Whatever the request and however the collaborators answer, the
    handler fetches font CSS at most once, and only for a [fontFamily]
    that is truthy, is not the string [Inter], is found by
    [FONT_URLS[fontFamily]] (as an entry of the table, or as a member
    that every object inherits) and has no entry in the cache when the
    request arrives; what is fetched is the value found.  So a request
    that names no font, [Inter], a name that the lookup does not find,
    or a cached font makes no fetch. *)
Theorem handler_fetches_only_what_the_lookup_finds
    rid req (env : nat -> answer) n w :
  let x := run (post_api_pdf rid req) env n w in
  exists new, trace (after x) = trace w ++ new
    /\ (omap fetched new = []
        \/ exists url, wants_font req = true
             /\ font_url (fontFamily req) = Some url
             /\ cache_get w (fontFamily req) = None
             /\ omap fetched new = [url])
    /\ (truthy (fontFamily req) = false
        \/ fontFamily req = JStr "Inter"
        \/ font_url (fontFamily req) = None
        \/ is_Some (cache_get w (fontFamily req)) ->
        omap fetched new = []).
Proof.
  intros x. subst x.
  assert (Hwp : wp (post_api_pdf rid req)
            (fun _ w' => exists new, trace w' = trace w ++ new
               /\ (omap fetched new = []
                   \/ exists url, wants_font req = true
                        /\ font_url (fontFamily req) = Some url
                        /\ cache_get w (fontFamily req) = None
                        /\ omap fetched new = [url])) w).
  { unfold post_api_pdf. wp_handler.
    all: stitch.
    all: repeat match goal with
           | H : _ \/ _ |- _ =>
               let Hget := fresh "Hget" in
               first [ destruct H as [?|(? & ? & ? & Hget & ?)];
                       [|rewrite (cache_get_same _ w) in Hget
                           by (world_simpl; congruence)]
                     | clear H ]
           end.
    all: tally_more.
    all: first [left; reflexivity | right; eexists; repeat split; eauto]. }
  apply (wp_run _ _ _ env n) in Hwp. destruct Hwp as (new & Ht & Hf).
  exists new. split; [done|]. split; [done|].
  intros Hno. destruct Hf as [Hf|(url & Hwant & Hurl & Hget & Hf)]; [done|].
  exfalso. unfold wants_font in Hwant.
  apply andb_prop in Hwant as [[Htruthy Hinter]%andb_prop _].
  destruct Hno as [Hno|[Hno|[Hno|Hno]]].
  - congruence.
  - rewrite Hno in Hinter. done.
  - congruence.
  - rewrite Hget in Hno. by destruct Hno.
Qed.

(** X7. A request whose [res] has sent nothing, and whose admission race
    is won or is lost to the timer, is answered exactly once, and the
    handler returns normally whatever the collaborators do.  The answer
    is 401 when the key check fails; otherwise 400 when [html] is falsy;
    otherwise 504 when the race is lost; otherwise the PDF, or 500 when
    anything in the render operation failed. *)
Theorem every_request_is_answered_exactly_once
    rid req (env : nat -> answer) n w :
  sent w !! rid = None ->
  (forall e, env n unit (SlotRace (tickets (slots w))) = Rejected e ->
             message e = "QUEUE_TIMEOUT") ->
  let x := run (post_api_pdf rid req) env n w in
  outcome x = Fulfilled tt
  /\ exists resp new,
       trace (after x) = trace w ++ new
       /\ omap responded new = [(rid, resp)]
       /\ sent (after x) = <[rid := resp]> (sent w)
       /\ (unauthorized req = true -> resp = Json 401 "Unauthorized")
       /\ (unauthorized req = false -> truthy (html req) = false ->
           resp = Json 400 "HTML content is required")
       /\ (unauthorized req = false -> truthy (html req) = true ->
           (forall e, env n unit (SlotRace (tickets (slots w))) = Rejected e ->
              resp = Json 504 "Request timed out, please try again")
           /\ (env n unit (SlotRace (tickets (slots w))) = Fulfilled tt ->
               (exists bytes, resp = Pdf bytes)
               \/ resp = Json 500 "PDF generation failed")).
Proof.
  intros Hsent Hrace x. subst x. unfold post_api_pdf.
  destruct (unauthorized req) eqn:Hauth; [|destruct (truthy (html req)) eqn:Hhtml];
    cbn [negb]; run_simpl.
  - cbn [outcome after fst snd]. split; [done|].
    eexists _, [_]. world_simpl. repeat split; try done.
  - destruct (env n unit (SlotRace (tickets (slots w)))) as [[]|e] eqn:Hans; run_simpl.
    + pose proof (wp_run _ _ _ env (S n)
                    (render_story rid req
                       (note (SlotRace (tickets (slots w))) (apply_op AcquireSlot w))))
        as (Hr & new & Ht & Hresp & _).
      destruct Hresp as (resp & Hr1 & Hs1 & Hkind & _); [world_simpl; done|].
      split; [done|]. exists resp. eexists. rewrite Ht, Hs1. world_simpl.
      rewrite <- ?app_assoc. cbn [app]. split; [reflexivity|].
      cbn [omap list_omap responded]. repeat split; try done.
    + rewrite (Hrace e eq_refl). cbn [String.eqb Ascii.eqb Bool.eqb]. run_simpl.
      cbn [outcome after fst snd]. split; [done|].
      eexists _, _. world_simpl. rewrite <- ?app_assoc. cbn [app].
      split; [reflexivity|]. repeat split; try done.
  - cbn [outcome after fst snd]. split; [done|].
    eexists _, [_]. world_simpl. repeat split; try done.
Qed.

Lemma answer_cases rid req (env : nat -> answer) n w :
  sent w !! rid = None ->
  (forall e, env n unit (SlotRace (tickets (slots w))) = Rejected e ->
             message e = "QUEUE_TIMEOUT") ->
  exists resp,
    sent (after (run (post_api_pdf rid req) env n w)) = <[rid := resp]> (sent w)
    /\ ((unauthorized req = true /\ resp = Json 401 "Unauthorized")
        \/ (unauthorized req = false /\ truthy (html req) = false
            /\ resp = Json 400 "HTML content is required")
        \/ (unauthorized req = false /\ truthy (html req) = true
            /\ resp <> Json 401 "Unauthorized"
            /\ resp <> Json 400 "HTML content is required")).
Proof.
  intros Hsent Hrace. unfold post_api_pdf.
  destruct (unauthorized req) eqn:Hauth; [|destruct (truthy (html req)) eqn:Hhtml];
    cbn [negb]; run_simpl.
  - eexists. split; [reflexivity|]. left. done.
  - destruct (env n unit (SlotRace (tickets (slots w)))) as [[]|e] eqn:Hans; run_simpl.
    + pose proof (wp_run _ _ _ env (S n)
                    (render_story rid req
                       (note (SlotRace (tickets (slots w))) (apply_op AcquireSlot w))))
        as (_ & new & _ & Hresp & _).
      destruct Hresp as (resp & _ & Hs1 & Hkind & _); [world_simpl; done|].
      exists resp. split; [exact Hs1|]. right. right.
      destruct Hkind as [(bytes & ->)| ->]; done.
    + rewrite (Hrace e eq_refl). cbn [String.eqb Ascii.eqb Bool.eqb]. run_simpl.
      eexists. split; [reflexivity|]. right. right. done.
  - eexists. split; [reflexivity|]. right. left. done.
Qed.

Lemma unauthorized_iff req :
  unauthorized req = true <-> API_KEY <> EmptyString /\ apiKey req <> Some API_KEY.
Proof.
  unfold unauthorized.
  destruct (String.eqb_spec API_KEY EmptyString) as [Hk|Hk]; cbn.
  - split; [done|]. intros [H _]. done.
  - destruct (apiKey req) as [k|]; cbn.
    + destruct (String.eqb_spec k API_KEY) as [->|Hne]; cbn.
      * split; [done|]. intros [_ H]. done.
      * split; [|done]. intros _. split; [done|]. congruence.
    + split; [|done]. intros _. done.
Qed.

(** X8. Which requests are turned away before admission.  With no key
    configured nobody is answered 401, whatever header is sent; with a
    key configured a request is answered 401 exactly when its
    [x-api-key] header is absent or is not that key.  A request is
    answered 400 exactly when it passes the key check and its [html] is
    falsy: the key is checked first. *)
Theorem turned_away_exactly_for_the_key_or_the_html
    rid req (env : nat -> answer) n w :
  sent w !! rid = None ->
  (forall e, env n unit (SlotRace (tickets (slots w))) = Rejected e ->
             message e = "QUEUE_TIMEOUT") ->
  let x := run (post_api_pdf rid req) env n w in
  (sent (after x) !! rid = Some (Json 401 "Unauthorized")
   <-> API_KEY <> EmptyString /\ apiKey req <> Some API_KEY)
  /\ (sent (after x) !! rid = Some (Json 400 "HTML content is required")
      <-> ~ (API_KEY <> EmptyString /\ apiKey req <> Some API_KEY)
          /\ truthy (html req) = false)
  /\ (API_KEY = EmptyString ->
      sent (after x) !! rid <> Some (Json 401 "Unauthorized")).
Proof.
  intros Hsent Hrace x. subst x.
  destruct (answer_cases rid req env n w Hsent Hrace) as (resp & Hs & Hcases).
  rewrite Hs, lookup_insert_eq. rewrite <- unauthorized_iff.
  split; [|split].
  - destruct Hcases as [(Ha & ->)|[(Ha & Hh & ->)|(Ha & Hh & Hr1 & Hr2)]];
      rewrite Ha; split; try done; intros [= ?]; done.
  - destruct Hcases as [(Ha & ->)|[(Ha & Hh & ->)|(Ha & Hh & Hr1 & Hr2)]];
      rewrite Ha.
    + split; [done|]. intros [H _]. done.
    + split; [|done]. intros _. split; [done|exact Hh].
    + split; [intros [= ?]; done|]. intros [_ H]. congruence.
  - intros Hkey Hr. injection Hr as ->.
    destruct Hcases as [(Ha & _)|[(_ & _ & [=])|(_ & _ & Hr1 & _)]]; [|done].
    apply unauthorized_iff in Ha as [Ha _]. done.
Qed.



(** ** Runs with collaborators of a kind *)

Lemma wp_when_mono {A : Type} L (p : prog A) (Q Q' : settled A -> world -> Prop) w :
  (forall r w', Q r w' -> Q' r w') -> wp_when L p Q w -> wp_when L p Q' w.
Proof.
  intros HQ. revert w.
  induction p as [a|e|k IH|o k IH|X c k IH]; cbn; intros w Hp; eauto.
Qed.

Lemma wp_when_bind_intro {A B : Type} L (p : prog A) (f : A -> prog B) Q w :
  wp_when L p (fun r w' => match r with
                           | Fulfilled a => wp_when L (f a) Q w'
                           | Rejected e => Q (Rejected e) w'
                           end) w ->
  wp_when L (bind p f) Q w.
Proof.
  revert w.
  induction p as [a|e|k IH|o k IH|X c k IH]; cbn; intros w Hp; eauto.
Qed.

Lemma wp_when_catch_intro {A : Type} L (p : prog A) (h : error -> prog A) Q w :
  wp_when L p (fun r w' => match r with
                           | Fulfilled a => Q (Fulfilled a) w'
                           | Rejected e => wp_when L (h e) Q w'
                           end) w ->
  wp_when L (catch p h) Q w.
Proof.
  revert w.
  induction p as [a|e|k IH|o k IH|X c k IH]; cbn; intros w Hp; eauto.
Qed.

Lemma wp_when_finally_intro {A : Type} L (p : prog A) (q : prog unit) Q w :
  wp_when L p (fun r w' =>
                 wp_when L q (fun r' w'' => match r' with
                                            | Fulfilled _ => Q r w''
                                            | Rejected e' => Q (Rejected e') w''
                                            end) w') w ->
  wp_when L (finally p q) Q w.
Proof.
  revert w.
  induction p as [a|e|k IH|o k IH|X c k IH]; cbn; intros w Hp; eauto.
  - apply wp_when_bind_intro. eapply wp_when_mono; [|exact Hp].
    intros [[]|e'] w'; cbn; auto.
  - apply wp_when_bind_intro. eapply wp_when_mono; [|exact Hp].
    intros [[]|e'] w'; cbn; auto.
Qed.

Lemma wp_when_await {X : Type} L (c : call X) (Q : settled X -> world -> Prop) w :
  (forall r, L X c r -> Q r (note c w)) -> wp_when L (await c) Q w.
Proof. intros H [x|e] HL; cbn; apply H; exact HL. Qed.

Lemma wp_when_perform L (o : op) (Q : settled unit -> world -> Prop) w :
  Q (Fulfilled tt) (apply_op o w) -> wp_when L (perform o) Q w.
Proof. auto. Qed.

Lemma wp_when_read L (Q : settled world -> world -> Prop) w :
  Q (Fulfilled w) w -> wp_when L read Q w.
Proof. auto. Qed.

(** What [wp_when L] promises is what [run] delivers against an oracle
    whose every answer [L] allows. *)
Lemma wp_when_run {A : Type} L (p : prog A) Q w (env : nat -> answer) n :
  (forall m X (c : call X), L X c (env m X c)) ->
  wp_when L p Q w -> Q (outcome (run p env n w)) (after (run p env n w)).
Proof.
  intros Henv. revert w n.
  induction p as [a|e|k IH|o k IH|X c k IH]; cbn; intros w n Hp; eauto.
Qed.

(** A browser variable that is usable is not null. *)
Ltac no_null_browser :=
  solve [ exfalso;
          first
            [ match goal with H : Some _ = None |- _ => discriminate H end
            | match goal with
              | H : unusable _ = false, H' : browser _ = None |- _ =>
                  unfold unusable in H;
                  cbn [apply_op note with_slots with_browser with_dead with_cache
                       with_page with_sent with_trace browser] in H, H';
                  rewrite H' in H; discriminate H
              end ] ].

(** Symbolic execution under [wp_when], one construct at a time, with the
    worlds written out; an answer that [L] excludes closes its branch. *)
Ltac when_step :=
  lazy beta iota zeta;
  cbn [apply_op note with_slots with_browser with_dead with_cache with_page
       with_sent with_trace slots browser dead fontCSSCache page sent trace];
  rewrite ?lookup_insert_eq;
  lazymatch goal with
  | |- wp_when _ (bind _ _) _ _ => apply wp_when_bind_intro
  | |- wp_when _ (catch _ _) _ _ => apply wp_when_catch_intro
  | |- wp_when _ (finally _ _) _ _ => apply wp_when_finally_intro
  | |- wp_when _ (swallow _) _ _ => unfold swallow
  | |- wp_when _ (await _) _ _ =>
      apply wp_when_await;
      let HL := fresh "HL" in
      intros [?|?] HL;
      unfold server_works in HL; cbn [chromium_works fetch_checks] in HL;
      try solve [ exfalso;
                  lazymatch type of HL with
                  | (exists _, _) /\ _ => destruct HL as [[? HL] _]; discriminate HL
                  | exists _, _ => destruct HL as [? HL]; discriminate HL
                  end ]
  | |- wp_when _ (perform _) _ _ => apply wp_when_perform
  | |- wp_when _ (respond _ _) _ _ => unfold respond
  | |- wp_when _ read _ _ => apply wp_when_read
  | |- wp_when _ (Ret _) _ _ => cbn [wp_when]
  | |- wp_when _ (Throw _) _ _ => cbn [wp_when]
  | |- wp_when _ (if ?c then _ else _) _ _ => destruct c eqn:?
  | |- wp_when _ (match ?x with _ => _ end) _ _ => destruct x eqn:?
  | |- wp_when _ getBrowser _ _ => unfold getBrowser
  | |- wp_when _ (getFontCSS _) _ _ => unfold getFontCSS
  | |- wp_when _ (fetch_css _ _) _ _ => unfold fetch_css
  | |- wp_when _ (try_block _ _) _ _ => unfold try_block
  | |- wp_when _ (catch_block _ _) _ _ => unfold catch_block
  | |- wp_when _ (finally_block _) _ _ => unfold finally_block
  | |- wp_when _ (render _ _) _ _ => unfold render
  end;
  try no_null_browser.

Lemma pdf_format_of_page_calls (new : list item) :
  omap pdf_format new = omap pdf_step (omap page_call new).
Proof.
  induction new as [|i new IH]; [done|].
  destruct i as [X c|o]; [destruct c|]; cbn; rewrite ?IH; done.
Qed.

(** The handler of a request that passes the checks, when its race is
    won and Chromium works. *)
Lemma handler_prints rid req w :
  unauthorized req = false -> truthy (html req) = true ->
  wp_when chromium_works (post_api_pdf rid req)
    (fun r w' =>
       r = Fulfilled tt
       /\ exists new bytes, trace w' = trace w ++ new
            /\ omap pdf_format new = [paper req]
            /\ sent w' = <[rid := Pdf bytes]> (sent w)) w.
Proof.
  intros Ha Hh. unfold post_api_pdf. rewrite Ha, Hh. cbn [negb].
  repeat when_step.
  all: world_simpl; (split; [reflexivity|]).
  all: rewrite <- ?app_assoc; cbn [app].
  all: eexists _, _; split; [reflexivity|]; split; reflexivity.
Qed.

(** A PDF answer comes with one [page.pdf] call, for the paper size of
    the request. *)
Lemma pdf_answer_is_printed rid req w :
  sent w !! rid = None ->
  wp (post_api_pdf rid req)
     (fun _ w' =>
        exists new, trace w' = trace w ++ new
          /\ forall bytes, sent w' !! rid = Some (Pdf bytes) ->
               omap pdf_format new = [paper req]) w.
Proof.
  intros Hsent. unfold post_api_pdf. wp_handler.
  all: stitch.
  1, 2, 4, 5: intros bytes Hb; world_simpl; rewrite ?lookup_insert_eq in Hb;
    congruence.
  match goal with
  | H : sent _ !! rid = None -> _ |- _ =>
      destruct H as (resp & _ & Hs1 & _ & Hfull); [world_simpl; done|]
  end.
  intros bytes Hb. rewrite Hs1, lookup_insert_eq in Hb. injection Hb as ->.
  destruct Hfull as (b & p & fontCSS & _ & Hcalls); [eauto|].
  rewrite pdf_format_of_page_calls. cbn [omap list_omap page_call].
  rewrite Hcalls. reflexivity.
Qed.

(** C10. The paper size handed to [page.pdf] is [letter] exactly when the
    [format] field is the string [Letter]; every other value, the absent
    field included, gives [a4].  Whatever the request and however the
    collaborators answer, the handler calls [page.pdf] at most once, with
    that size, and a request that is answered with the PDF has had that
    one call.  No value of the field makes the handler fail: a request
    that passes the checks, whose interpolated fields ([html], [css],
    [fontFamily]) are no arrays or objects, whose admission race is won
    and for which Chromium does what it is asked, is answered with the
    PDF, printed on that size, whatever its [format] is; and the field
    enters the handler through the paper size alone, so a request with
    any other value that gives the same size is handled by the same
    program. *)
Theorem letter_only_for_the_string_Letter rid req env n w :
  (paper req = "letter" <-> format req = JStr "Letter")
  /\ (format req <> JStr "Letter" -> paper req = "a4")
  /\ (exists new,
        trace (after (run (post_api_pdf rid req) env n w)) = trace w ++ new
        /\ (omap pdf_format new = [] \/ omap pdf_format new = [paper req])
        /\ (sent w !! rid = None ->
            forall bytes,
              sent (after (run (post_api_pdf rid req) env n w)) !! rid
              = Some (Pdf bytes) ->
              omap pdf_format new = [paper req])
        /\ (unauthorized req = false -> truthy (html req) = true ->
            primitive (html req) -> primitive (css req) ->
            primitive (fontFamily req) ->
            (forall m X (c : call X), chromium_works X c (env m X c)) ->
            outcome (run (post_api_pdf rid req) env n w) = Fulfilled tt
            /\ omap pdf_format new = [paper req]
            /\ exists bytes,
                 sent (after (run (post_api_pdf rid req) env n w)) !! rid
                 = Some (Pdf bytes)))
  /\ (forall v,
        paper (Request (apiKey req) (html req) (css req) v (fontFamily req))
        = paper req ->
        post_api_pdf rid (Request (apiKey req) (html req) (css req) v (fontFamily req))
        = post_api_pdf rid req).
Proof.
  assert (Hfmt : forall s : string,
             strict_eq (format_of req) s = true <-> format_of req = JStr s).
  { intros s. destruct (format_of req); cbn; try (split; [done|congruence]).
    split; [intros ->%String.eqb_eq; done|intros [= ->]; apply String.eqb_refl]. }
  assert (Hof : format_of req = JStr "Letter" <-> format req = JStr "Letter").
  { unfold format_of. destruct (format req); split; congruence. }
  split; [|split; [|split]].
  - unfold paper. destruct (strict_eq (format_of req) "Letter") eqn:E.
    + apply Hfmt, Hof in E. done.
    + split; [done|]. intros H%Hof%Hfmt. congruence.
  - intros Hne. unfold paper.
    destruct (strict_eq (format_of req) "Letter") eqn:E; [|done].
    apply Hfmt, Hof in E. done.
  - assert (Hmost : wp (post_api_pdf rid req)
              (fun _ w' => exists new, trace w' = trace w ++ new
                 /\ (omap pdf_format new = [] \/ omap pdf_format new = [paper req]))
              w).
    { unfold post_api_pdf.
      repeat lazymatch goal with
             | |- wp (render _ _) _ _ =>
                 eapply wp_mono; [|apply render_spec];
                 intros ? ? (-> & ? & ? & ? & ? & ? & ? & ? & ?)
             | |- _ => wp_step
             end.
      all: stitch; tally; auto. }
    apply (wp_run _ _ _ env n) in Hmost. destruct Hmost as (new & Ht & Hmost).
    exists new. split; [exact Ht|]. split; [exact Hmost|]. split.
    + intros Hsent bytes Hb.
      destruct (wp_run _ _ _ env n (pdf_answer_is_printed rid req w Hsent))
        as (new' & Ht' & Hpdf).
      rewrite Ht in Ht'. apply app_inv_head in Ht'. subst new'. eauto.
    + intros Ha Hh _ _ _ Henv.
      destruct (wp_when_run chromium_works _ _ w env n Henv
                  (handler_prints rid req w Ha Hh))
        as (Hout & new' & bytes & Ht' & Hpdf & Hs).
      rewrite Ht in Ht'. apply app_inv_head in Ht'. subst new'.
      split; [exact Hout|]. split; [exact Hpdf|].
      exists bytes. rewrite Hs. apply lookup_insert_eq.
  - intros v Hv. unfold post_api_pdf, render, try_block. rewrite Hv. reflexivity.
Qed.

(** ** A font named like a member of every object *)

Lemma fulfil_chromium_works b s X (c : call X) : chromium_works X c (fulfil b s X c).
Proof. destruct c; cbn; eauto. Qed.

Lemma with_url_check_works (ans : answer) X (c : call X) :
  chromium_works X c (ans X c) -> server_works X c (with_url_check ans X c).
Proof.
  unfold server_works. destruct c; cbn; try (split; [done|exact I]).
  intros _. split; [exact I|]. intros Hno.
  rewrite bool_decide_eq_true_2 by exact Hno. eauto.
Qed.

Lemma inherited_is_no_font k v :
  OBJECT_PROTOTYPE !! k = Some v ->
  font_url (JStr k) = Some v
  /\ truthy (JStr k) = true /\ strict_eq (JStr k) "Inter" = false.
Proof.
  intros Hv. pose proof Hv as Hin. unfold OBJECT_PROTOTYPE in Hin.
  apply elem_of_list_to_map_2 in Hin. unfold PROTOTYPE_MEMBERS in Hin.
  repeat (apply elem_of_cons in Hin as [[= -> ->]|Hin]; [vm_compute; done|]).
  by apply elem_of_nil in Hin.
Qed.

(** X24. A [fontFamily] that is the name of a member that every object
    inherits ([constructor], [toString], [__proto__], ...) passes the
    font test of the handler although it names no font, because
    [FONT_URLS[fontFamily]] finds the member.  The handler then calls
    [getFontCSS], which hands the member to [fetch].  With the [fetch]
    of the running server, which rejects what is no URL, and a Chromium
    that works, the request (its [html] and [css] being no arrays or
    objects) is still answered with the PDF: one fetch
    is attempted, nothing is cached, and the font CSS of the document is
    the base rule followed by a new line and nothing.  Only [fetch]
    stands in the way of an entry under that name: were the fetch and
    the reading of its body to succeed, [getFontCSS] would store the
    text under the inherited name. *)
Theorem inherited_name_passes_the_font_test
    rid req k v (env : nat -> answer) n w :
  OBJECT_PROTOTYPE !! k = Some v ->
  fontFamily req = JStr k ->
  fontCSSCache w !! k = None ->
  unauthorized req = false ->
  truthy (html req) = true ->
  primitive (html req) ->
  primitive (css req) ->
  (forall m X (c : call X), server_works X c (env m X c)) ->
  let x := run (post_api_pdf rid req) env n w in
  wants_font req = true
  /\ font_url (fontFamily req) = Some v
  /\ (exists new b p bytes,
        trace (after x) = trace w ++ new
        /\ omap fetched new = [v]
        /\ omap page_call new
           = page_prefix req b p (base_font +:+ newline +:+ EmptyString) 5
             ++ [PClose p]
        /\ fontCSSCache (after x) = fontCSSCache w
        /\ sent (after x) !! rid = Some (Pdf bytes))
  /\ (forall (env' : nat -> answer) m w0 css,
        fontCSSCache w0 !! k = None ->
        env' m unit (Fetch v) = Fulfilled tt ->
        env' (S m) string (ResText v) = Fulfilled css ->
        fontCSSCache (after (run (getFontCSS (fontFamily req)) env' m w0)) !! k
        = Some css).
Proof.
  intros Hv Hfam Hcache Ha Hh _ _ Henv x. subst x.
  destruct (inherited_is_no_font k v Hv) as (Hurl & Htruthy & Hinter).
  pose proof (inherited_text_is_no_url k v Hv) as Hno.
  assert (Hwant : truthy (JStr k) && negb (strict_eq (JStr k) "Inter")
                  && bool_decide (is_Some (font_url (JStr k))) = true).
  { rewrite Htruthy, Hinter, Hurl. rewrite bool_decide_eq_true_2 by eauto. done. }
  split; [unfold wants_font; rewrite Hfam; exact Hwant|].
  split; [rewrite Hfam; exact Hurl|]. split.
  - apply (wp_when_run server_works (post_api_pdf rid req)
             (fun _ w' =>
                exists new b p bytes,
                  trace w' = trace w ++ new
                  /\ omap fetched new = [v]
                  /\ omap page_call new
                     = page_prefix req b p (base_font +:+ newline +:+ EmptyString) 5
                       ++ [PClose p]
                  /\ fontCSSCache w' = fontCSSCache w
                  /\ sent w' !! rid = Some (Pdf bytes)) w env n Henv).
    unfold post_api_pdf, render, try_block. rewrite Ha, Hh, Hfam, Hwant. cbn [negb].
    unfold getFontCSS. rewrite Hurl.
    repeat when_step.
    all: try solve [ exfalso; cbn [cache_get] in *; world_simpl; congruence ].
    all: try solve [ exfalso;
                     match goal with
                     | H : _ /\ (no_url _ -> _) |- _ =>
                         destruct H as [_ H]; destruct (H Hno) as [? H']; discriminate H'
                     end ].
    all: world_simpl; rewrite <- ?app_assoc; cbn [app]; unfold base_font.
    all: eexists _, _, _, _; split; [reflexivity|].
    all: split; [reflexivity|]. all: split; [reflexivity|].
    all: split; [reflexivity|]. all: apply lookup_insert_eq.
  - intros env' m w0 css Hw0 Hfetch Htext. rewrite Hfam.
    unfold getFontCSS, fetch_css. rewrite Hurl. run_simpl. cbn [cache_get].
    rewrite Hw0. run_simpl. rewrite Hfetch. run_simpl. rewrite Htext. run_simpl.
    cbn [after fst snd]. world_simpl. cbn [cache_set]. apply lookup_insert_eq.
Qed.

(** ** The font cache, call by call *)

(** X10. When the fetch for a known font that has no cache entry
    succeeds, [getFontCSS] returns the text of the response and stores it
    under the font's name, leaving every other entry as it was; having
    issued that one fetch.  From then on a call for that font returns
    the stored text at once: it awaits nothing, calls no collaborator
    and changes nothing. *)
Theorem fetched_font_is_cached_and_served_from_the_cache
    k url css (env : nat -> answer) n w :
  FONT_URLS !! k = Some url ->
  fontCSSCache w !! k = None ->
  env n unit (Fetch url) = Fulfilled tt ->
  env (S n) string (ResText url) = Fulfilled css ->
  let x := run (getFontCSS (JStr k)) env n w in
  outcome x = Fulfilled css
  /\ fontCSSCache (after x) = <[k := css]> (fontCSSCache w)
  /\ fontCSSCache (after x) !! k = Some css
  /\ (forall k', k' <> k -> fontCSSCache (after x) !! k' = fontCSSCache w !! k')
  /\ omap fetched (trace (after x)) = omap fetched (trace w) ++ [url]
  /\ forall (env' : nat -> answer) m,
       run (getFontCSS (JStr k)) env' m (after x) = (Fulfilled css, after x, m).
Proof.
  intros Hurl Hw Hfetch Htext x.
  assert (Hx : x = (Fulfilled css,
                    apply_op (CacheSet (JStr k) css)
                      (note (ResText url) (note (Fetch url) w)), S (S n))).
  { subst x. unfold getFontCSS, font_url, fetch_css. cbn [to_text].
    rewrite Hurl. run_simpl. cbn [cache_get]. rewrite Hw. run_simpl.
    rewrite Hfetch. run_simpl. rewrite Htext. run_simpl. reflexivity. }
  rewrite Hx. cbn [outcome after fst snd]. world_simpl. cbn [cache_set].
  split; [done|]. split; [done|]. split; [apply lookup_insert_eq|].
  split; [intros k' Hk'; apply lookup_insert_ne; congruence|].
  split.
  - rewrite !omap_app. cbn. rewrite !app_nil_r. done.
  - intros env' m. unfold getFontCSS, font_url. cbn [to_text].
    rewrite Hurl. run_simpl. cbn [cache_get]. world_simpl. cbn [cache_set].
    rewrite lookup_insert_eq. reflexivity.
Qed.

(** X11. A font named by a value that is not a string but reads as the
    name of a known font (the one-element array [['Roboto']] of a JSON
    body) passes the test of the handler, and [getFontCSS] fetches for
    it on every call: the [Map] never finds an array it has not been
    given, so no call for such a value is answered from the cache, and
    the entries under the font names are left as they were. *)
Theorem font_named_by_an_array_is_fetched_every_time
    shown url req (env : nat -> answer) n w :
  font_url (JObj shown) = Some url ->
  fontFamily req = JObj shown ->
  let x := run (getFontCSS (fontFamily req)) env n w in
  wants_font req = true
  /\ omap fetched (trace (after x)) = omap fetched (trace w) ++ [url]
  /\ fontCSSCache (after x) = fontCSSCache w
  /\ forall (env' : nat -> answer) m,
       omap fetched (trace (after (run (getFontCSS (fontFamily req)) env' m (after x))))
       = omap fetched (trace (after x)) ++ [url].
Proof.
  intros Hurl Hfam x.
  assert (Hrun : forall (env0 : nat -> answer) m w0,
             omap fetched (trace (after (run (getFontCSS (JObj shown)) env0 m w0)))
             = omap fetched (trace w0) ++ [url]
             /\ fontCSSCache (after (run (getFontCSS (JObj shown)) env0 m w0))
                = fontCSSCache w0).
  { intros env0 m w0. unfold getFontCSS, fetch_css. rewrite Hurl.
    run_simpl. cbn [cache_get]. run_simpl.
    destruct (env0 m unit (Fetch url)) as [[]|e0]; run_simpl;
      [destruct (env0 (S m) string (ResText url)) as [css|e0]; run_simpl|];
      cbn [after fst snd]; world_simpl; rewrite !omap_app; cbn;
      rewrite ?app_nil_r; done. }
  subst x. rewrite Hfam. split; [|split; [|split]].
  - unfold wants_font. rewrite Hfam, Hurl. reflexivity.
  - apply Hrun.
  - apply Hrun.
  - intros env' m. apply Hrun.
Qed.

(** X12. Which values of [fontFamily] the handler ignores.  The field
    fails the test of the handler exactly when it is absent or falsy, or
    is the string [Inter], or reads as a name that [FONT_URLS[name]]
    does not find: neither one of the seven names of the table nor one
    of the twelve names that every object inherits ([constructor],
    [toString], [__proto__], ...).  For such a request the handler is,
    step for step, the handler of the same request without the field,
    so an unknown font name is not an error and changes nothing in what
    is rendered.  An inherited name is not ignored: it passes the
    test. *)
Theorem unknown_font_is_treated_as_no_font rid req :
  (wants_font req = false
   <-> truthy (fontFamily req) = false
       \/ fontFamily req = JStr "Inter"
       \/ ((to_text (fontFamily req) ∉ FONT_NAMES)
           /\ (to_text (fontFamily req) ∉ INHERITED_NAMES)))
  /\ (wants_font req = false ->
      post_api_pdf rid req
      = post_api_pdf rid
          (Request (apiKey req) (html req) (css req) (format req) JUndefined))
  /\ (forall k, k ∈ INHERITED_NAMES -> fontFamily req = JStr k ->
      wants_font req = true).
Proof.
  split; [|split].
  - rewrite <- not_true_iff_false, wants_font_iff, elem_of_app.
    destruct (truthy (fontFamily req)); [|intuition congruence].
    pose proof (strict_eq_true (fontFamily req) "Inter") as Hs.
    destruct (strict_eq (fontFamily req) "Inter").
    { pose proof (proj1 Hs eq_refl) as Hi. intuition congruence. }
    assert (Hi : fontFamily req <> JStr "Inter").
    { intros H. apply Hs in H. discriminate H. }
    split.
    + intros Hno. right. right. split; intros Hin; apply Hno; auto.
    + intros [?|[?|[Hf Hp]]]; [done..|]. intros (_ & _ & [?|?]); auto.
  - unfold wants_font. intros Hno.
    unfold post_api_pdf, render, try_block. rewrite Hno. reflexivity.
  - intros k Hk Hfam. apply wants_font_iff. rewrite Hfam. cbn [to_text truthy].
    unfold INHERITED_NAMES, PROTOTYPE_MEMBERS in Hk. cbn [fmap list_fmap fst] in Hk.
    repeat (apply elem_of_cons in Hk as [->|Hk];
            [split; [reflexivity|]; split; [discriminate|];
             apply elem_of_app; right; unfold INHERITED_NAMES, PROTOTYPE_MEMBERS;
             cbn [fmap list_fmap fst]; repeat constructor|]).
    by apply elem_of_nil in Hk.
Qed.

(** ** The shared browser, call by call *)

(** X13. A [getBrowser] call that finds no usable browser first closes
    the browser it holds, if it holds one, and goes on whatever that
    close did; then it launches, once.  When the launch succeeds the new
    browser is stored and returned.  When the launch fails the call is
    rejected with the error of the launch and the variable is left as it
    was, so the server still has no usable browser and the next call
    starts over. *)
Theorem getBrowser_replaces_an_unusable_browser (env : nat -> answer) n w :
  unusable w = true ->
  let x := run getBrowser env n w in
  let m := match browser w with Some _ => S n | None => n end in
  omap browser_closed (trace (after x))
  = omap browser_closed (trace w) ++ option_list (browser w)
  /\ omap launched (trace (after x)) = omap launched (trace w) ++ [tt]
  /\ (forall b, env m nat Launch = Fulfilled b ->
        outcome x = Fulfilled (Some b) /\ browser (after x) = Some b)
  /\ (forall e, env m nat Launch = Rejected e ->
        outcome x = Rejected e /\ browser (after x) = browser w
        /\ dead (after x) = dead w /\ unusable (after x) = true).
Proof.
  intros Hw x m. subst x m. unfold getBrowser. run_simpl. rewrite Hw.
  destruct (browser w) as [b0|] eqn:Hb; run_simpl.
  - destruct (env n unit (BrowserClose b0)) as [[]|e0]; run_simpl;
      destruct (env (S n) nat Launch) as [b|e] eqn:Hl; run_simpl;
      cbn [outcome after fst snd]; world_simpl; rewrite !omap_app; cbn;
      rewrite ?app_nil_r.
    all: repeat split; try done; congruence.
  - destruct (env n nat Launch) as [b|e] eqn:Hl; run_simpl;
      cbn [outcome after fst snd]; world_simpl; rewrite !omap_app; cbn;
      rewrite ?app_nil_r.
    all: repeat split; try done; congruence.
Qed.

(** X14. [shutdown] closes the browser the server holds, if it holds
    one, and always reaches [process.exit]: a close that fails is
    ignored.  It waits for no job: the admission counter and queue, the
    pages and the responses are left as they are. *)
Theorem shutdown_closes_the_browser_and_always_returns
    (env : nat -> answer) n w :
  let x := run shutdown env n w in
  outcome x = Fulfilled tt
  /\ trace (after x)
     = trace w ++ match browser w with
                  | Some b => [Called (BrowserClose b)]
                  | None => []
                  end
  /\ slots (after x) = slots w /\ page (after x) = page w
  /\ sent (after x) = sent w /\ browser (after x) = browser w.
Proof.
  intros x. subst x. unfold shutdown. run_simpl.
  destruct (browser w) as [b|] eqn:Hb; run_simpl.
  - destruct (env n unit (BrowserClose b)) as [[]|e]; run_simpl;
      cbn [outcome after fst snd]; world_simpl; done.
  - cbn [outcome after fst snd]. rewrite app_nil_r. done.
Qed.

(** X15. [startKeepAlive] installs a tick only when [KEEP_ALIVE_URL] is
    set and not empty.  A tick fetches [KEEP_ALIVE_URL/health], once;
    whether the fetch succeeds or fails the tick returns normally, and
    it touches none of the server's variables. *)
Theorem keep_alive_pings_health_and_ignores_failure
    url tick (env : nat -> answer) n w :
  startKeepAlive url = Some tick ->
  exists u, url = Some u /\ u <> EmptyString
    /\ run tick env n w = (Fulfilled tt, note (Fetch (u +:+ "/health")) w, S n).
Proof.
  unfold startKeepAlive. destruct url as [u|]; [|done].
  destruct (String.eqb_spec u EmptyString) as [->|Hne]; [done|].
  intros [= <-]. exists u. split; [done|]. split; [done|].
  unfold keepAlive. run_simpl.
  destruct (env n unit (Fetch (u +:+ "/health"))) as [[]|e]; reflexivity.
Qed.

(** ** Programs that never throw *)

Lemma safe_bind {A B : Type} (p : prog A) (f : A -> prog B) :
  safe p -> (forall a, safe (f a)) -> safe (bind p f).
Proof.
  intros Hp Hf. induction p as [a|e|g IH|o p' IH|X c g IH]; cbn in *; auto.
Qed.

Lemma safe_catch {A : Type} (p : prog A) (h : error -> prog A) :
  (forall e, safe (h e)) -> safe (catch p h).
Proof.
  intros Hh. induction p as [a|e|g IH|o p' IH|X c g IH]; cbn in *; auto.
Qed.

Lemma safe_finally {A : Type} (p : prog A) (q : prog unit) :
  safe p -> safe q -> safe (finally p q).
Proof.
  intros Hp Hq. induction p as [a|e|g IH|o p' IH|X c g IH]; cbn in *; auto.
  - apply safe_bind; [done|]. intros _. exact I.
  - done.
Qed.

Ltac harmless :=
  repeat lazymatch goal with
    | |- safe (bind _ _) => apply safe_bind; [|intros ?]
    | |- safe (catch _ _) => apply safe_catch; intros ?
    | |- safe (finally _ _) => apply safe_finally
    | |- safe (swallow _) => unfold swallow
    | |- safe (respond _ _) => exact I
    | |- safe (perform _) => exact I
    | |- safe read => intros ?; exact I
    | |- safe (Ret _) => exact I
    | |- safe (if ?c then _ else _) => destruct c
    | |- safe (match ?x with _ => _ end) => destruct x
    | |- safe (getFontCSS _) => unfold getFontCSS
    | |- safe (fetch_css _ _) => unfold fetch_css
    | |- safe (catch_block _ _) => unfold catch_block
    | |- safe (finally_block _) => unfold finally_block
    | |- safe (render _ _) => unfold render
    | |- safe shutdown => unfold shutdown
    | |- safe (keepAlive _) => unfold keepAlive
    end.

Lemma getFontCSS_safe fontName : safe (getFontCSS fontName).
Proof. harmless. Qed.

Lemma render_safe rid req : safe (render rid req).
Proof. harmless. Qed.

Lemma post_api_pdf_safe rid req : safe (post_api_pdf rid req).
Proof.
  unfold post_api_pdf.
  destruct (unauthorized req); [exact I|].
  destruct (negb (truthy (html req))); [exact I|].
  cbn [bind read perform catch await safe lawful]. intros w r [->| ->].
  - cbn [bind catch]. apply render_safe.
  - exact I.
Qed.

Lemma server_task_safe p : server_task p -> safe p.
Proof.
  intros [(rid & req & ->)|[->|(url & ->)]].
  - apply post_api_pdf_safe.
  - harmless.
  - harmless.
Qed.

Lemma lawful_settle {X : Type} w ans (c : call X) : lawful c (settle w ans c).
Proof. destruct c; cbn; auto. case_bool_decide; auto. Qed.

Lemma safe_advance {A : Type} (p : prog A) w : safe p -> safe (advance p w).1.
Proof.
  revert w. induction p as [a|e|g IH|o p' IH|X c g IH]; cbn; intros w Hp; auto.
Qed.

Lemma safe_pstep {A : Type} (q q' : pool A) e :
  safe_event e -> Forall safe (tasks q) -> pstep q e = Some q' ->
  Forall safe (tasks q').
Proof.
  intros He Hq Hstep. destruct e as [p|i ans|b]; cbn in Hstep.
  - pose proof (safe_advance p (shared q) He) as Hp.
    destruct (advance p (shared q)). injection Hstep as <-. cbn.
    apply Forall_app. split; [done|]. constructor; [done|constructor].
  - destruct (tasks q !! i) as [[a|e|g|o p'|X c g]|] eqn:Hi; try done.
    pose proof (Forall_lookup_1 _ _ _ _ Hq Hi) as Hsafe. cbn in Hsafe.
    pose proof (safe_advance _ (shared q)
                  (Hsafe _ (lawful_settle (shared q) ans c))) as Hp.
    destruct (advance _ _). injection Hstep as <-. cbn.
    apply Forall_insert; done.
  - injection Hstep as <-. done.
Qed.

Lemma safe_pexec {A : Type} (es : list (event A)) (q q' : pool A) :
  Forall safe_event es -> Forall safe (tasks q) -> pexec es q = Some q' ->
  Forall safe (tasks q').
Proof.
  revert q. induction es as [|e es IH]; cbn; intros q Hes Hq Hex.
  - injection Hex as <-. done.
  - apply Forall_cons in Hes as [He Hes].
    destruct (pstep q e) as [q1|] eqn:Hstep; [|done].
    eapply IH; [exact Hes| |exact Hex]. eapply safe_pstep; eauto.
Qed.

(** X16. In the running server, where the admission race is settled by
    [acquireSlot()] or by the timer and the collaborators may fail in any
    way at any time, no request handler, no [shutdown] and no keep-alive
    tick ever ends in an exception, under any interleaving: every one
    that has ended has returned.  (A [getBrowser] call on its own can
    be rejected; inside the handler the rejection is caught.) *)
Theorem server_tasks_never_reject (evs : list (event unit)) w q :
  Forall serves evs ->
  pexec evs (Pool w []) = Some q ->
  forall i p, tasks q !! i = Some p -> ended p -> p = Ret tt.
Proof.
  intros Hevs Hex i p Hi Hend.
  assert (Hsafe : Forall safe (tasks q)).
  { apply (safe_pexec evs (Pool w [])); [|constructor|done].
    eapply Forall_impl; [exact Hevs|].
    intros [p0|j ans|b]; cbn; auto using server_task_safe. }
  pose proof (Forall_lookup_1 _ _ _ _ Hsafe Hi) as Hp.
  destruct p as [[]|e|g|o p'|X c g]; cbn in *; done.
Qed.

(** ** Updates a program is confined to *)

Section Confined.

Variable L : forall X, call X -> settled X -> Prop.







End Confined.


(** *** What the server stores in the cache *)










(** ** Warming the font cache at startup *)

Lemma warming_update (keys : list string) (ps : list (prog string)) w w' i k p' :
  NoDup keys ->
  Forall2 (warming w) keys ps ->
  keys !! i = Some k ->
  warming w' k p' ->
  (forall k', k' <> k -> fontCSSCache w' !! k' = fontCSSCache w !! k') ->
  Forall2 (warming w') keys (<[i := p']> ps).
Proof.
  intros Hnd Hall Hi Hp' Hrest.
  apply Forall2_same_length_lookup in Hall as [Hlen Hall].
  apply Forall2_same_length_lookup. split; [by rewrite length_insert|].
  intros j kj pj Hkj Hpj.
  destruct (decide (i = j)) as [->|Hne].
  - rewrite list_lookup_insert_eq in Hpj
      by (rewrite <- Hlen; apply lookup_lt_is_Some; eauto).
    simplify_eq. done.
  - rewrite list_lookup_insert_ne in Hpj by done.
    assert (Hk : kj <> k).
    { intros ->. apply Hne. eapply NoDup_lookup; eauto. }
    destruct (Hall j kj pj Hkj Hpj) as (url & Hurl & Hcase).
    exists url. split; [done|]. rewrite (Hrest kj Hk). done.
Qed.

Lemma warming_pstep (keys : list string) (q q' : pool string) e :
  NoDup keys -> resumption e ->
  Forall2 (warming (shared q)) keys (tasks q) ->
  pstep q e = Some q' ->
  Forall2 (warming (shared q')) keys (tasks q')
  /\ omap fetched (trace (shared q')) = omap fetched (trace (shared q))
  /\ forall k css, fontCSSCache (shared q) !! k = Some css ->
       fontCSSCache (shared q') !! k = Some css.
Proof.
  intros Hnd He Hall Hstep. destruct e as [p|i ans|b]; [done| |].
  - unfold pstep in Hstep.
    destruct (tasks q !! i) as [p|] eqn:Hi; [|done].
    destruct (Forall2_lookup_r _ _ _ _ _ Hall Hi) as (k & Hk & url & Hurl & Hcase).
    destruct Hcase as [(Hnone & [->|[->| ->]])|(css & Hsome & ->)]; [| |done..].
    + unfold fetch_css in Hstep. cbn in Hstep.
      destruct (ans unit (Fetch url)) as [[]|e]; cbn in Hstep;
        injection Hstep as <-; cbn [shared tasks]; world_simpl.
      * split; [|split; [|done]];
          [|rewrite ?omap_app; cbn [omap list_omap fetched]; by rewrite ?app_nil_r].
        eapply warming_update; eauto.
        exists url. split; [done|]. left. world_simpl. split; [done|]. auto.
      * split; [|split; [|done]];
          [|rewrite ?omap_app; cbn [omap list_omap fetched]; by rewrite ?app_nil_r].
        eapply warming_update; eauto.
        exists url. split; [done|]. left. world_simpl. split; [done|]. auto.
    + unfold read_css in Hstep. cbn in Hstep.
      destruct (ans string (ResText url)) as [css|e]; cbn in Hstep;
        injection Hstep as <-; cbn [shared tasks]; world_simpl; cbn [cache_set].
      * split; [|split].
        -- eapply warming_update; eauto.
           ++ exists url. split; [done|]. right. exists css. world_simpl.
              cbn [cache_set]. rewrite lookup_insert_eq. done.
           ++ intros k' Hk'. world_simpl. cbn [cache_set].
              apply lookup_insert_ne. congruence.
        -- rewrite !omap_app. cbn. by rewrite !app_nil_r.
        -- intros k' css' Hk'. rewrite lookup_insert_ne; [done|].
           intros <-. congruence.
      * split; [|split; [|done]];
          [|rewrite ?omap_app; cbn [omap list_omap fetched]; by rewrite ?app_nil_r].
        eapply warming_update; eauto.
        exists url. split; [done|]. left. world_simpl. split; [done|]. auto.
  - cbn in Hstep. injection Hstep as <-. cbn [shared tasks]. world_simpl.
    split; [|done].
    eapply Forall2_impl; [exact Hall|]. intros k p Hw. exact Hw.
Qed.

Lemma warming_pexec (keys : list string) (es : list (event string)) (q q' : pool string) :
  NoDup keys -> Forall resumption es ->
  Forall2 (warming (shared q)) keys (tasks q) ->
  pexec es q = Some q' ->
  Forall2 (warming (shared q')) keys (tasks q')
  /\ omap fetched (trace (shared q')) = omap fetched (trace (shared q))
  /\ forall k css, fontCSSCache (shared q) !! k = Some css ->
       fontCSSCache (shared q') !! k = Some css.
Proof.
  intros Hnd. revert q. induction es as [|e es IH]; cbn; intros q Hes Hall Hex.
  - injection Hex as <-. done.
  - apply Forall_cons in Hes as [He Hes].
    destruct (pstep q e) as [q1|] eqn:Hstep; [|done].
    destruct (warming_pstep keys q q1 e Hnd He Hall Hstep) as (Hall1 & Hf1 & Hc1).
    destruct (IH q1 Hes Hall1 Hex) as (Hall' & Hf' & Hc').
    split; [done|]. split; [congruence|]. auto.
Qed.

Lemma warming_spawn (keys : list string) (q : pool string) :
  Forall (fun k => is_Some (FONT_URLS !! k)) keys ->
  exists q' ps,
    pexec ((fun k => Spawn (getFontCSS (JStr k))) <$> keys) q = Some q'
    /\ tasks q' = tasks q ++ ps
    /\ Forall2 (warming (shared q')) keys ps
    /\ fontCSSCache (shared q') = fontCSSCache (shared q)
    /\ omap fetched (trace (shared q'))
       = omap fetched (trace (shared q)) ++ omap (to_fetch (shared q)) keys.
Proof.
  intros Hkeys. revert q.
  induction Hkeys as [|k keys [url Hurl] _ IH]; intros q.
  - exists q, []. cbn. rewrite !app_nil_r. repeat split; constructor.
  - cbn [fmap list_fmap pexec pstep].
    destruct (getFontCSS_starts k url (shared q) Hurl) as [Hmiss Hhit].
    destruct (fontCSSCache (shared q) !! k) as [css|] eqn:Hc.
    + rewrite (Hhit css eq_refl).
      destruct (IH (Pool (shared q) (tasks q ++ [Ret css])))
        as (q' & ps & Hex & Ht & Hall & Hcache & Hf).
      exists q', (Ret css :: ps). cbn [shared tasks] in *.
      split; [done|]. split; [by rewrite Ht, <- app_assoc|].
      split; [|split; [done|]].
      * constructor; [|done]. exists url. split; [done|]. right.
        exists css. rewrite Hcache. done.
      * rewrite Hf. cbn [omap list_omap]. unfold to_fetch at 2. rewrite Hc. done.
    + rewrite (Hmiss eq_refl).
      destruct (IH (Pool (note (Fetch url) (shared q))
                         (tasks q ++ [fetch_css (JStr k) url])))
        as (q' & ps & Hex & Ht & Hall & Hcache & Hf).
      exists q', (fetch_css (JStr k) url :: ps). cbn [shared tasks] in *.
      world_simpl.
      split; [done|]. split; [by rewrite Ht, <- app_assoc|].
      split; [|split; [done|]].
      * constructor; [|done]. exists url. split; [done|]. left.
        rewrite Hcache. auto.
      * rewrite Hf, omap_app. cbn [omap list_omap fetched].
        unfold to_fetch at 2. rewrite Hc, Hurl. cbn.
        rewrite <- app_assoc. done.
Qed.

Lemma FONT_NAMES_NoDup : NoDup FONT_NAMES.
Proof. unfold FONT_NAMES. apply (bool_decide_unpack _). vm_compute. exact I. Qed.

(** X18. [prewarmFontCache], started with any cache and run to its end
    under any interleaving of its seven [getFontCSS] calls and any
    answers of the network: it fetches once for each font that has no
    entry, in the order of [FONT_URLS], and never for one that has; no
    call is rejected; each call returns the text it stored under its
    font's name, or the empty text with no entry stored when its fetch
    failed; and the entries that were there at the start are kept. *)
Theorem prewarm_caches_what_it_could_fetch w (evs : list (event string)) q :
  Forall resumption evs ->
  pexec ((Spawn <$> prewarmFontCache) ++ evs) (Pool w []) = Some q ->
  Forall ended (tasks q) ->
  (exists texts,
     tasks q = Ret <$> texts
     /\ Forall2 (fun k css =>
                   fontCSSCache (shared q) !! k = Some css
                   \/ (css = EmptyString /\ fontCSSCache (shared q) !! k = None))
                FONT_NAMES texts)
  /\ omap fetched (trace (shared q))
     = omap fetched (trace w) ++ omap (to_fetch w) FONT_NAMES
  /\ (forall k css, fontCSSCache w !! k = Some css ->
        fontCSSCache (shared q) !! k = Some css).
Proof.
  intros Hevs Hex Hend.
  unfold prewarmFontCache in Hex.
  rewrite <- list_fmap_compose, pexec_app in Hex. unfold compose in Hex.
  destruct (warming_spawn FONT_NAMES (Pool w []))
    as (q1 & ps & Hq1 & Ht1 & Hall1 & Hc1 & Hf1).
  { apply Forall_forall. intros k Hk. by apply FONT_NAMES_are_the_keys. }
  rewrite Hq1 in Hex. cbn in Hex, Ht1, Hc1, Hf1. subst ps.
  destruct (warming_pexec FONT_NAMES evs q1 q FONT_NAMES_NoDup Hevs Hall1 Hex)
    as (Hall & Hf & Hc).
  split; [|split].
  - clear -Hall Hend. revert Hend.
    induction Hall as [|k p keys ps Hp _ IH]; intros Hend.
    + exists []. split; [done|constructor].
    + apply Forall_cons in Hend as [Hp' Hend].
      destruct (IH Hend) as (texts & -> & Htexts).
      destruct Hp as (url & _ & [(Hnone & [->|[->| ->]])|(css & Hsome & ->)]);
        try done.
      * exists (EmptyString :: texts). split; [done|]. constructor; auto.
      * exists (css :: texts). split; [done|]. constructor; auto.
  - rewrite Hf, Hf1. done.
  - intros k css Hk. apply Hc. rewrite Hc1. done.
Qed.

(** ** Text *)

Lemma append_cons a (s t : string) : String a s +:+ t = String a (s +:+ t).
Proof. reflexivity. Qed.


Lemma prefix_spec (sub s : string) :
  String.prefix sub s = true <-> exists post, s = sub +:+ post.
Proof.
  revert s. induction sub as [|a sub IH]; intros s.
  - split; [intros _; exists s; done|]. intros _. by destruct s.
  - destruct s as [|b s]; simpl.
    + split; [done|intros [post [=]]].
    + destruct (Ascii.ascii_dec a b) as [->|Hne].
      * rewrite IH. split; intros [post H]; exists post;
          rewrite ?append_cons in *; congruence.
      * split; [done|]. intros [post H]. rewrite append_cons in H. congruence.
Qed.

Lemma includes_spec (s sub : string) :
  includes s sub = true <-> exists pre post, s = pre +:+ sub +:+ post.
Proof.
  split.
  - induction s as [|a s IH]; cbn [includes];
      intros [Hp|Hs]%orb_prop; try done.
    + apply prefix_spec in Hp as [post ->]. exists EmptyString, post. done.
    + apply prefix_spec in Hp as [post ->]. exists EmptyString, post. done.
    + destruct (IH Hs) as (pre & post & ->). exists (String a pre), post. done.
  - intros (pre & post & ->). induction pre as [|a pre IH].
    + assert (String.prefix sub (sub +:+ post) = true) as Hp
        by (apply prefix_spec; eauto).
      change (EmptyString +:+ sub +:+ post) with (sub +:+ post).
      destruct (sub +:+ post); cbn [includes]; rewrite Hp; done.
    + rewrite append_cons. cbn [includes]. rewrite IH. apply orb_true_r.
Qed.

(** X19. The test by which the handler decides that the browser has
    crashed: the message of the error contains one of the words
    [detached], [closed], [crashed], in lower case and at any position.
    Nothing else about the error is looked at. *)
Theorem crashed_means_the_message_names_a_crash e :
  crashed e = true
  <-> exists pre word post,
        word ∈ ["detached"; "closed"; "crashed"]
        /\ message e = pre +:+ word +:+ post.
Proof.
  unfold crashed. split.
  - intros [_ Hw]%andb_prop.
    apply orb_prop in Hw as [[Hw|Hw]%orb_prop|Hw];
      apply includes_spec in Hw as (pre & post & Hm);
      eexists pre, _, post; (split; [|exact Hm]); repeat constructor.
  - intros (pre & word & post & Hword & Hm).
    assert (Hinc : includes (message e) word = true)
      by (apply includes_spec; eauto).
    apply andb_true_intro. split.
    + rewrite Hm.
      repeat (apply elem_of_cons in Hword as [->|Hword];
              [destruct pre; reflexivity|]).
      by apply elem_of_nil in Hword.
    + repeat (apply elem_of_cons in Hword as [->|Hword];
              [rewrite Hinc, ?orb_true_r; reflexivity|]).
      by apply elem_of_nil in Hword.
Qed.


(** ** Jobs in the render section *)

Lemma logs_functional {B A : Type} (f : item -> option B) (p : prog A) k k' :
  logs f p k -> logs f p k' -> k = k'.
Proof.
  revert k k'. induction p as [a|e|g IH|o p' IH|X c g IH]; cbn; intros k k' H H'.
  - congruence.
  - congruence.
  - exact (IH boot _ _ (H boot) (H' boot)).
  - destruct H as [Hle H], H' as [Hle' H']. pose proof (IH _ _ H H'). lia.
  - destruct H as [Hle H], H' as [Hle' H'].
    pose proof (IH (Rejected (JsError EmptyString)) _ _ (H _) (H' _)). lia.
Qed.

Lemma owes_functional {B A : Type} (f : item -> option B) (p : prog A) k k' :
  owes f p k -> owes f p k' -> k = k'.
Proof.
  destruct p as [a|e|g|o p'|X c g]; cbn; intros H H'; try congruence; try done.
  exact (logs_functional f _ _ _ (H (Rejected (JsError EmptyString)))
           (H' (Rejected (JsError EmptyString)))).
Qed.

Lemma grown_refl w : grown w w.
Proof. split; auto. Qed.

Lemma grown_trans w1 w2 w3 : grown w1 w2 -> grown w2 w3 -> grown w1 w3.
Proof. intros [H1 H1'] [H2 H2']. split; [auto|lia]. Qed.

Lemma grown_op o w : grown w (apply_op o w).
Proof.
  unfold grown, apply_op. destruct o; world_simpl; try (split; [auto|lia]).
  - unfold acquireSlot. destruct (_ <? _)%Z; cbn [resolved tickets];
      (split; [|lia]); intros t Ht; rewrite ?elem_of_app; auto.
  - unfold releaseSlot. destruct (waitQueue _); cbn [resolved tickets];
      (split; [|lia]); intros t Ht; rewrite ?elem_of_app; auto.
Qed.

Lemma grown_advance {A : Type} (p : prog A) w : grown w (advance p w).2.
Proof.
  apply (advance_invariant (grown w)).
  - intros o w' H. eapply grown_trans; [exact H|apply grown_op].
  - intros X c w' H. exact H.
  - apply grown_refl.
Qed.

Lemma fits_grown w w' p s : grown w w' -> fits w p s -> fits w' p s.
Proof.
  intros [Hres _]. destruct s as [rid req t|t k|t]; cbn; [done| |done].
  intros [Ho Ht]. auto.
Qed.

Lemma fits_due w p s : fits w p s -> owes released p 1 -> due s = 1.
Proof.
  destruct s as [rid req t|t k|t]; cbn.
  - intros -> H. specialize (H (Rejected (JsError EmptyString))). cbn in H. done.
  - intros [Hk _] H1. exact (owes_functional released p _ _ Hk H1).
  - intros H0 H1. exact (owes_functional released p _ _ H0 H1).
Qed.

Lemma sum_list_with_insert {A : Type} (f : A -> nat) (l : list A) i x y :
  l !! i = Some x ->
  sum_list_with f (<[i := y]> l) + f x = sum_list_with f l + f y.
Proof.
  revert i. induction l as [|z l IH]; intros [|i] Hi; simpl in *; try done.
  - injection Hi as ->. lia.
  - specialize (IH _ Hi). lia.
Qed.

Lemma omap_cons {A B : Type} (f : A -> option B) x (l : list A) :
  omap f (x :: l) = match f x with Some y => y :: omap f l | None => omap f l end.
Proof. reflexivity. Qed.

Lemma insert_cons_S {A : Type} (l : list A) i x y :
  <[S i := y]> (x :: l) = x :: <[i := y]> l.
Proof. reflexivity. Qed.

Lemma omap_insert_same {A B : Type} (f : A -> option B) (l : list A) i x y :
  l !! i = Some x -> f y = f x -> omap f (<[i := y]> l) = omap f l.
Proof.
  revert i. induction l as [|z l IH]; intros i Hi Hf; [done|].
  destruct i as [|i]; cbn in Hi.
  - injection Hi as ->. change (<[0 := y]> (x :: l)) with (y :: l).
    rewrite !omap_cons, Hf. done.
  - rewrite insert_cons_S, !omap_cons, (IH _ Hi Hf). done.
Qed.

Lemma omap_insert_length {A B : Type} (f : A -> option B) (l : list A) i x y :
  l !! i = Some x ->
  length (omap f (<[i := y]> l)) + hits_of (f x) = length (omap f l) + hits_of (f y).
Proof.
  revert i. induction l as [|z l IH]; intros i Hi; [done|].
  destruct i as [|i]; cbn in Hi.
  - injection Hi as ->. change (<[0 := y]> (x :: l)) with (y :: l).
    rewrite !omap_cons. destruct (f x), (f y); cbn; lia.
  - rewrite insert_cons_S, !omap_cons. specialize (IH _ Hi).
    destruct (f z); cbn [length]; lia.
Qed.

Lemma omap_sublist {A B : Type} (f g : A -> option B) (l : list A) :
  (forall x y, g x = Some y -> f x = Some y) ->
  sublist (omap g l) (omap f l).
Proof.
  intros Hfg. induction l as [|x l IH]; [constructor|].
  rewrite !omap_cons.
  destruct (g x) as [y|] eqn:Hg.
  - rewrite (Hfg _ _ Hg). by constructor.
  - destruct (f x); [by constructor|done].
Qed.

Lemma count_advance {B A : Type} (f : item -> option B) (p : prog A) w :
  count f (trace w) <= count f (trace (advance p w).2).
Proof.
  apply (advance_invariant (fun w' => count f (trace w) <= count f (trace w'))).
  - intros o w' H. unfold apply_op. world_simpl. rewrite count_snoc. lia.
  - intros X c w' H. world_simpl. rewrite count_snoc. lia.
  - lia.
Qed.

Lemma jobs_inv_boot : jobs_inv (Pool boot []).
Proof.
  exists []. cbn. split; [constructor|]. split; [constructor|].
  split; [|done]. intros t Ht. by apply elem_of_nil in Ht.
Qed.

(** A program that never calls [releaseSlot] enters the pool as one that
    was not admitted. *)
Lemma jobs_inv_spawn_quiet (q : pool unit) p :
  logs released p 0 -> jobs_inv q ->
  jobs_inv (Pool (advance p (shared q)).2 (tasks q ++ [(advance p (shared q)).1])).
Proof.
  intros Hp (st & Hfits & Hnd & Hlt & Hsum).
  destruct (advance_logs released p 0 (shared q) Hp) as (k' & Hk' & Hcount).
  pose proof (grown_advance p (shared q)) as Hg.
  pose proof (count_advance released p (shared q)) as Hmono.
  assert (k' = 0) as -> by lia.
  exists (st ++ [Refused None]). cbn [shared tasks]. split; [|split; [|split]].
  - apply Forall2_app.
    + eapply Forall2_impl; [exact Hfits|]. intros p0 s. by apply fits_grown.
    + constructor; [exact Hk'|constructor].
  - rewrite omap_app. cbn. by rewrite app_nil_r.
  - rewrite omap_app. cbn. rewrite app_nil_r. intros t Ht%Hlt.
    destruct Hg as [_ Hg]. lia.
  - rewrite sum_list_with_app, omap_app, length_app. cbn. lia.
Qed.

Lemma racing_starts rid req w :
  unauthorized req = false -> truthy (html req) = true ->
  advance (post_api_pdf rid req) w
  = (racing rid req (tickets (slots w)),
     note (SlotRace (tickets (slots w))) (apply_op AcquireSlot w)).
Proof.
  intros Hauth Hhtml. unfold post_api_pdf. rewrite Hauth, Hhtml. reflexivity.
Qed.

Lemma jobs_inv_spawn (q : pool unit) p :
  server_task p -> jobs_inv q ->
  jobs_inv (Pool (advance p (shared q)).2 (tasks q ++ [(advance p (shared q)).1])).
Proof.
  intros [(rid & req & ->)|[->|(url & ->)]] Hq.
  - destruct (unauthorized req) eqn:Hauth;
      [|destruct (truthy (html req)) eqn:Hhtml].
    + apply jobs_inv_spawn_quiet; [|done].
      unfold post_api_pdf. rewrite Hauth. quiet.
    + rewrite (racing_starts rid req _ Hauth Hhtml). cbn [fst snd].
      destruct Hq as (st & Hfits & Hnd & Hlt & Hsum).
      exists (st ++ [Waiting rid req (tickets (slots (shared q)))]).
      cbn [shared tasks]. world_simpl.
      assert (Hg : grown (shared q)
                     (note (SlotRace (tickets (slots (shared q))))
                        (apply_op AcquireSlot (shared q))))
        by apply (grown_op AcquireSlot).
      split; [|split; [|split]].
      * apply Forall2_app.
        -- eapply Forall2_impl; [exact Hfits|]. intros p0 s. by apply fits_grown.
        -- constructor; [reflexivity|constructor].
      * rewrite omap_app. cbn. apply NoDup_app. split; [done|]. split.
        -- intros t Ht%Hlt [->|Hnil%elem_of_nil]%elem_of_cons; [lia|done].
        -- apply NoDup_singleton.
      * rewrite omap_app. cbn.
        assert (Htk : tickets (acquireSlot (slots (shared q)))
                      = S (tickets (slots (shared q)))).
        { unfold acquireSlot. destruct (_ <? _)%Z; reflexivity. }
        rewrite Htk. intros t [Ht%Hlt|[->|Hnil%elem_of_nil]%elem_of_cons]%elem_of_app;
          [lia|lia|done].
      * rewrite sum_list_with_app, omap_app, length_app, count_snoc, count_snoc.
        cbn. lia.
    + apply jobs_inv_spawn_quiet; [|done].
      unfold post_api_pdf. rewrite Hauth, Hhtml. cbn [negb]. quiet.
  - apply jobs_inv_spawn_quiet; [|done]. unfold shutdown. quiet.
  - apply jobs_inv_spawn_quiet; [|done]. unfold keepAlive. quiet.
Qed.

Lemma racing_resume (q : pool unit) i ans rid req t :
  tasks q !! i = Some (racing rid req t) ->
  pstep q (Resume i ans)
  = Some (if bool_decide (t ∈ resolved (slots (shared q)))
          then Pool (advance (render rid req) (shared q)).2
                    (<[i := (advance (render rid req) (shared q)).1]> (tasks q))
          else Pool (apply_op
                       (Respond rid (Json 504 "Request timed out, please try again"))
                       (shared q))
                    (<[i := Ret tt]> (tasks q))).
Proof.
  intros Hi. unfold pstep. rewrite Hi. unfold racing.
  cbn [bind catch await settle]. case_bool_decide.
  - cbn [bind catch]. destruct (advance (render rid req) (shared q)). reflexivity.
  - reflexivity.
Qed.

Lemma jobs_inv_update (q : pool unit) st i s s' p' w' :
  Forall2 (fits (shared q)) (tasks q) st ->
  NoDup (omap ticket st) ->
  (forall t, t ∈ omap ticket st -> t < tickets (slots (shared q))) ->
  st !! i = Some s ->
  grown (shared q) w' ->
  fits w' p' s' ->
  ticket s' = ticket s ->
  count released (trace w') + sum_list_with due (<[i := s']> st)
  = length (omap entered_ticket (<[i := s']> st)) ->
  jobs_inv (Pool w' (<[i := p']> (tasks q))).
Proof.
  intros Hfits Hnd Hlt Hs Hg Hfit Htk Hsum.
  exists (<[i := s']> st). cbn [shared tasks]. split; [|split; [|split]].
  - apply Forall2_insert; [|done].
    eapply Forall2_impl; [exact Hfits|]. intros p0 s0. by apply fits_grown.
  - rewrite (omap_insert_same ticket st i s s' Hs Htk). done.
  - rewrite (omap_insert_same ticket st i s s' Hs Htk).
    intros t Ht%Hlt. destruct Hg as [_ Hg]. lia.
  - done.
Qed.

Lemma jobs_inv_resume (q q' : pool unit) i ans :
  jobs_inv q -> pstep q (Resume i ans) = Some q' -> jobs_inv q'.
Proof.
  intros (st & Hfits & Hnd & Hlt & Hsum) Hstep.
  destruct (tasks q !! i) as [p|] eqn:Hi;
    [|unfold pstep in Hstep; rewrite Hi in Hstep; done].
  destruct (Forall2_lookup_l _ _ _ _ _ Hfits Hi) as (s & Hs & Hfit).
  destruct s as [rid req t|t k|tk]; cbn [fits] in Hfit.
  - subst p. pose proof (racing_resume q i ans rid req t Hi) as Hr.
    destruct (advance_logs released (render rid req) 1 (shared q)
                (render_logs_one_release rid req)) as (k' & Hk' & Hcount).
    pose proof (grown_advance (render rid req) (shared q)) as Hg.
    remember (advance (render rid req) (shared q)) as a eqn:Ha.
    rewrite Hr in Hstep. clear Hr Ha.
    injection Hstep as <-. case_bool_decide as Hres.
    + apply (jobs_inv_update q st i (Waiting rid req t) (Entered t k')); try done.
      * split; [exact Hk'|]. destruct Hg as [Hg _]. auto.
      * pose proof (sum_list_with_insert due st i _ (Entered t k') Hs) as H1.
        pose proof (omap_insert_length entered_ticket st i _ (Entered t k') Hs) as H2.
        cbn [due entered_ticket hits_of] in H1, H2. lia.
    + apply (jobs_inv_update q st i (Waiting rid req t) (Refused (Some t)));
        try done; try apply grown_op.
      unfold apply_op. world_simpl. rewrite count_snoc.
      pose proof (sum_list_with_insert due st i _ (Refused (Some t)) Hs) as H1.
        pose proof (omap_insert_length entered_ticket st i _ (Refused (Some t)) Hs) as H2.
        cbn [due entered_ticket hits_of hits released] in *. lia.
  - unfold pstep in Hstep. rewrite Hi in Hstep.
    destruct p as [a|e|g|o p'|X c g]; try done.
    destruct Hfit as [Hk Ht]. cbn [owes] in Hk.
    destruct (advance_logs released _ k (shared q) (Hk (settle (shared q) ans c)))
      as (k' & Hk' & Hcount).
    pose proof (grown_advance (g (settle (shared q) ans c)) (shared q)) as Hg.
    destruct (advance (g (settle (shared q) ans c)) (shared q)) as [p' w'].
    injection Hstep as <-. cbn [fst snd] in *.
    apply (jobs_inv_update q st i (Entered t k) (Entered t k')); try done.
    * split; [exact Hk'|]. destruct Hg as [Hg _]. auto.
    * pose proof (sum_list_with_insert due st i _ (Entered t k') Hs) as H1.
      pose proof (omap_insert_length entered_ticket st i _ (Entered t k') Hs) as H2.
      cbn [due entered_ticket hits_of] in H1, H2. lia.
  - unfold pstep in Hstep. rewrite Hi in Hstep.
    destruct p as [a|e|g|o p'|X c g]; try done.
    cbn [owes] in Hfit.
    destruct (advance_logs released _ 0 (shared q) (Hfit (settle (shared q) ans c)))
      as (k' & Hk' & Hcount).
    pose proof (grown_advance (g (settle (shared q) ans c)) (shared q)) as Hg.
    pose proof (count_advance released (g (settle (shared q) ans c)) (shared q)) as Hmono.
    destruct (advance (g (settle (shared q) ans c)) (shared q)) as [p' w'].
    injection Hstep as <-. cbn [fst snd] in *.
    assert (k' = 0) as -> by lia.
    apply (jobs_inv_update q st i (Refused tk) (Refused tk)); try done.
    pose proof (sum_list_with_insert due st i _ (Refused tk) Hs) as H1.
    pose proof (omap_insert_length entered_ticket st i _ (Refused tk) Hs) as H2.
    cbn [due entered_ticket hits_of] in H1, H2. lia.
Qed.

Lemma jobs_inv_pstep (q q' : pool unit) e :
  serves e -> jobs_inv q -> pstep q e = Some q' -> jobs_inv q'.
Proof.
  intros He Hq Hstep. destruct e as [p|i ans|b].
  - cbn in Hstep. pose proof (jobs_inv_spawn q p He Hq) as H.
    destruct (advance p (shared q)). injection Hstep as <-. exact H.
  - eapply jobs_inv_resume; eauto.
  - cbn in Hstep. injection Hstep as <-.
    destruct Hq as (st & Hfits & Hnd & Hlt & Hsum). exists st. done.
Qed.

Lemma jobs_inv_pexec (es : list (event unit)) (q q' : pool unit) :
  Forall serves es -> jobs_inv q -> pexec es q = Some q' -> jobs_inv q'.
Proof.
  revert q. induction es as [|e es IH]; cbn; intros q Hes Hq Hex.
  - injection Hex as <-. done.
  - apply Forall_cons in Hes as [He Hes].
    destruct (pstep q e) as [q1|] eqn:Hstep; [|done].
    eapply IH; [exact Hes| |exact Hex]. eapply jobs_inv_pstep; eauto.
Qed.

Lemma chosen_are_due w (ps ts : list (prog unit)) st :
  Forall2 (fits w) ts st -> sublist ps ts ->
  Forall (fun p => owes released p 1) ps ->
  length ps <= sum_list_with due st.
Proof.
  intros Hfits. revert ps.
  induction Hfits as [|p s ts st Hp _ IH]; intros ps Hsub Hps.
  - apply sublist_nil_r in Hsub as ->. cbn. lia.
  - apply sublist_cons_r in Hsub as [Hsub|(ps' & -> & Hsub)].
    + specialize (IH ps Hsub Hps). cbn. lia.
    + apply Forall_cons in Hps as [Hp1 Hps].
      specialize (IH ps' Hsub Hps). cbn. rewrite (fits_due w p s Hp Hp1). lia.
Qed.

(** X21. In the running server, with a capacity that is not negative:
    however requests, signals and keep-alive ticks arrive and however
    the event loop interleaves them, the jobs that are inside the render
    operation at the same time (the programs that are suspended with a
    call of [releaseSlot] still to make) are never more than
    [activeJobs], hence never more than [MAX_CONCURRENT]. *)
Theorem jobs_in_render_never_exceed_capacity
    (evs : list (event unit)) q (ps : list (prog unit)) :
  (0 <= MAX_CONCURRENT)%Z ->
  Forall serves evs ->
  pexec evs (Pool boot []) = Some q ->
  sublist ps (tasks q) ->
  Forall (fun p => owes released p 1) ps ->
  (Z.of_nat (length ps) <= activeJobs (slots (shared q)))%Z
  /\ (Z.of_nat (length ps) <= MAX_CONCURRENT)%Z.
Proof.
  intros Hcap Hevs Hex Hsub Hps.
  destruct (jobs_inv_pexec evs (Pool boot []) q Hevs jobs_inv_boot Hex)
    as (st & Hfits & Hnd & Hlt & Hsum).
  destruct (slot_inv_pexec _ (Pool boot []) _ slot_inv_boot Hex)
    as [[Hord _ Hle] Hcnt].
  pose proof (chosen_are_due _ ps _ st Hfits Hsub Hps) as Hdue.
  assert (Hadm : length (omap entered_ticket st)
                 <= length (resolved (slots (shared q)))).
  { apply submseteq_length, NoDup_submseteq.
    - apply (sublist_NoDup _ (omap ticket st)); [exact Hnd|].
      apply omap_sublist. intros [rid req t|t k|t] y; cbn; congruence.
    - intros t Ht. apply list_elem_of_omap in Ht as (s & Hs & Hst).
      destruct s as [rid req t'|t' k|t']; cbn in Hst; try done.
      injection Hst as ->.
      apply list_elem_of_lookup in Hs as (i & Hi).
      destruct (Forall2_lookup_r _ _ _ _ _ Hfits Hi) as (p & _ & _ & Hres).
      exact Hres. }
  assert (Z.of_nat (length ps) <= activeJobs (slots (shared q)))%Z by lia.
  split; [done|]. lia.
Qed.

(** ** The outcome of the admission race *)

Lemma grown_pexec {A : Type} (es : list (event A)) (q q' : pool A) :
  pexec es q = Some q' -> grown (shared q) (shared q').
Proof.
  apply (pexec_invariant (grown (shared q))).
  - intros o w H. eapply grown_trans; [exact H|apply grown_op].
  - intros X c w H. exact H.
  - intros b w H. exact H.
  - apply grown_refl.
Qed.

Lemma racing_waits w rid req t s :
  fits w (racing rid req t) s -> exists rid' req', s = Waiting rid' req' t.
Proof.
  destruct s as [rid' req' t'|t' k|t']; cbn [fits].
  - intros H. exists rid', req'.
    assert (Ht : race_ticket (racing rid req t) = race_ticket (racing rid' req' t'))
      by (rewrite <- H; reflexivity).
    cbn in Ht. congruence.
  - intros [H _]. exfalso.
    pose proof (H (Rejected (JsError EmptyString))) as H0.
    pose proof (H (Fulfilled tt)) as H1. cbn in H0.
    change (logs released (render rid req) k) in H1.
    pose proof (logs_functional released _ _ _ H1 (render_logs_one_release rid req)).
    congruence.
  - intros H. exfalso.
    pose proof (H (Fulfilled tt)) as H1.
    change (logs released (render rid req) 0) in H1.
    pose proof (logs_functional released _ _ _ H1 (render_logs_one_release rid req)).
    congruence.
Qed.

(** X22. In the running server the admission race of a request is
    settled by its promise alone.  When the handler is resumed after its
    promise has been resolved it goes into the render operation, whatever
    has happened meanwhile.  When it is resumed while the promise is
    still unresolved (the timer has fired) it answers 504 and ends; the
    admission state is left as it is, and the promise is still in the
    queue, where a later [releaseSlot] will find it. *)
Theorem race_is_settled_by_the_promise
    (evs : list (event unit)) q i rid req t ans :
  Forall serves evs ->
  pexec evs (Pool boot []) = Some q ->
  tasks q !! i = Some (racing rid req t) ->
  (t ∈ resolved (slots (shared q)) ->
   pstep q (Resume i ans)
   = Some (Pool (advance (render rid req) (shared q)).2
                (<[i := (advance (render rid req) (shared q)).1]> (tasks q))))
  /\ (t ∉ resolved (slots (shared q)) ->
      pstep q (Resume i ans)
      = Some (Pool (apply_op
                      (Respond rid (Json 504 "Request timed out, please try again"))
                      (shared q))
                   (<[i := Ret tt]> (tasks q)))
      /\ slots (apply_op
                  (Respond rid (Json 504 "Request timed out, please try again"))
                  (shared q))
         = slots (shared q)
      /\ t ∈ waitQueue (slots (shared q))).
Proof.
  intros Hevs Hex Hi.
  pose proof (racing_resume q i ans rid req t Hi) as Hr.
  split.
  - intros Hres. rewrite Hr, bool_decide_eq_true_2 by done. done.
  - intros Hres. rewrite Hr, bool_decide_eq_false_2 by done.
    split; [done|]. split; [done|].
    destruct (jobs_inv_pexec evs (Pool boot []) q Hevs jobs_inv_boot Hex)
      as (st & Hfits & _ & Hlt & _).
    destruct (slot_inv_pexec _ (Pool boot []) _ slot_inv_boot Hex) as [[Hord _ _] _].
    destruct (Forall2_lookup_l _ _ _ _ _ Hfits Hi) as (s & Hs & Hfit).
    destruct (racing_waits _ _ _ _ _ Hfit) as (rid' & req' & ->).
    assert (Hin : t ∈ omap ticket st).
    { apply list_elem_of_omap. exists (Waiting rid' req' t).
      split; [|done]. eapply list_elem_of_lookup_2; eauto. }
    apply Hlt in Hin.
    assert (Hseq : t ∈ resolved (slots (shared q)) ++ waitQueue (slots (shared q))).
    { rewrite Hord. apply elem_of_seq. lia. }
    apply elem_of_app in Hseq as [Hseq|Hseq]; done.
Qed.

(** X23. A request that passes the checks and arrives while a slot is
    free is admitted: [acquireSlot] resolves its promise at once, the
    promise stays resolved whatever happens before the handler is
    resumed, and whenever it is resumed it goes into the render
    operation; the timer cannot turn it away. *)
Theorem free_slot_admits_whenever_resumed
    rid req w (ts : list (prog unit)) (evs : list (event unit)) q ans :
  unauthorized req = false ->
  truthy (html req) = true ->
  (activeJobs (slots w) < MAX_CONCURRENT)%Z ->
  pexec (Spawn (post_api_pdf rid req) :: evs) (Pool w ts) = Some q ->
  tasks q !! length ts = Some (racing rid req (tickets (slots w))) ->
  tickets (slots w) ∈ resolved (slots (shared q))
  /\ pstep q (Resume (length ts) ans)
     = Some (Pool (advance (render rid req) (shared q)).2
                  (<[length ts := (advance (render rid req) (shared q)).1]> (tasks q))).
Proof.
  intros Hauth Hhtml Hfree Hex Hi.
  cbn [pexec pstep] in Hex. rewrite (racing_starts rid req _ Hauth Hhtml) in Hex.
  cbn [shared tasks] in Hex.
  apply grown_pexec in Hex as [Hres _]. cbn [shared] in Hres.
  assert (Ht : tickets (slots w) ∈ resolved (slots (shared q))).
  { apply Hres. world_simpl. unfold acquireSlot.
    destruct (Z.ltb_spec (activeJobs (slots w)) MAX_CONCURRENT); [|lia].
    cbn. apply elem_of_app. right. left. }
  split; [done|].
  rewrite (racing_resume q _ ans rid req _ Hi), bool_decide_eq_true_2 by done.
  done.
Qed.

End Server.

(** ** Concrete runs *)

(** C3: the code at the failing input.  Capacity 1, three requests.  The
    first is admitted, the other two wait.  The timer of the second fires
    (it is answered 504) and then the first job runs to its end and calls
    [releaseSlot]: the slot goes to the callback of the request that has
    left, [activeJobs] stays at 1, and the third request, still waiting
    with nothing running, is not handed the slot; its own timer ends it
    with 504.  No job holds a slot any more and the counter says one
    does, so every later request waits in vain. *)
Theorem expired_ticket_swallows_the_released_slot :
  exists q,
    pexec 1
      [Spawn (post_api_pdf EmptyString EmptyString 0 cv_request);
       Spawn (post_api_pdf EmptyString EmptyString 1 cv_request);
       Spawn (post_api_pdf EmptyString EmptyString 2 cv_request);
       Resume 1 ok;
       Resume 0 ok; Resume 0 ok; Resume 0 ok; Resume 0 ok;
       Resume 0 ok; Resume 0 ok; Resume 0 ok; Resume 0 ok;
       Resume 2 ok]
      (Pool boot []) = Some q
    /\ tasks q = [Ret tt; Ret tt; Ret tt]
    /\ sent (shared q) !! 0 = Some (Pdf "%PDF-1.7")
    /\ sent (shared q) !! 1 = Some (Json 504 "Request timed out, please try again")
    /\ sent (shared q) !! 2 = Some (Json 504 "Request timed out, please try again")
    /\ resolved (slots (shared q)) = [0; 1]
    /\ waitQueue (slots (shared q)) = [2]
    /\ activeJobs (slots (shared q)) = 1%Z
    /\ count released (trace (shared q)) = 1
    /\ waitQueue (acquireSlot 1 (slots (shared q))) = [2; 3].
Proof.
  eexists. split; [vm_compute; reflexivity|].
  vm_compute. repeat split; reflexivity.
Qed.

(** C5 fails as stated: two calls that overlap while no browser is held
    launch two browsers, and each caller gets a different one. *)
Lemma two_overlapping_getBrowser_calls_launch_twice :
  exists q,
    pexec 3
      [Spawn getBrowser; Spawn getBrowser;
       Resume 0 (fulfil 1 EmptyString); Resume 1 (fulfil 2 EmptyString)]
      (Pool boot []) = Some q
    /\ tasks q = [Ret (Some 1); Ret (Some 2)]
    /\ browser (shared q) = Some 2
    /\ count launched (trace (shared q)) = 2
    /\ count launched (trace (shared q)) <> 1.
Proof.
  eexists. split; [vm_compute; reflexivity|].
  vm_compute. repeat split; try reflexivity. discriminate.
Qed.

(** C6 fails as stated: two calls for Roboto that overlap while the cache
    has no entry for it fetch twice, and the two callers observe the two
    different texts. *)
Lemma two_overlapping_getFontCSS_calls_fetch_twice :
  exists q,
    pexec 3
      [Spawn (getFontCSS (JStr "Roboto")); Spawn (getFontCSS (JStr "Roboto"));
       Resume 0 ok; Resume 1 ok;
       Resume 0 (fulfil 0 "/* first */"); Resume 1 (fulfil 0 "/* second */")]
      (Pool boot []) = Some q
    /\ tasks q = [Ret "/* first */"; Ret "/* second */"]
    /\ fontCSSCache (shared q) !! "Roboto" = Some "/* second */"
    /\ omap fetched (trace (shared q)) = [roboto_url; roboto_url]
    /\ count fetched (trace (shared q)) <> 1.
Proof.
  eexists. split; [vm_compute; reflexivity|].
  vm_compute. repeat split; try reflexivity. discriminate.
Qed.

(** C7 fails as stated: after a failed fetch for Roboto the cache has no
    entry for it (not an empty one), and the next call fetches again. *)
Lemma failed_fetch_leaves_no_entry_and_is_retried :
  let first := run 3 (getFontCSS (JStr "Roboto")) (fun _ => reject (JsError "fetch failed")) 0 boot in
  let second := run 3 (getFontCSS (JStr "Roboto")) (fun _ => fulfil 0 "/* roboto */") 0 (after first) in
  outcome first = Fulfilled EmptyString
  /\ fontCSSCache (after first) !! "Roboto" = None
  /\ fontCSSCache (after first) !! "Roboto" <> Some EmptyString
  /\ omap fetched (trace (after second)) = [roboto_url; roboto_url]
  /\ fontCSSCache (after second) !! "Roboto" = Some "/* roboto */".
Proof.
  vm_compute. repeat split; try reflexivity. discriminate.
Qed.

(** ** The theorems at concrete inputs *)

Lemma admitted_job_releases_exactly_once_witness :
  let x := run 3 (post_api_pdf EmptyString EmptyString 0 cv_request) (fun _ => ok) 0 boot in
  unauthorized EmptyString cv_request = false
  /\ truthy (html cv_request) = true
  /\ ok unit (SlotRace (tickets (slots boot))) = Fulfilled tt
  /\ outcome x = Fulfilled tt
  /\ slots (after x) = releaseSlot (acquireSlot 3 (slots boot)).
Proof.
  intros x.
  pose proof (admitted_job_releases_exactly_once 3 EmptyString EmptyString 0
                cv_request (fun _ => ok) 0 boot eq_refl eq_refl eq_refl)
    as ((H1 & H2 & _) & _).
  split; [reflexivity|]. split; [reflexivity|]. split; [reflexivity|].
  split; [exact H1|exact H2].
Defined.

Lemma outstanding_slots_never_exceed_capacity_witness :
  let cs := [Arrive; Arrive; Arrive; Expire 2; Finish 0] in
  let s := System (Admission 2 [] [0; 1; 2] 3) [2] [0] in
  let evs := [Spawn (post_api_pdf EmptyString EmptyString 0 cv_request);
              Spawn (post_api_pdf EmptyString EmptyString 1 cv_request);
              Resume 0 ok] in
  let q := default (Pool boot []) (pexec 2 evs (Pool boot [])) in
  (0 <= 2)%Z
  /\ exec 2 cs start = Some s
  /\ pexec 2 evs (Pool boot []) = Some q
  /\ length (holding s) <= length (outstanding s)
  /\ (activeJobs (adm s) <= 2)%Z
  /\ (activeJobs (slots (shared q)) <= 2)%Z.
Proof.
  intros cs s evs q.
  assert (H0 : (0 <= 2)%Z) by lia.
  assert (Hex : exec 2 cs start = Some s) by reflexivity.
  assert (Hpex : pexec 2 evs (Pool boot []) = Some q) by (vm_compute; reflexivity).
  pose proof (outstanding_slots_never_exceed_capacity 2 cs s evs q H0 Hex Hpex)
    as ((H1 & _ & H2) & (_ & H3) & _).
  split; [exact H0|]. split; [exact Hex|]. split; [exact Hpex|].
  split; [exact H1|]. split; [exact H2|exact H3].
Defined.

Lemma slots_are_handed_out_in_arrival_order_witness :
  let evs := [Spawn (post_api_pdf EmptyString EmptyString 0 cv_request);
              Spawn (post_api_pdf EmptyString EmptyString 1 cv_request);
              Spawn (post_api_pdf EmptyString EmptyString 2 cv_request)] in
  let q := default (Pool boot []) (pexec 1 evs (Pool boot [])) in
  pexec 1 evs (Pool boot []) = Some q
  /\ forall i j A B, waitQueue (slots (shared q)) !! i = Some A ->
       waitQueue (slots (shared q)) !! j = Some B -> i < j -> A < B.
Proof.
  intros evs q.
  assert (Hpex : pexec 1 evs (Pool boot []) = Some q) by (vm_compute; reflexivity).
  pose proof (slots_are_handed_out_in_arrival_order 1 evs q Hpex) as (_ & H & _).
  split; [exact Hpex|exact H].
Defined.

Lemma every_overlapping_getBrowser_call_launches_witness :
  let evs := [Resume 0 (fulfil 1 EmptyString); Resume 1 (fulfil 2 EmptyString)] in
  let q := default (Pool boot [])
             (pexec 3 (replicate 2 (Spawn getBrowser) ++ evs) (Pool boot [])) in
  unusable boot = true
  /\ Forall resumption evs
  /\ pexec 3 (replicate 2 (Spawn getBrowser) ++ evs) (Pool boot []) = Some q
  /\ Forall ended (tasks q)
  /\ count launched (trace (shared q)) = count launched (trace boot) + 2.
Proof.
  intros evs q.
  assert (Hw : unusable boot = true) by reflexivity.
  assert (Hevs : Forall resumption evs) by (repeat constructor).
  assert (Hpex : pexec 3 (replicate 2 (Spawn getBrowser) ++ evs) (Pool boot []) = Some q)
    by (vm_compute; reflexivity).
  assert (Hend : Forall ended (tasks q)) by (vm_compute; repeat constructor).
  pose proof (every_overlapping_getBrowser_call_launches 3 2 boot evs q Hw Hevs Hpex Hend)
    as (_ & H & _).
  split; [exact Hw|]. split; [exact Hevs|]. split; [exact Hpex|].
  split; [exact Hend|exact H].
Defined.

Lemma every_overlapping_getFontCSS_call_fetches_witness :
  let evs := [Resume 0 ok; Resume 1 ok;
              Resume 0 (fulfil 0 "/* first */"); Resume 1 (fulfil 0 "/* second */")] in
  let q := default (Pool boot [])
             (pexec 3 (replicate 2 (Spawn (getFontCSS (JStr "Roboto"))) ++ evs)
                (Pool boot [])) in
  FONT_URLS !! "Roboto" = Some roboto_url
  /\ fontCSSCache boot !! "Roboto" = None
  /\ Forall resumption evs
  /\ pexec 3 (replicate 2 (Spawn (getFontCSS (JStr "Roboto"))) ++ evs) (Pool boot [])
     = Some q
  /\ Forall ended (tasks q)
  /\ count fetched (trace (shared q)) = count fetched (trace boot) + 2.
Proof.
  intros evs q.
  assert (Hurl : FONT_URLS !! "Roboto" = Some roboto_url) by (vm_compute; reflexivity).
  assert (Hw : fontCSSCache boot !! "Roboto" = None) by reflexivity.
  assert (Hevs : Forall resumption evs) by (repeat constructor).
  assert (Hpex : pexec 3 (replicate 2 (Spawn (getFontCSS (JStr "Roboto"))) ++ evs)
                   (Pool boot []) = Some q) by (vm_compute; reflexivity).
  assert (Hend : Forall ended (tasks q)) by (vm_compute; repeat constructor).
  pose proof (every_overlapping_getFontCSS_call_fetches 3 2 "Roboto" roboto_url boot
                evs q Hurl Hw Hevs Hpex Hend) as (_ & H & _).
  split; [exact Hurl|]. split; [exact Hw|]. split; [exact Hevs|].
  split; [exact Hpex|]. split; [exact Hend|exact H].
Defined.

Lemma failed_fetch_is_not_cached_witness :
  let env := fun _ : nat => reject (JsError "fetch failed") in
  let w' := after (run 3 (getFontCSS (JStr "Roboto")) env 0 boot) in
  FONT_URLS !! "Roboto" = Some roboto_url
  /\ fontCSSCache boot !! "Roboto" = None
  /\ env 0 unit (Fetch roboto_url) = Rejected (JsError "fetch failed")
  /\ outcome (run 3 (getFontCSS (JStr "Roboto")) env 0 boot) = Fulfilled EmptyString
  /\ fontCSSCache w' !! "Roboto" = None.
Proof.
  intros env w'.
  assert (Hurl : FONT_URLS !! "Roboto" = Some roboto_url) by (vm_compute; reflexivity).
  assert (Hw : fontCSSCache boot !! "Roboto" = None) by reflexivity.
  assert (Hf : env 0 unit (Fetch roboto_url) = Rejected (JsError "fetch failed"))
    by reflexivity.
  pose proof (failed_fetch_is_not_cached 3 "Roboto" roboto_url env 0 boot
                (JsError "fetch failed") Hurl Hw (or_introl Hf)) as (H1 & _ & H2 & _).
  split; [exact Hurl|]. split; [exact Hw|]. split; [exact Hf|].
  split; [exact H1|exact H2].
Defined.

Lemma crash_resets_browser_other_errors_keep_it_witness :
  let env := fun _ : nat => pdf_crashes in
  let x := run 3 (try_block EmptyString 0 cv_request) env 0 (apply_op 3 (LetPage 0) boot) in
  let w3 := after (run 3 (render EmptyString 0 cv_request) env 0 boot) in
  x = (Rejected target_closed, after x, 6)
  /\ sent boot !! 0 = None
  /\ crashed target_closed = true
  /\ browser (after x) = Some 1
  /\ browser w3 = None
  /\ sent w3 !! 0 = Some (Json 500 "PDF generation failed").
Proof.
  intros env x w3.
  assert (Hx : x = (Rejected target_closed, after x, 6)) by (vm_compute; reflexivity).
  assert (Hs : sent boot !! 0 = None) by reflexivity.
  pose proof (crash_resets_browser_other_errors_keep_it 3 EmptyString 0 cv_request
                env 0 boot target_closed (after x) 6 Hx Hs) as (_ & _ & H1 & H2 & _).
  assert (Hc : crashed target_closed = true) by reflexivity.
  destruct (H1 Hc) as [Hnull _].
  split; [exact Hx|]. split; [exact Hs|]. split; [exact Hc|].
  split; [vm_compute; reflexivity|]. split; [exact Hnull|exact H2].
Defined.

Lemma rejected_request_touches_nothing_witness :
  let x := run 3 (post_api_pdf "s3cret" EmptyString 0 cv_request) (fun _ => ok) 0 boot in
  ("s3cret" <> EmptyString /\ apiKey cv_request <> Some "s3cret")
  /\ slots (after x) = slots boot
  /\ browser (after x) = browser boot
  /\ fontCSSCache (after x) = fontCSSCache boot
  /\ sent (after x) !! 0 = Some (Json 401 "Unauthorized").
Proof.
  intros x.
  assert (Hk : "s3cret" <> EmptyString /\ apiKey cv_request <> Some "s3cret")
    by (split; discriminate).
  pose proof (rejected_request_touches_nothing 3 "s3cret" EmptyString 0 cv_request
                (fun _ => ok) 0 boot (or_introl Hk)) as (r & _ & _ & _ & H1 & H2 & H3 & _).
  split; [exact Hk|]. split; [exact H1|]. split; [exact H2|].
  split; [exact H3|]. vm_compute; reflexivity.
Defined.

(** ** The further theorems at concrete inputs *)

Lemma matched_releases_leave_the_server_idle_witness :
  let evs := Spawn (post_api_pdf EmptyString EmptyString 0 cv_request)
             :: replicate 8 (Resume 0 ok) in
  let q := default (Pool boot []) (pexec 2 evs (Pool boot [])) in
  (0 <= 2)%Z
  /\ pexec 2 evs (Pool boot []) = Some q
  /\ count released (trace (shared q)) = count acquired (trace (shared q))
  /\ activeJobs (slots (shared q)) = 0%Z
  /\ waitQueue (slots (shared q)) = [].
Proof.
  intros evs q.
  assert (H0 : (0 <= 2)%Z) by lia.
  assert (Hpex : pexec 2 evs (Pool boot []) = Some q) by (vm_compute; reflexivity).
  assert (Heq : count released (trace (shared q)) = count acquired (trace (shared q)))
    by (vm_compute; reflexivity).
  pose proof (matched_releases_leave_the_server_idle 2 evs q H0 Hpex) as (_ & _ & H).
  destruct (H Heq) as [H1 H2].
  split; [exact H0|]. split; [exact Hpex|]. split; [exact Heq|].
  split; [exact H1|exact H2].
Defined.

Lemma every_promise_is_resolved_or_queued_once_witness :
  let evs := [Spawn (post_api_pdf EmptyString EmptyString 0 cv_request);
              Spawn (post_api_pdf EmptyString EmptyString 1 cv_request);
              Spawn (post_api_pdf EmptyString EmptyString 2 cv_request)] in
  let q := default (Pool boot []) (pexec 1 evs (Pool boot [])) in
  pexec 1 evs (Pool boot []) = Some q
  /\ NoDup (resolved (slots (shared q)) ++ waitQueue (slots (shared q)))
  /\ forall t, t ∈ resolved (slots (shared q)) -> t ∉ waitQueue (slots (shared q)).
Proof.
  intros evs q.
  assert (Hpex : pexec 1 evs (Pool boot []) = Some q) by (vm_compute; reflexivity).
  pose proof (every_promise_is_resolved_or_queued_once 1 evs q Hpex) as (H1 & _ & H2).
  split; [exact Hpex|]. split; [exact H1|exact H2].
Defined.

Lemma health_reports_a_queue_only_at_capacity_witness :
  let evs := [Spawn (post_api_pdf EmptyString EmptyString 0 cv_request);
              Spawn (post_api_pdf EmptyString EmptyString 1 cv_request)] in
  let q := default (Pool boot []) (pexec 1 evs (Pool boot [])) in
  (0 <= 1)%Z
  /\ pexec 1 evs (Pool boot []) = Some q
  /\ 0 < queued (health (shared q))
  /\ health_activeJobs (health (shared q)) = 1%Z
  /\ browserConnected (health (shared q)) = false.
Proof.
  intros evs q.
  assert (H0 : (0 <= 1)%Z) by lia.
  assert (Hpex : pexec 1 evs (Pool boot []) = Some q) by (vm_compute; reflexivity).
  assert (Hq : 0 < queued (health (shared q))) by (vm_compute; lia).
  assert (Hb : browser (shared q) = None) by (vm_compute; reflexivity).
  pose proof (health_reports_a_queue_only_at_capacity 1 evs q H0 Hpex)
    as (_ & _ & H1 & _ & H2).
  split; [exact H0|]. split; [exact Hpex|]. split; [exact Hq|].
  split; [exact (H1 Hq)|exact (H2 Hb)].
Defined.

Lemma lost_slots_count_against_the_capacity_witness :
  let cs := [Arrive; Arrive; Expire 1; Finish 0] in
  let s := System (Admission 1 [] [0; 1] 2) [1] [0] in
  exec 1 cs start = Some s
  /\ activeJobs (adm s) = Z.of_nat (length (holding s) + length (lost s))
  /\ forall t, t ∈ lost s -> t ∉ finished s.
Proof.
  intros cs s.
  assert (Hex : exec 1 cs start = Some s) by reflexivity.
  pose proof (lost_slots_count_against_the_capacity 1 cs s Hex) as (H1 & _ & H2 & _).
  split; [exact Hex|]. split; [exact H1|exact H2].
Defined.

Lemma lost_race_answers_504_and_leaves_the_promise_witness :
  let env := fun _ : nat => reject QUEUE_TIMEOUT in
  let x := run 0 (post_api_pdf EmptyString EmptyString 0 cv_request) env 0 boot in
  unauthorized EmptyString cv_request = false
  /\ truthy (html cv_request) = true
  /\ env 0 unit (SlotRace (tickets (slots boot))) = Rejected QUEUE_TIMEOUT
  /\ slots (after x) = acquireSlot 0 (slots boot)
  /\ outcome x = Fulfilled tt
  /\ sent (after x) = <[0 := Json 504 "Request timed out, please try again"]> (sent boot).
Proof.
  intros env x.
  assert (Ha : unauthorized EmptyString cv_request = false) by reflexivity.
  assert (Hh : truthy (html cv_request) = true) by reflexivity.
  assert (Hr : env 0 unit (SlotRace (tickets (slots boot))) = Rejected QUEUE_TIMEOUT)
    by reflexivity.
  pose proof (lost_race_answers_504_and_leaves_the_promise 0 EmptyString EmptyString
                0 cv_request env 0 boot QUEUE_TIMEOUT Ha Hh Hr)
    as (H1 & _ & _ & _ & H2 & _).
  destruct (H2 eq_refl) as (H3 & H4 & _).
  split; [exact Ha|]. split; [exact Hh|]. split; [exact Hr|].
  split; [exact H1|]. split; [exact H3|exact H4].
Defined.

Lemma every_request_is_answered_exactly_once_witness :
  let env := fun _ : nat => pdf_crashes in
  let x := run 3 (post_api_pdf EmptyString EmptyString 0 cv_request) env 0 boot in
  sent boot !! 0 = None
  /\ (forall e, env 0 unit (SlotRace (tickets (slots boot))) = Rejected e ->
        message e = "QUEUE_TIMEOUT")
  /\ outcome x = Fulfilled tt
  /\ exists resp new,
       trace (after x) = trace boot ++ new
       /\ omap responded new = [(0, resp)].
Proof.
  intros env x.
  assert (Hs : sent boot !! 0 = None) by reflexivity.
  assert (Hr : forall e, env 0 unit (SlotRace (tickets (slots boot))) = Rejected e ->
                         message e = "QUEUE_TIMEOUT").
  { intros e H. discriminate H. }
  pose proof (every_request_is_answered_exactly_once 3 EmptyString EmptyString
                0 cv_request env 0 boot Hs Hr) as (H1 & resp & new & H2 & H3 & _).
  split; [exact Hs|]. split; [exact Hr|]. split; [exact H1|].
  exists resp, new. split; [exact H2|exact H3].
Defined.


Lemma fetched_font_is_cached_and_served_from_the_cache_witness :
  let env := fun _ : nat => fulfil 0 "/* roboto */" in
  let x := run 3 (getFontCSS (JStr "Roboto")) env 0 boot in
  FONT_URLS !! "Roboto" = Some roboto_url
  /\ fontCSSCache boot !! "Roboto" = None
  /\ env 0 unit (Fetch roboto_url) = Fulfilled tt
  /\ env 1 string (ResText roboto_url) = Fulfilled "/* roboto */"
  /\ outcome x = Fulfilled "/* roboto */"
  /\ fontCSSCache (after x) !! "Roboto" = Some "/* roboto */"
  /\ forall (env' : nat -> answer) m,
       run 3 (getFontCSS (JStr "Roboto")) env' m (after x)
       = (Fulfilled "/* roboto */", after x, m).
Proof.
  intros env x.
  assert (Hurl : FONT_URLS !! "Roboto" = Some roboto_url) by (vm_compute; reflexivity).
  assert (Hw : fontCSSCache boot !! "Roboto" = None) by reflexivity.
  assert (Hf : env 0 unit (Fetch roboto_url) = Fulfilled tt) by reflexivity.
  assert (Ht : env 1 string (ResText roboto_url) = Fulfilled "/* roboto */")
    by reflexivity.
  pose proof (fetched_font_is_cached_and_served_from_the_cache 3 "Roboto" roboto_url
                "/* roboto */" env 0 boot Hurl Hw Hf Ht)
    as (H1 & _ & H2 & _ & _ & H3).
  split; [exact Hurl|]. split; [exact Hw|]. split; [exact Hf|]. split; [exact Ht|].
  split; [exact H1|]. split; [exact H2|exact H3].
Defined.

Lemma font_named_by_an_array_is_fetched_every_time_witness :
  let env := fun _ : nat => fulfil 0 "/* roboto */" in
  let x := run 3 (getFontCSS (fontFamily array_request)) env 0 boot in
  font_url (JObj "Roboto") = Some roboto_url
  /\ fontFamily array_request = JObj "Roboto"
  /\ wants_font array_request = true
  /\ fontCSSCache (after x) = fontCSSCache boot
  /\ forall (env' : nat -> answer) m,
       omap fetched
         (trace (after (run 3 (getFontCSS (fontFamily array_request)) env' m (after x))))
       = omap fetched (trace (after x)) ++ [roboto_url].
Proof.
  intros env x.
  assert (Hurl : font_url (JObj "Roboto") = Some roboto_url) by (vm_compute; reflexivity).
  assert (Hfam : fontFamily array_request = JObj "Roboto") by reflexivity.
  pose proof (font_named_by_an_array_is_fetched_every_time 3 "Roboto" roboto_url
                array_request env 0 boot Hurl Hfam) as (H1 & _ & H2 & H3).
  split; [exact Hurl|]. split; [exact Hfam|]. split; [exact H1|].
  split; [exact H2|exact H3].
Defined.

Lemma unknown_font_is_treated_as_no_font_witness :
  wants_font comic_request = false
  /\ post_api_pdf EmptyString EmptyString 0 comic_request
     = post_api_pdf EmptyString EmptyString 0 cv_request
  /\ wants_font constructor_request = true.
Proof.
  assert (Hno : wants_font comic_request = false) by (vm_compute; reflexivity).
  pose proof (unknown_font_is_treated_as_no_font EmptyString EmptyString 0 comic_request)
    as (_ & H & _).
  pose proof (unknown_font_is_treated_as_no_font EmptyString EmptyString 0
                constructor_request) as (_ & _ & H').
  split; [exact Hno|]. split; [exact (H Hno)|].
  apply (H' "constructor"); [repeat constructor|reflexivity].
Defined.

Lemma getBrowser_replaces_an_unusable_browser_witness :
  let env := fun _ : nat => no_chromium in
  let x := run 3 getBrowser env 0 boot in
  unusable boot = true
  /\ omap launched (trace (after x)) = omap launched (trace boot) ++ [tt]
  /\ outcome x = Rejected (JsError "Failed to launch the browser process")
  /\ browser (after x) = browser boot
  /\ unusable (after x) = true.
Proof.
  intros env x.
  assert (Hw : unusable boot = true) by reflexivity.
  pose proof (getBrowser_replaces_an_unusable_browser 3 env 0 boot Hw)
    as (_ & H1 & _ & H2).
  destruct (H2 (JsError "Failed to launch the browser process") eq_refl)
    as (H3 & H4 & _ & H5).
  split; [exact Hw|]. split; [exact H1|]. split; [exact H3|].
  split; [exact H4|exact H5].
Defined.

Lemma server_tasks_never_reject_witness :
  let evs := [Spawn (post_api_pdf EmptyString EmptyString 0 cv_request);
              Resume 0 ok; Resume 0 no_chromium] in
  let q := default (Pool boot []) (pexec 3 evs (Pool boot [])) in
  Forall (serves EmptyString EmptyString) evs
  /\ pexec 3 evs (Pool boot []) = Some q
  /\ sent (shared q) !! 0 = Some (Json 500 "PDF generation failed")
  /\ forall i p, tasks q !! i = Some p -> ended p -> p = Ret tt.
Proof.
  intros evs q.
  assert (Hevs : Forall (serves EmptyString EmptyString) evs).
  { constructor; [left; exists 0, cv_request; reflexivity|repeat constructor]. }
  assert (Hpex : pexec 3 evs (Pool boot []) = Some q) by (vm_compute; reflexivity).
  pose proof (server_tasks_never_reject 3 EmptyString EmptyString evs boot q Hevs Hpex)
    as H.
  split; [exact Hevs|]. split; [exact Hpex|].
  split; [vm_compute; reflexivity|exact H].
Defined.


Lemma prewarm_caches_what_it_could_fetch_witness :
  let evs := [Resume 0 offline;
              Resume 1 ok; Resume 1 ok; Resume 2 ok; Resume 2 ok;
              Resume 4 ok; Resume 3 ok; Resume 3 offline; Resume 4 ok;
              Resume 5 ok; Resume 6 ok; Resume 6 ok; Resume 5 ok] in
  let q := default (Pool boot [])
             (pexec 3 ((Spawn <$> prewarmFontCache) ++ evs) (Pool boot [])) in
  Forall resumption evs
  /\ pexec 3 ((Spawn <$> prewarmFontCache) ++ evs) (Pool boot []) = Some q
  /\ Forall ended (tasks q)
  /\ omap fetched (trace (shared q))
     = omap fetched (trace boot) ++ omap (to_fetch boot) FONT_NAMES
  /\ fontCSSCache (shared q) !! "Inter" = None
  /\ fontCSSCache (shared q) !! "Roboto" = Some "%PDF-1.7".
Proof.
  intros evs q.
  assert (Hevs : Forall resumption evs) by (repeat constructor).
  assert (Hpex : pexec 3 ((Spawn <$> prewarmFontCache) ++ evs) (Pool boot []) = Some q)
    by (vm_compute; reflexivity).
  assert (Hend : Forall ended (tasks q)) by (vm_compute; repeat constructor).
  pose proof (prewarm_caches_what_it_could_fetch 3 boot evs q Hevs Hpex Hend)
    as (_ & H & _).
  split; [exact Hevs|]. split; [exact Hpex|]. split; [exact Hend|].
  split; [exact H|]. split; vm_compute; reflexivity.
Defined.

Lemma turned_away_exactly_for_the_key_or_the_html_witness :
  let env := fun _ : nat => ok in
  let x := run 3 (post_api_pdf "s3cret" EmptyString 0 cv_request) env 0 boot in
  sent boot !! 0 = None
  /\ (forall e, env 0 unit (SlotRace (tickets (slots boot))) = Rejected e ->
        message e = "QUEUE_TIMEOUT")
  /\ sent (after x) !! 0 = Some (Json 401 "Unauthorized")
  /\ sent (after x) !! 0 <> Some (Json 400 "HTML content is required").
Proof.
  intros env x.
  assert (Hs : sent boot !! 0 = None) by reflexivity.
  assert (Hr : forall e, env 0 unit (SlotRace (tickets (slots boot))) = Rejected e ->
                         message e = "QUEUE_TIMEOUT").
  { intros e H. discriminate H. }
  assert (Hk : "s3cret" <> EmptyString /\ apiKey cv_request <> Some "s3cret")
    by (split; discriminate).
  pose proof (turned_away_exactly_for_the_key_or_the_html 3 "s3cret" EmptyString
                0 cv_request env 0 boot Hs Hr) as (H1 & H2 & _).
  split; [exact Hs|]. split; [exact Hr|].
  split; [exact (proj2 H1 Hk)|].
  intros H. destruct (proj1 H2 H) as [Hno _]. exact (Hno Hk).
Defined.

Lemma keep_alive_pings_health_and_ignores_failure_witness :
  let url := "https://yourcv-pdf-service.onrender.com" in
  startKeepAlive (Some url) = Some (keepAlive url)
  /\ exists u, Some url = Some u /\ u <> EmptyString
       /\ run 3 (keepAlive url) (fun _ => offline) 0 boot
          = (Fulfilled tt, note (Fetch (u +:+ "/health")) boot, 1).
Proof.
  intros url.
  assert (H : startKeepAlive (Some url) = Some (keepAlive url)) by reflexivity.
  split; [exact H|].
  exact (keep_alive_pings_health_and_ignores_failure 3 (Some url) (keepAlive url)
           (fun _ => offline) 0 boot H).
Defined.

Lemma jobs_in_render_never_exceed_capacity_witness :
  let evs := [Spawn (post_api_pdf EmptyString EmptyString 0 cv_request);
              Spawn (post_api_pdf EmptyString EmptyString 1 cv_request);
              Resume 0 ok] in
  let q := default (Pool boot []) (pexec 1 evs (Pool boot [])) in
  let ps := take 1 (tasks q) in
  (0 <= 1)%Z
  /\ Forall (serves EmptyString EmptyString) evs
  /\ pexec 1 evs (Pool boot []) = Some q
  /\ sublist ps (tasks q)
  /\ Forall (fun p => owes released p 1) ps
  /\ (Z.of_nat (length ps) <= 1)%Z.
Proof.
  intros evs q ps.
  assert (H0 : (0 <= 1)%Z) by lia.
  assert (Hevs : Forall (serves EmptyString EmptyString) evs).
  { constructor; [left; exists 0, cv_request; reflexivity|].
    constructor; [left; exists 1, cv_request; reflexivity|repeat constructor]. }
  assert (Hpex : pexec 1 evs (Pool boot []) = Some q) by (vm_compute; reflexivity).
  assert (Hsub : sublist ps (tasks q)) by apply sublist_take.
  assert (Hps : Forall (fun p => owes released p 1) ps).
  { set (w1 := shared (default (Pool boot [])
                         (pexec 1 (take 2 evs) (Pool boot [])))).
    destruct (advance_logs 1 released (render EmptyString 0 cv_request) 1 w1
                (render_logs_one_release EmptyString 0 cv_request))
      as (k' & Hk' & Hcount).
    assert (k' = 1) as -> by (vm_compute in Hcount; lia).
    constructor; [exact Hk'|constructor]. }
  pose proof (jobs_in_render_never_exceed_capacity 1 EmptyString EmptyString
                evs q ps H0 Hevs Hpex Hsub Hps) as (_ & H).
  split; [exact H0|]. split; [exact Hevs|]. split; [exact Hpex|].
  split; [exact Hsub|]. split; [exact Hps|exact H].
Defined.

Lemma race_is_settled_by_the_promise_witness :
  let evs := [Spawn (post_api_pdf EmptyString EmptyString 0 cv_request);
              Spawn (post_api_pdf EmptyString EmptyString 1 cv_request)] in
  let q := default (Pool boot []) (pexec 1 evs (Pool boot [])) in
  Forall (serves EmptyString EmptyString) evs
  /\ pexec 1 evs (Pool boot []) = Some q
  /\ tasks q !! 1 = Some (racing EmptyString 1 cv_request 1)
  /\ (1 ∉ resolved (slots (shared q)))
  /\ pstep 1 q (Resume 1 ok)
     = Some (Pool (apply_op 1
                     (Respond 1 (Json 504 "Request timed out, please try again"))
                     (shared q))
                  (<[1 := Ret tt]> (tasks q)))
  /\ (1 ∈ waitQueue (slots (shared q))).
Proof.
  intros evs q.
  assert (Hevs : Forall (serves EmptyString EmptyString) evs).
  { constructor; [left; exists 0, cv_request; reflexivity|].
    constructor; [left; exists 1, cv_request; reflexivity|constructor]. }
  assert (Hpex : pexec 1 evs (Pool boot []) = Some q) by (vm_compute; reflexivity).
  assert (Hi : tasks q !! 1 = Some (racing EmptyString 1 cv_request 1)) by reflexivity.
  assert (Hres : 1 ∉ resolved (slots (shared q))).
  { intros H. change (1 ∈ [0]) in H.
    apply elem_of_cons in H as [H|H]; [discriminate H|].
    apply elem_of_nil in H. exact H. }
  pose proof (race_is_settled_by_the_promise 1 EmptyString EmptyString evs q 1 1
                cv_request 1 ok Hevs Hpex Hi) as (_ & H).
  destruct (H Hres) as (H1 & _ & H2).
  split; [exact Hevs|]. split; [exact Hpex|]. split; [exact Hi|].
  split; [exact Hres|]. split; [exact H1|exact H2].
Defined.

Lemma free_slot_admits_whenever_resumed_witness :
  let evs := [Spawn (post_api_pdf EmptyString EmptyString 1 cv_request);
              Crash 7; Resume 1 ok] in
  let q := default (Pool boot [])
             (pexec 1 (Spawn (post_api_pdf EmptyString EmptyString 0 cv_request) :: evs)
                (Pool boot [])) in
  unauthorized EmptyString cv_request = false
  /\ truthy (html cv_request) = true
  /\ (activeJobs (slots boot) < 1)%Z
  /\ pexec 1 (Spawn (post_api_pdf EmptyString EmptyString 0 cv_request) :: evs)
       (Pool boot []) = Some q
  /\ tasks q !! 0 = Some (racing EmptyString 0 cv_request (tickets (slots boot)))
  /\ (tickets (slots boot) ∈ resolved (slots (shared q)))
  /\ pstep 1 q (Resume 0 ok)
     = Some (Pool (advance 1 (render EmptyString 0 cv_request) (shared q)).2
                  (<[0 := (advance 1 (render EmptyString 0 cv_request) (shared q)).1]>
                     (tasks q))).
Proof.
  intros evs q.
  assert (Ha : unauthorized EmptyString cv_request = false) by reflexivity.
  assert (Hh : truthy (html cv_request) = true) by reflexivity.
  assert (Hf : (activeJobs (slots boot) < 1)%Z) by (cbn; lia).
  assert (Hpex : pexec 1 (Spawn (post_api_pdf EmptyString EmptyString 0 cv_request) :: evs)
                   (Pool boot []) = Some q) by (vm_compute; reflexivity).
  assert (Hi : tasks q !! 0
               = Some (racing EmptyString 0 cv_request (tickets (slots boot))))
    by reflexivity.
  pose proof (free_slot_admits_whenever_resumed 1 EmptyString EmptyString 0 cv_request
                boot [] evs q ok Ha Hh Hf Hpex Hi) as (H1 & H2).
  split; [exact Ha|]. split; [exact Hh|]. split; [exact Hf|]. split; [exact Hpex|].
  split; [exact Hi|]. split; [exact H1|exact H2].
Defined.

Lemma inherited_name_passes_the_font_test_witness :
  let text := "function Object() { [native code] }" in
  let env := fun _ : nat => with_url_check ok in
  let x := run 3 (post_api_pdf EmptyString EmptyString 0 constructor_request) env 0 boot in
  OBJECT_PROTOTYPE !! "constructor" = Some text
  /\ fontFamily constructor_request = JStr "constructor"
  /\ fontCSSCache boot !! "constructor" = None
  /\ unauthorized EmptyString constructor_request = false
  /\ truthy (html constructor_request) = true
  /\ primitive (html constructor_request)
  /\ primitive (css constructor_request)
  /\ (forall m X (c : call X), server_works X c (env m X c))
  /\ wants_font constructor_request = true
  /\ exists new b p bytes,
       trace (after x) = trace boot ++ new
       /\ omap fetched new = [text]
       /\ omap page_call new
          = page_prefix constructor_request b p
              (base_font EmptyString +:+ newline +:+ EmptyString) 5 ++ [PClose p]
       /\ fontCSSCache (after x) = fontCSSCache boot
       /\ sent (after x) !! 0 = Some (Pdf bytes).
Proof.
  intros text env x.
  assert (Hv : OBJECT_PROTOTYPE !! "constructor" = Some text) by (vm_compute; reflexivity).
  assert (Hfam : fontFamily constructor_request = JStr "constructor") by reflexivity.
  assert (Hc : fontCSSCache boot !! "constructor" = None) by reflexivity.
  assert (Ha : unauthorized EmptyString constructor_request = false) by reflexivity.
  assert (Hh : truthy (html constructor_request) = true) by reflexivity.
  assert (Henv : forall m X (c : call X), server_works X c (env m X c)).
  { intros m X c. apply with_url_check_works, fulfil_chromium_works. }
  pose proof (inherited_name_passes_the_font_test 3 EmptyString EmptyString 0
                constructor_request "constructor" text env 0 boot
                Hv Hfam Hc Ha Hh I I Henv) as (H1 & _ & H2 & _).
  split; [exact Hv|]. split; [exact Hfam|]. split; [exact Hc|]. split; [exact Ha|].
  split; [exact Hh|]. split; [exact I|]. split; [exact I|].
  split; [exact Henv|]. split; [exact H1|exact H2].
Defined.

Lemma letter_only_for_the_string_Letter_witness :
  let env := fun _ : nat => ok in
  let x := run 3 (post_api_pdf EmptyString EmptyString 0 legal_request) env 0 boot in
  format legal_request <> JStr "Letter"
  /\ sent boot !! 0 = None
  /\ unauthorized EmptyString legal_request = false
  /\ truthy (html legal_request) = true
  /\ primitive (html legal_request)
  /\ primitive (css legal_request)
  /\ primitive (fontFamily legal_request)
  /\ (forall m X (c : call X), chromium_works X c (env m X c))
  /\ paper legal_request = "a4"
  /\ exists new,
       trace (after x) = trace boot ++ new
       /\ omap pdf_format new = ["a4"]
       /\ exists bytes, sent (after x) !! 0 = Some (Pdf bytes).
Proof.
  intros env x.
  assert (Hne : format legal_request <> JStr "Letter") by discriminate.
  assert (Hs : sent boot !! 0 = None) by reflexivity.
  assert (Ha : unauthorized EmptyString legal_request = false) by reflexivity.
  assert (Hh : truthy (html legal_request) = true) by reflexivity.
  assert (Henv : forall m X (c : call X), chromium_works X c (env m X c)).
  { intros m X c. apply fulfil_chromium_works. }
  pose proof (letter_only_for_the_string_Letter 3 EmptyString EmptyString 0
                legal_request env 0 boot) as (_ & Ha4 & (new & Ht & _ & _ & Hok) & _).
  destruct (Hok Ha Hh I I I Henv) as (_ & Hfmt & Hb).
  rewrite (Ha4 Hne) in Hfmt.
  split; [exact Hne|]. split; [exact Hs|]. split; [exact Ha|]. split; [exact Hh|].
  split; [exact I|]. split; [exact I|]. split; [exact I|].
  split; [exact Henv|]. split; [exact (Ha4 Hne)|].
  exists new. split; [exact Ht|]. split; [exact Hfmt|exact Hb].
Defined.
